(** * MAPPATORE: the calibration and measurement engine of [App.tsx]

    A shallow embedding of the coordinate arithmetic, the polygon area and the
    click-driven interaction logic of the image mapper, with the properties of
    the written specification settled against it.

    Numbers.  A JavaScript [number] is read here in exact arithmetic: a finite
    number is a real of [R], with no rounding, no overflow and a single zero.
    Under that reading every number the handlers compute from finite inputs is
    finite, with one exception: the quotient [pixelDistance / knownDistance]
    stored as the scale, whose divisor the user types.  The scale therefore has
    the type [JS.number], which adds the two infinities and [NaN]. *)

From Stdlib Require Import Reals Lra Lia Psatz ZArith String Ascii Bool List.
From Stdlib Require Import DecimalString.
From Stdlib Require DecimalNat DecimalFacts.
Import ListNotations.

Local Open Scope R_scope.

(** ** The platform: ECMAScript operators and [Math] functions *)

Module JS.

(** The Number type, as far as the program can produce it. *)
Inductive number : Type :=
| Finite (r : R)
| PosInfinity
| NegInfinity
| NaN.

(** [ToBoolean] of a number: [0] and [NaN] are falsy, all else is truthy. *)
Definition truthy (n : number) : bool :=
  match n with
  | Finite r => if Req_dec_T r 0 then false else true
  | PosInfinity | NegInfinity => true
  | NaN => false
  end.

(** [a / b] on finite operands; the zero divisor is the positive zero, which
    is the only zero that [parseFloat(v) || 0] and the literals give. *)
Definition div (a b : R) : number :=
  if Req_dec_T b 0 then
    match total_order_T a 0 with
    | inleft (left _) => NegInfinity
    | inleft (right _) => NaN
    | inright _ => PosInfinity
    end
  else Finite (a / b).

(** [a / d] for a finite [a] and a truthy divisor [d]: a finite number over
    an infinity is a zero.  ([NaN] is never a truthy divisor; the quotient
    there is [NaN], for which this reading has no real, and [0] stands in.)
    The zero has no sign here.  On the platform the quotient is the negative
    zero when [a] is negative and [d] is [Infinity], when [a] is positive and
    [d] is [-Infinity], and when [a] is the zero [x - x] and [d] is negative;
    only [Math.atan2] tells the two zeros apart, see [atan2]. *)
Definition div_truthy (a : R) (d : number) : R :=
  match d with
  | Finite r => a / r
  | PosInfinity | NegInfinity => 0
  | NaN => 0
  end.

(** The integer part of a real, rounding towards zero. *)
Definition trunc (x : R) : Z :=
  if Rle_dec 0 x then Int_part x else (- Int_part (- x))%Z.

(** [n % d] for finite [n] and finite non-zero [d] (Number::remainder):
    [n - d * q] where [q] is the quotient [n / d] truncated towards zero, so
    that the result has the sign of the dividend. *)
Definition rem (n d : R) : R := n - d * IZR (trunc (n / d)).

(** [Math.atan2(y, x)]: the angle in (-PI, PI] of the point (x, y) seen from
    the origin, counted from the positive x axis; [atan2(0, 0)] is [0].
    This is the platform's function wherever [y] is not a zero, and wherever
    [x] is positive.  For [y] a zero and [x] a zero or negative the platform
    goes by the signs of the zeros: [atan2(+0, +0) = +0], [atan2(+0, -0) = PI],
    [atan2(-0, -0) = -PI], [atan2(+0, x) = PI] and [atan2(-0, x) = -PI] for
    [x < 0]; with the single zero of this reading those cases are [0] for
    [x = 0] and [PI] for [x < 0], so that there the platform's angle may be
    [PI] or [-PI] where this one is [0], and [-PI] where this one is [PI].
    The platform's range is [-PI, PI]. *)
Definition atan2 (y x : R) : R :=
  match total_order_T x 0 with
  | inright _ => atan (y / x)
  | inleft (right _) =>
      match total_order_T y 0 with
      | inright _ => PI / 2
      | inleft (right _) => 0
      | inleft (left _) => - (PI / 2)
      end
  | inleft (left _) =>
      if Rle_dec 0 y then atan (y / x) + PI else atan (y / x) - PI
  end.

(** [Math.pow(x, 2)] and [x ** 2]. *)
Definition pow2 (x : R) : R := x * x.

(** Comparison of two strings with [<]: code unit by code unit, a proper
    prefix being smaller. *)
Fixpoint string_lt (a b : string) : bool :=
  match a, b with
  | _, EmptyString => false
  | EmptyString, String _ _ => true
  | String c a', String d b' =>
      if (nat_of_ascii c <? nat_of_ascii d)%nat then true
      else if (nat_of_ascii d <? nat_of_ascii c)%nat then false
      else string_lt a' b'
  end.

(** White space and line terminators of [String.prototype.trim] among the
    code units below 256, which are those a [string] here is made of: TAB, LF,
    VT, FF, CR, SP and NBSP. *)
Definition is_white_space (c : ascii) : bool :=
  let n := nat_of_ascii c in
  ((9 <=? n) && (n <=? 13) || (n =? 32) || (n =? 160))%nat.

Fixpoint trim_start (s : string) : string :=
  match s with
  | String c s' => if is_white_space c then trim_start s' else s
  | EmptyString => EmptyString
  end.

Fixpoint trim_end (s : string) : string :=
  match s with
  | String c s' =>
      match trim_end s' with
      | EmptyString => if is_white_space c then EmptyString else String c EmptyString
      | t => String c t
      end
  | EmptyString => EmptyString
  end.

Definition trim (s : string) : string := trim_end (trim_start s).

(** A template literal's rendering of a small natural number. *)
Definition nat_to_string (n : nat) : string :=
  NilEmpty.string_of_uint (Nat.to_uint n).

End JS.

(** ** types.ts *)

Record PixelCoords : Type := mkPixelCoords { pixel_x : R; pixel_y : R }.

Record RealCoords : Type := mkRealCoords { real_x : R; real_y : R }.

Record Point : Type := mkPoint {
  name : string;
  pixelCoords : PixelCoords;
  realCoords : RealCoords;
  distance : R;
  bearing : R
}.

Record Area : Type := mkArea {
  area_name : string;
  area_points : list Point;
  realArea : R
}.

Inductive AppState : Type :=
| UPLOAD_IMAGE
| CALIBRATE_START
| CALIBRATE_END
| SET_ORIGIN
| READY
| NAMING_POINT
| DEFINING_AREA
| NAMING_AREA.

(** The run-time value of each member of the string enum. *)
Definition AppState_value (s : AppState) : string :=
  match s with
  | UPLOAD_IMAGE => "UPLOAD_IMAGE"
  | CALIBRATE_START => "CALIBRATE_START"
  | CALIBRATE_END => "CALIBRATE_END"
  | SET_ORIGIN => "SET_ORIGIN"
  | READY => "READY"
  | NAMING_POINT => "NAMING_POINT"
  | DEFINING_AREA => "DEFINING_AREA"
  | NAMING_AREA => "NAMING_AREA"
  end%string.

Definition AppState_eqb (a b : AppState) : bool :=
  match a, b with
  | UPLOAD_IMAGE, UPLOAD_IMAGE | CALIBRATE_START, CALIBRATE_START
  | CALIBRATE_END, CALIBRATE_END | SET_ORIGIN, SET_ORIGIN | READY, READY
  | NAMING_POINT, NAMING_POINT | DEFINING_AREA, DEFINING_AREA
  | NAMING_AREA, NAMING_AREA => true
  | _, _ => false
  end.

(** [a < b] on two members of the enum is the comparison of their strings. *)
Definition AppState_lt (a b : AppState) : bool :=
  JS.string_lt (AppState_value a) (AppState_value b).

(** ** App.tsx: the component state

    The state variables of [App] that the calibration, measurement and
    interaction handlers read or write.  Those that only serve file decoding,
    rendering, renaming and installation are left out. *)

Record State : Type := mkState {
  appState : AppState;
  imageSrc : option string;
  points : list Point;
  areas : list Area;
  calibrationPoints : list PixelCoords;
  pixelsPerMeter : option JS.number;
  origin : option PixelCoords;
  knownDistance : R;
  tempPoint : option PixelCoords;
  newPointName : string;
  mouseRealCoords : option RealCoords;
  mousePixelCoords : option PixelCoords;
  currentAreaPoints : list Point;
  newAreaName : string;
  northRotation : R
}.

(** The state of a freshly mounted component: the [useState] initial values. *)
Definition initialState : State :=
  {| appState := UPLOAD_IMAGE; imageSrc := None; points := []; areas := [];
     calibrationPoints := []; pixelsPerMeter := None; origin := None;
     knownDistance := 10; tempPoint := None; newPointName := "";
     mouseRealCoords := None; mousePixelCoords := None;
     currentAreaPoints := []; newAreaName := ""; northRotation := 0 |}.

(** The state setters.  A handler reads the state of the render it was created
    in and queues its updates; the next render sees all of them.  A handler is
    therefore a function of that one state, written as a chain of setters. *)
Definition setAppState (v : AppState) (s : State) : State :=
  let '(mkState _ b c d e f g h i j k l m n o) := s in
  mkState v b c d e f g h i j k l m n o.
Definition setImageSrc (v : option string) (s : State) : State :=
  let '(mkState a _ c d e f g h i j k l m n o) := s in
  mkState a v c d e f g h i j k l m n o.
Definition setPoints (v : list Point) (s : State) : State :=
  let '(mkState a b _ d e f g h i j k l m n o) := s in
  mkState a b v d e f g h i j k l m n o.
Definition setAreas (v : list Area) (s : State) : State :=
  let '(mkState a b c _ e f g h i j k l m n o) := s in
  mkState a b c v e f g h i j k l m n o.
Definition setCalibrationPoints (v : list PixelCoords) (s : State) : State :=
  let '(mkState a b c d _ f g h i j k l m n o) := s in
  mkState a b c d v f g h i j k l m n o.
Definition setPixelsPerMeter (v : option JS.number) (s : State) : State :=
  let '(mkState a b c d e _ g h i j k l m n o) := s in
  mkState a b c d e v g h i j k l m n o.
Definition setOrigin (v : option PixelCoords) (s : State) : State :=
  let '(mkState a b c d e f _ h i j k l m n o) := s in
  mkState a b c d e f v h i j k l m n o.
Definition setKnownDistance (v : R) (s : State) : State :=
  let '(mkState a b c d e f g _ i j k l m n o) := s in
  mkState a b c d e f g v i j k l m n o.
Definition setTempPoint (v : option PixelCoords) (s : State) : State :=
  let '(mkState a b c d e f g h _ j k l m n o) := s in
  mkState a b c d e f g h v j k l m n o.
Definition setNewPointName (v : string) (s : State) : State :=
  let '(mkState a b c d e f g h i _ k l m n o) := s in
  mkState a b c d e f g h i v k l m n o.
Definition setMouseRealCoords (v : option RealCoords) (s : State) : State :=
  let '(mkState a b c d e f g h i j _ l m n o) := s in
  mkState a b c d e f g h i j v l m n o.
Definition setMousePixelCoords (v : option PixelCoords) (s : State) : State :=
  let '(mkState a b c d e f g h i j k _ m n o) := s in
  mkState a b c d e f g h i j k v m n o.
Definition setCurrentAreaPoints (v : list Point) (s : State) : State :=
  let '(mkState a b c d e f g h i j k l _ n o) := s in
  mkState a b c d e f g h i j k l v n o.
Definition setNewAreaName (v : string) (s : State) : State :=
  let '(mkState a b c d e f g h i j k l m _ o) := s in
  mkState a b c d e f g h i j k l m v o.
Definition setNorthRotation (v : R) (s : State) : State :=
  let '(mkState a b c d e f g h i j k l m n _) := s in
  mkState a b c d e f g h i j k l m n v.

(** How a handler ends: it returns, having queued its updates and raised its
    alerts, or an exception leaves it. *)
Inductive completion : Type :=
| Returns (s : State) (alerts : list string)
| Throws (error : string).

(** ** App.tsx: coordinate arithmetic *)

Definition calculateDistance (p1 p2 : PixelCoords) : R :=
  sqrt (JS.pow2 (pixel_x p2 - pixel_x p1) + JS.pow2 (pixel_y p2 - pixel_y p1)).

(** [!origin || !pixelsPerMeter]: [null], [0] and [NaN] are falsy. *)
Definition calibrated (s : State) : bool :=
  match origin s, pixelsPerMeter s with
  | Some _, Some ppm => JS.truthy ppm
  | _, _ => false
  end.

Definition calculateRealCoords (s : State) (clickPos : PixelCoords) : RealCoords :=
  match origin s, pixelsPerMeter s with
  | Some o, Some ppm =>
      if JS.truthy ppm then
        let x_pixels := pixel_x clickPos - pixel_x o in
        let y_pixels := pixel_y o - pixel_y clickPos in
        {| real_x := JS.div_truthy x_pixels ppm;
           real_y := JS.div_truthy y_pixels ppm |}
      else {| real_x := 0; real_y := 0 |}
  | _, _ => {| real_x := 0; real_y := 0 |}
  end.

Record DistanceAndBearing : Type := mkDistanceAndBearing {
  db_distance : R;
  db_bearing : R
}.

Definition calculateDistanceAndBearing (rc : RealCoords) (rotation : R)
  : DistanceAndBearing :=
  let distance := sqrt (JS.pow2 (real_x rc) + JS.pow2 (real_y rc)) in
  let angleRad := JS.atan2 (real_x rc) (real_y rc) in
  let angleDeg := angleRad * (180 / PI) in
  let bearing := JS.rem (angleDeg - rotation + 360) 360 in
  {| db_distance := distance; db_bearing := bearing |}.

Record PointData : Type := mkPointData {
  pd_realCoords : RealCoords;
  pd_distance : R;
  pd_bearing : R
}.

Definition calculatePointData (s : State) (pc : PixelCoords) : PointData :=
  let rc := calculateRealCoords s pc in
  let db := calculateDistanceAndBearing rc (northRotation s) in
  {| pd_realCoords := rc; pd_distance := db_distance db; pd_bearing := db_bearing db |}.

(** The body of the loop of [calculatePolygonArea] at index [i]. *)
Definition polygonAreaStep (coords : list RealCoords) (area : R) (i : nat) : R :=
  let n := List.length coords in
  let j := ((i + 1) mod n)%nat in
  let ci := nth i coords (mkRealCoords 0 0) in
  let cj := nth j coords (mkRealCoords 0 0) in
  let area := area + real_x ci * real_y cj in
  let area := area - real_x cj * real_y ci in
  area.

Definition calculatePolygonArea (coords : list RealCoords) : R :=
  let n := List.length coords in
  if (n <? 3)%nat then 0
  else
    let area := fold_left (polygonAreaStep coords) (seq 0 n) 0 in
    Rabs (area / 2).

(** ** App.tsx: the interaction handlers

    [handleImageClick] and [handleImageMouseMove] take the result of
    [getClickCoordinates], which is [null] when the image is not mounted. *)

Definition handleImageClick (coords : option PixelCoords) (s : State) : completion :=
  match coords with
  | None => Returns s []
  | Some coords =>
      match appState s with
      | CALIBRATE_START =>
          Returns (setAppState CALIBRATE_END (setCalibrationPoints [coords] s)) []
      | CALIBRATE_END =>
          let secondPoint := coords in
          match calibrationPoints s with
          | [] => Throws "TypeError: Cannot read properties of undefined (reading 'x')"
          | firstPoint :: _ =>
              let pixelDistance := calculateDistance firstPoint secondPoint in
              Returns
                (setAppState SET_ORIGIN
                   (setCalibrationPoints (calibrationPoints s ++ [secondPoint])
                      (setPixelsPerMeter
                         (Some (JS.div pixelDistance (knownDistance s))) s))) []
          end
      | SET_ORIGIN =>
          Returns (setAppState READY (setOrigin (Some coords) s)) []
      | READY =>
          Returns
            (setAppState NAMING_POINT
               (setNewPointName
                  ("Punto " ++ JS.nat_to_string (List.length (points s) + 1))%string
                  (setTempPoint (Some coords) s))) []
      | DEFINING_AREA =>
          let pd := calculatePointData s coords in
          let newAreaPoint :=
            {| name := ("V" ++ JS.nat_to_string
                                 (List.length (currentAreaPoints s) + 1))%string;
               pixelCoords := coords;
               realCoords := pd_realCoords pd;
               distance := pd_distance pd;
               bearing := pd_bearing pd |} in
          Returns (setCurrentAreaPoints (currentAreaPoints s ++ [newAreaPoint]) s) []
      | UPLOAD_IMAGE | NAMING_POINT | NAMING_AREA => Returns s []
      end
  end.

Definition handleCancelNaming (s : State) : State :=
  let s1 := setNewAreaName "" (setNewPointName "" (setTempPoint None s)) in
  let s2 := if AppState_eqb (appState s) NAMING_POINT
            then setAppState READY s1 else s1 in
  if AppState_eqb (appState s) NAMING_AREA
  then setAppState DEFINING_AREA s2 else s2.

Definition handleSavePoint (s : State) : completion :=
  match tempPoint s, JS.trim (newPointName s) with
  | None, _ => Returns s []
  | Some _, EmptyString => Returns s []
  | Some tempPoint, trimmed =>
      let pd := calculatePointData s tempPoint in
      let newPoint :=
        {| name := trimmed;
           pixelCoords := tempPoint;
           realCoords := pd_realCoords pd;
           distance := pd_distance pd;
           bearing := pd_bearing pd |} in
      Returns (handleCancelNaming (setPoints (points s ++ [newPoint]) s)) []
  end.

Definition handleImageMouseMove (coords : option PixelCoords) (s : State) : State :=
  let s1 := setMousePixelCoords coords s in
  if AppState_lt (appState s) READY then setMouseRealCoords None s1
  else
    match coords with
    | Some c => setMouseRealCoords (Some (calculateRealCoords s c)) s1
    | None => s1
    end.

Definition handleStartAreaMode (s : State) : State :=
  setCurrentAreaPoints [] (setAppState DEFINING_AREA s).

Definition handleCancelAreaMode (s : State) : State :=
  setCurrentAreaPoints [] (setAppState READY s).

Definition handleFinishArea (s : State) : completion :=
  if (List.length (currentAreaPoints s) <? 3)%nat then
    Returns s ["Sono necessari almeno 3 punti per definire un'area."%string]
  else
    Returns
      (setAppState NAMING_AREA
         (setNewAreaName
            ("Area " ++ JS.nat_to_string (List.length (areas s) + 1))%string s)) [].

Definition handleSaveArea (s : State) : State :=
  match JS.trim (newAreaName s) with
  | EmptyString => s
  | trimmed =>
      if (List.length (currentAreaPoints s) <? 3)%nat then s
      else
        let realCoordsForArea := map realCoords (currentAreaPoints s) in
        let calculatedArea := calculatePolygonArea realCoordsForArea in
        let newArea :=
          {| area_name := trimmed;
             area_points := currentAreaPoints s;
             realArea := calculatedArea |} in
        setAppState READY
          (setNewAreaName ""
             (setCurrentAreaPoints [] (setAreas (areas s ++ [newArea]) s)))
  end.

(** The effect "Recalculate bearings for all points when north rotation
    changes": its body, run on the state of the render that triggers it. *)
Definition recalculateBearings (s : State) : State :=
  if (List.length (points s) =? 0)%nat || negb (calibrated s) then s
  else
    setPoints
      (map (fun p =>
              let db := calculateDistanceAndBearing (realCoords p) (northRotation s) in
              {| name := name p;
                 pixelCoords := pixelCoords p;
                 realCoords := realCoords p;
                 distance := distance p;
                 bearing := db_bearing db |})
           (points s)) s.

(** The compass drag: the angle that [handleMouseMove] passes to
    [setNorthRotation] for a pointer at [(clientX, clientY)] and a compass
    whose bounding rectangle is centred at [(centerX, centerY)], while the
    compass is mounted and being rotated. *)
Definition compassAngleDeg (clientX clientY centerX centerY : R) : R :=
  let angleRad := JS.atan2 (clientY - centerY) (clientX - centerX) in
  angleRad * (180 / PI) + 90.

(** [setNorthRotation angleDeg] and the render that follows: a state set to
    the value it has causes no render; a changed one re-runs the effect. *)
Definition rotateNorth (angleDeg : R) (s : State) : State :=
  if Req_dec_T angleDeg (northRotation s) then s
  else recalculateBearings (setNorthRotation angleDeg s).

(** Running handlers one after the other, each on the state the previous one
    left; the first exception ends the run. *)
Definition andThen (c : completion) (h : State -> completion) : completion :=
  match c with
  | Returns s alerts =>
      match h s with
      | Returns s' alerts' => Returns s' (alerts ++ alerts')
      | Throws e => Throws e
      end
  | Throws e => Throws e
  end.

Definition returning (h : State -> State) : State -> completion :=
  fun s => Returns (h s) [].

Notation "c >>> h" := (andThen c h) (at level 50, left associativity).

(** The [onload] callback of the reader in [handleFileUpload], for an image
    file whose data URL is [src]. *)
Definition handleFileLoaded (src : string) (s : State) : State :=
  setAppState CALIBRATE_START (setImageSrc (Some src) s).

(** The data URL of the image of the examples. *)
Definition exampleImage : string := "data:image/png;base64,iVBORw0KGgo=".

(** The session once the image of the examples is loaded. *)
Definition imageLoaded : State := handleFileLoaded exampleImage initialState.

Definition handleDeletePoint (index : nat) (s : State) : State :=
  setPoints (firstn index (points s) ++ skipn (S index) (points s)) s.

Definition handleDeleteArea (index : nat) (s : State) : State :=
  setAreas (firstn index (areas s) ++ skipn (S index) (areas s)) s.

Definition handleReset (s : State) : State :=
  setAppState UPLOAD_IMAGE
    (setNorthRotation 0
       (setKnownDistance 10
          (setCurrentAreaPoints []
             (setNewAreaName ""
                (setNewPointName ""
                   (setTempPoint None
                      (setOrigin None
                         (setPixelsPerMeter None
                            (setCalibrationPoints []
                               (setAreas []
                                  (setPoints []
                                     (setImageSrc None s)))))))))))).

(** [handleSaveEdit], the index and the text of the row being renamed passed
    as arguments: the name of the point at that index is replaced. *)
Definition handleSaveEdit (editingIndex : option nat) (editingName : string)
  (s : State) : completion :=
  match editingIndex, JS.trim editingName with
  | None, _ => Returns s []
  | Some _, EmptyString => Returns s []
  | Some i, trimmed =>
      match nth_error (points s) i with
      | None => Throws "TypeError: Cannot set properties of undefined (setting 'name')"
      | Some p =>
          let renamed :=
            {| name := trimmed;
               pixelCoords := pixelCoords p;
               realCoords := realCoords p;
               distance := distance p;
               bearing := bearing p |} in
          Returns
            (setPoints (firstn i (points s) ++ renamed :: skipn (S i) (points s)) s) []
      end
  end.

Definition handleSaveEditArea (editingAreaIndex : option nat)
  (editingAreaName : string) (s : State) : completion :=
  match editingAreaIndex, JS.trim editingAreaName with
  | None, _ => Returns s []
  | Some _, EmptyString => Returns s []
  | Some i, trimmed =>
      match nth_error (areas s) i with
      | None => Throws "TypeError: Cannot set properties of undefined (setting 'name')"
      | Some a =>
          let renamed :=
            {| area_name := trimmed;
               area_points := area_points a;
               realArea := realArea a |} in
          Returns
            (setAreas (firstn i (areas s) ++ renamed :: skipn (S i) (areas s)) s) []
      end
  end.

(** ** App.tsx: events and renders

    What the user can do, which render offers it, and the render that follows
    with its effect. *)

Inductive Event : Type :=
| FileLoaded (src : string)
| KnownDistanceInput (value : R)
| ImageClick (coords : option PixelCoords)
| ImageMouseMove (coords : option PixelCoords)
| ImageMouseLeave
| NameInput (value : string)
| NamingSave
| NamingCancel
| StartArea
| CancelArea
| FinishArea
| CompassDrag (clientX clientY centerX centerY : R)
| DeletePoint (index : nat)
| DeleteArea (index : nat)
| SaveEdit (editingIndex : option nat) (editingName : string)
| SaveEditArea (editingAreaIndex : option nat) (editingAreaName : string)
| ResetClick.

Definition hasImage (s : State) : bool :=
  match imageSrc s with Some _ => true | None => false end.

Definition isNaming (s : State) : bool :=
  AppState_eqb (appState s) NAMING_POINT || AppState_eqb (appState s) NAMING_AREA.

(** Whether the render of [s] holds the control that raises the event: the
    upload screen is rendered while there is no image and the map view while
    there is one; inside the map view the controls depend on [appState]. *)
Definition offered (e : Event) (s : State) : bool :=
  match e with
  | FileLoaded _ => negb (hasImage s)
  | KnownDistanceInput _ =>
      hasImage s && (AppState_eqb (appState s) CALIBRATE_START
                     || AppState_eqb (appState s) CALIBRATE_END)
  | ImageClick _ | ImageMouseMove _ | ImageMouseLeave => hasImage s
  | NameInput _ | NamingSave | NamingCancel => hasImage s && isNaming s
  | StartArea => hasImage s && AppState_eqb (appState s) READY
  | CancelArea => hasImage s && AppState_eqb (appState s) DEFINING_AREA
  | FinishArea =>
      hasImage s && AppState_eqb (appState s) DEFINING_AREA
      && negb (List.length (currentAreaPoints s) <? 3)%nat
  | CompassDrag _ _ _ _ => hasImage s && negb (AppState_lt (appState s) READY)
  | DeletePoint _ | DeleteArea _ | SaveEdit _ _ | SaveEditArea _ _ => hasImage s
  | ResetClick => true
  end.

(** The handler that the event calls. *)
Definition handler (e : Event) (s : State) : completion :=
  match e with
  | FileLoaded src => Returns (handleFileLoaded src s) []
  | KnownDistanceInput value => Returns (setKnownDistance value s) []
  | ImageClick coords => handleImageClick coords s
  | ImageMouseMove coords => Returns (handleImageMouseMove coords s) []
  | ImageMouseLeave =>
      Returns (setMousePixelCoords None (setMouseRealCoords None s)) []
  | NameInput value =>
      if AppState_eqb (appState s) NAMING_POINT
      then Returns (setNewPointName value s) []
      else Returns (setNewAreaName value s) []
  | NamingSave =>
      if AppState_eqb (appState s) NAMING_POINT
      then handleSavePoint s
      else Returns (handleSaveArea s) []
  | NamingCancel =>
      if AppState_eqb (appState s) NAMING_POINT
      then Returns (handleCancelNaming s) []
      else Returns (setAppState DEFINING_AREA s) []
  | StartArea => Returns (handleStartAreaMode s) []
  | CancelArea => Returns (handleCancelAreaMode s) []
  | FinishArea => handleFinishArea s
  | CompassDrag clientX clientY centerX centerY =>
      Returns (setNorthRotation (compassAngleDeg clientX clientY centerX centerY) s) []
  | DeletePoint index => Returns (handleDeletePoint index s) []
  | DeleteArea index => Returns (handleDeleteArea index s) []
  | SaveEdit editingIndex editingName => handleSaveEdit editingIndex editingName s
  | SaveEditArea editingAreaIndex editingAreaName =>
      handleSaveEditArea editingAreaIndex editingAreaName s
  | ResetClick => Returns (handleReset s) []
  end.

(** [Object.is] on two numbers. *)
Definition sameNumber (a b : JS.number) : bool :=
  match a, b with
  | JS.Finite x, JS.Finite y => if Req_dec_T x y then true else false
  | JS.PosInfinity, JS.PosInfinity
  | JS.NegInfinity, JS.NegInfinity
  | JS.NaN, JS.NaN => true
  | _, _ => false
  end.

(** The dependencies [northRotation, origin, pixelsPerMeter] of the bearing
    effect, compared between two renders.  The origin is an object and React
    compares it by identity.  A click sets it to a fresh object, and only in
    SET_ORIGIN, where it is [null] in every session (lemma
    [reachable_set_origin_has_no_origin]); the reset sets it to [null].  The
    comparison by value below therefore agrees with the one by identity. *)
Definition sameDependencies (prev next : State) : bool :=
  (if Req_dec_T (northRotation prev) (northRotation next) then true else false)
  && match origin prev, origin next with
     | None, None => true
     | Some a, Some b =>
         (if Req_dec_T (pixel_x a) (pixel_x b) then true else false)
         && (if Req_dec_T (pixel_y a) (pixel_y b) then true else false)
     | _, _ => false
     end
  && match pixelsPerMeter prev, pixelsPerMeter next with
     | None, None => true
     | Some a, Some b => sameNumber a b
     | _, _ => false
     end.

(** The render after a handler: the effect runs if a dependency changed. *)
Definition afterRender (prev next : State) : State :=
  if sameDependencies prev next then next else recalculateBearings next.

(** One event on the render of [s]: nothing happens if the control is not
    there; otherwise the handler runs and the component renders again.  Of
    the render this keeps what it does to the state, the bearing effect; what
    the render draws is not part of it.  The loops that draw the grid are
    [gridTicksWith] below, and they do not always end: the sessions that
    [run] leads to include those whose render would not have ended. *)
Definition dispatch (e : Event) (s : State) : completion :=
  if offered e s then
    match handler e s with
    | Returns s' alerts => Returns (afterRender s s') alerts
    | Throws error => Throws error
    end
  else Returns s [].

Fixpoint run (events : list Event) (s : State) : completion :=
  match events with
  | [] => Returns s []
  | e :: rest =>
      match dispatch e s with
      | Returns s' alerts =>
          match run rest s' with
          | Returns s'' alerts' => Returns s'' (alerts ++ alerts')
          | Throws error => Throws error
          end
      | Throws error => Throws error
      end
  end.

(** The sessions that a sequence of events leads to from the initial state. *)
Definition Reachable (s : State) : Prop :=
  exists events alerts, run events initialState = Returns s alerts.

(** A bearing is up to date when it is the one that the current reference
    direction gives to the stored real coordinates. *)
Definition upToDate (s : State) (p : Point) : Prop :=
  bearing p
  = db_bearing (calculateDistanceAndBearing (realCoords p) (northRotation s)).

(** The modes that come before the origin click. *)
Definition beforeOrigin (st : AppState) : bool :=
  match st with
  | UPLOAD_IMAGE | CALIBRATE_START | CALIBRATE_END | SET_ORIGIN => true
  | READY | NAMING_POINT | DEFINING_AREA | NAMING_AREA => false
  end.

(** What holds of the mode and the calibration data in every session. *)
Definition WellFormed (s : State) : Prop :=
  hasImage s = negb (AppState_eqb (appState s) UPLOAD_IMAGE)
  /\ (beforeOrigin (appState s) = true -> points s = [] /\ origin s = None)
  /\ (beforeOrigin (appState s) = false ->
      origin s <> None /\ pixelsPerMeter s <> None)
  /\ (appState s = CALIBRATE_END -> exists p, calibrationPoints s = [p])
  /\ (appState s = SET_ORIGIN -> pixelsPerMeter s <> None).

(** The invariant of the sessions: well-formedness, and stored bearings that
    are up to date whenever the guard of the bearing effect lets it run. *)
Definition Invariant (s : State) : Prop :=
  WellFormed s /\ (calibrated s = true -> Forall (upToDate s) (points s)).

(** ** The shoelace sum *)

Module Shoelace.

(** The term of the sum for two consecutive vertices. *)
Definition cross (p q : RealCoords) : R :=
  real_x p * real_y q - real_x q * real_y p.

(** [f 0 + ... + f (n - 1)]. *)
Fixpoint sum_upto (f : nat -> R) (n : nat) : R :=
  match n with
  | O => 0
  | S k => sum_upto f k + f k
  end.

(** The sum as the specification writes it: over i = 0 .. n-1, the vertex
    after the last one being the first one again. *)
Definition spec_shoelace_sum (coords : list RealCoords) : R :=
  let n := List.length coords in
  let v := fun i => nth i coords (mkRealCoords 0 0) in
  sum_upto (fun i => real_x (v i) * real_y (v ((i + 1) mod n)%nat)
                     - real_x (v ((i + 1) mod n)%nat) * real_y (v i)) n.

(** The area as the specification writes it. *)
Definition spec_polygonArea (coords : list RealCoords) : R :=
  if (List.length coords <? 3)%nat then 0
  else Rabs (spec_shoelace_sum coords) / 2.

(** The sum along an open chain of vertices, without the closing edge. *)
Fixpoint chain (l : list RealCoords) : R :=
  match l with
  | p :: (q :: _) as t => cross p q + chain t
  | _ => 0
  end.

(** The sum around the closed polygon. *)
Definition closed (l : list RealCoords) : R :=
  chain (l ++ [hd (mkRealCoords 0 0) l]).

(** The vertices from the [k]-th on, then the first [k]: the same polygon
    with another starting vertex. *)
Definition startingAt (k : nat) (l : list RealCoords) : list RealCoords :=
  skipn k l ++ firstn k l.

(** The axis-aligned square of side [s] with a corner at [(x0, y0)]. *)
Definition square (x0 y0 s : R) : list RealCoords :=
  [ mkRealCoords x0 y0; mkRealCoords (x0 + s) y0;
    mkRealCoords (x0 + s) (y0 + s); mkRealCoords x0 (y0 + s) ].

End Shoelace.

(** ** Sessions used as examples *)

(** A calibrated session: scale 10 px per unit, origin at pixel (50, 50). *)
Definition calibratedSession : State :=
  setAppState READY
    (setOrigin (Some (mkPixelCoords 50 50))
       (setCalibrationPoints [mkPixelCoords 0 0; mkPixelCoords 100 0]
          (setPixelsPerMeter (Some (JS.Finite 10)) imageLoaded))).

(** The session after a first calibration click at pixel (0, 0), the known
    distance being the default 10. *)
Definition afterFirstClick : State :=
  setAppState CALIBRATE_END
    (setCalibrationPoints [mkPixelCoords 0 0] imageLoaded).

(** The same, the first click being at pixel (5, 5). *)
Definition afterFirstClickAt5 : State :=
  setAppState CALIBRATE_END
    (setCalibrationPoints [mkPixelCoords 5 5] imageLoaded).

(** A session whose two calibration clicks both fell on pixel (5, 5), so that
    the scale is 0, with the origin at pixel (50, 50) and one point saved from
    a click at pixel (150, 50). *)
Definition degenerateSession : State :=
  {| appState := READY;
     imageSrc := Some exampleImage;
     points := [ {| name := "Punto 1";
                    pixelCoords := mkPixelCoords 150 50;
                    realCoords := mkRealCoords 0 0;
                    distance := 0;
                    bearing := 0 |} ];
     areas := [];
     calibrationPoints := [mkPixelCoords 5 5; mkPixelCoords 5 5];
     pixelsPerMeter := Some (JS.Finite 0);
     origin := Some (mkPixelCoords 50 50);
     knownDistance := 10;
     tempPoint := None;
     newPointName := "";
     mouseRealCoords := None;
     mousePixelCoords := None;
     currentAreaPoints := [];
     newAreaName := "";
     northRotation := 0 |}.

(** The session of the specification's scenario: known distance 10,
    calibration clicks at pixels (0, 0) and (100, 0), origin at pixel
    (50, 50). *)
Definition scenarioSession : State :=
  {| appState := READY;
     imageSrc := Some exampleImage;
     points := [];
     areas := [];
     calibrationPoints := [mkPixelCoords 0 0; mkPixelCoords 100 0];
     pixelsPerMeter := Some (JS.Finite 10);
     origin := Some (mkPixelCoords 50 50);
     knownDistance := 10;
     tempPoint := None;
     newPointName := "";
     mouseRealCoords := None;
     mousePixelCoords := None;
     currentAreaPoints := [];
     newAreaName := "";
     northRotation := 0 |}.

(** The session after the two calibration clicks of the scenario, waiting for
    the origin click. *)
Definition awaitingOrigin : State :=
  {| appState := SET_ORIGIN;
     imageSrc := Some exampleImage;
     points := [];
     areas := [];
     calibrationPoints := [mkPixelCoords 0 0; mkPixelCoords 100 0];
     pixelsPerMeter := Some (JS.Finite 10);
     origin := None;
     knownDistance := 10;
     tempPoint := None;
     newPointName := "";
     mouseRealCoords := None;
     mousePixelCoords := None;
     currentAreaPoints := [];
     newAreaName := "";
     northRotation := 0 |}.

(** The session of the scenario with the point clicked at pixel (150, 50)
    saved under its default name. *)
Definition sessionWithPoint : State :=
  {| appState := READY;
     imageSrc := Some exampleImage;
     points := [ {| name := "Punto 1";
                    pixelCoords := mkPixelCoords 150 50;
                    realCoords := mkRealCoords 10 0;
                    distance := 10;
                    bearing := 90 |} ];
     areas := [];
     calibrationPoints := [mkPixelCoords 0 0; mkPixelCoords 100 0];
     pixelsPerMeter := Some (JS.Finite 10);
     origin := Some (mkPixelCoords 50 50);
     knownDistance := 10;
     tempPoint := None;
     newPointName := "";
     mouseRealCoords := None;
     mousePixelCoords := None;
     currentAreaPoints := [];
     newAreaName := "";
     northRotation := 0 |}.

(** The session of the scenario in area mode, with two vertices captured at
    pixels (50, 50) and (150, 50). *)
Definition definingAreaWithTwo : State :=
  {| appState := DEFINING_AREA;
     imageSrc := Some exampleImage;
     points := [];
     areas := [];
     calibrationPoints := [mkPixelCoords 0 0; mkPixelCoords 100 0];
     pixelsPerMeter := Some (JS.Finite 10);
     origin := Some (mkPixelCoords 50 50);
     knownDistance := 10;
     tempPoint := None;
     newPointName := "";
     mouseRealCoords := None;
     mousePixelCoords := None;
     currentAreaPoints :=
       [ {| name := "V1";
            pixelCoords := mkPixelCoords 50 50;
            realCoords := mkRealCoords 0 0;
            distance := 0;
            bearing := 0 |};
         {| name := "V2";
            pixelCoords := mkPixelCoords 150 50;
            realCoords := mkRealCoords 10 0;
            distance := 10;
            bearing := 90 |} ];
     newAreaName := "";
     northRotation := 0 |}.

(** The session of the scenario after a click at pixel (150, 50), with the
    naming dialog of the point open. *)
Definition namingFirstPoint : State :=
  setAppState NAMING_POINT
    (setNewPointName "Punto 1"
       (setTempPoint (Some (mkPixelCoords 150 50)) scenarioSession)).

(** A vertex as the area mode of the scenario stores it for a click. *)
Definition vertexAt (vertexName : string) (c : PixelCoords) : Point :=
  let pd := calculatePointData scenarioSession c in
  {| name := vertexName;
     pixelCoords := c;
     realCoords := pd_realCoords pd;
     distance := pd_distance pd;
     bearing := pd_bearing pd |}.

Definition triangleVertices : list Point :=
  [vertexAt "V1" (mkPixelCoords 50 50);
   vertexAt "V2" (mkPixelCoords 150 50);
   vertexAt "V3" (mkPixelCoords 150 150)].

(** The session of the scenario in area mode with three vertices clicked. *)
Definition triangleInProgress : State :=
  setCurrentAreaPoints triangleVertices (setAppState DEFINING_AREA scenarioSession).

(** The same with the naming dialog of the area open. *)
Definition namingTriangle : State :=
  setAppState NAMING_AREA (setNewAreaName "Area 1" triangleInProgress).


(** ** App.tsx: further code

    [Array.prototype.filter] with a callback on the element and its index,
    as [handleDeletePoint] and [handleDeleteArea] call it. *)

Fixpoint filterFrom {A : Type} (f : A -> nat -> bool) (i : nat) (l : list A)
  : list A :=
  match l with
  | [] => []
  | x :: rest => if f x i then x :: filterFrom f (S i) rest
                 else filterFrom f (S i) rest
  end.

Definition Array_filter {A : Type} (f : A -> nat -> bool) (l : list A) : list A :=
  filterFrom f 0 l.

(** [points.filter((_, i) => i !== index)]. *)
Definition filterOutIndex {A : Type} (index : nat) (l : list A) : list A :=
  Array_filter (fun _ i => negb (i =? index)%nat) l.

(** The grid of the map view: the loops that lay the tick marks along the
    axes, [for (let i = start; i < limit; i += step) ticks.push(i)] and
    [for (let i = start; i > limit; i -= step) ticks.push(i)].  A loop may not
    end, so each takes the number of iterations it may run and returns [None]
    when that number does not suffice.  Here [i += step] is the exact sum,
    which moves [i] whenever [step] is not 0; [ticksBelowWith] and
    [ticksAboveWith] below take the sum of the platform as a parameter. *)
Fixpoint ticksBelow (fuel : nat) (i limit step : R) : option (list R) :=
  match fuel with
  | O => None
  | S fuel' =>
      if Rlt_dec i limit then
        match ticksBelow fuel' (i + step) limit step with
        | Some ticks => Some (i :: ticks)
        | None => None
        end
      else Some []
  end.

Fixpoint ticksAbove (fuel : nat) (i limit step : R) : option (list R) :=
  match fuel with
  | O => None
  | S fuel' =>
      if Rgt_dec i limit then
        match ticksAbove fuel' (i - step) limit step with
        | Some ticks => Some (i :: ticks)
        | None => None
        end
      else Some []
  end.

(** The positions of the tick marks of the grid for an image of the given
    width and height, drawn when [origin && pixelsPerMeter && imageDimensions]
    holds, for a finite scale: on the positive and negative x axis and on the
    positive and negative y axis. *)
Record GridTicks : Type := mkGridTicks {
  ticksXPos : list R;
  ticksXNeg : list R;
  ticksYPos : list R;
  ticksYNeg : list R
}.

Definition gridTicks (fuel : nat) (o : PixelCoords) (pixelsPerMeter width height : R)
  : option GridTicks :=
  let tickInterval := 10 * pixelsPerMeter in
  match ticksBelow fuel (pixel_x o + tickInterval) width tickInterval with
  | None => None
  | Some xpos =>
      match ticksAbove fuel (pixel_x o - tickInterval) 0 tickInterval with
      | None => None
      | Some xneg =>
          match ticksAbove fuel (pixel_y o - tickInterval) 0 tickInterval with
          | None => None
          | Some ypos =>
              match ticksBelow fuel (pixel_y o + tickInterval) height tickInterval with
              | None => None
              | Some yneg =>
                  Some {| ticksXPos := xpos; ticksXNeg := xneg;
                          ticksYPos := ypos; ticksYNeg := yneg |}
              end
          end
      end
  end.

(** The same loops with the arithmetic of the platform as a parameter:
    [plus i step] is the number that [i += step] leaves in [i], and
    [minus i step] the one that [i -= step] leaves.  In exact arithmetic
    they are [i + step] and [i - step], and the loops are [ticksBelow] and
    [ticksAbove]; in double precision they are the rounded sum and
    difference, which are [i] itself once [step] is less than half the gap
    between [i] and its neighbours. *)
Fixpoint ticksBelowWith (plus : R -> R -> R) (fuel : nat) (i limit step : R)
  : option (list R) :=
  match fuel with
  | O => None
  | S fuel' =>
      if Rlt_dec i limit then
        match ticksBelowWith plus fuel' (plus i step) limit step with
        | Some ticks => Some (i :: ticks)
        | None => None
        end
      else Some []
  end.

Fixpoint ticksAboveWith (minus : R -> R -> R) (fuel : nat) (i limit step : R)
  : option (list R) :=
  match fuel with
  | O => None
  | S fuel' =>
      if Rgt_dec i limit then
        match ticksAboveWith minus fuel' (minus i step) limit step with
        | Some ticks => Some (i :: ticks)
        | None => None
        end
      else Some []
  end.

Definition gridTicksWith (plus minus : R -> R -> R) (fuel : nat) (o : PixelCoords)
  (pixelsPerMeter width height : R) : option GridTicks :=
  let tickInterval := 10 * pixelsPerMeter in
  match ticksBelowWith plus fuel (plus (pixel_x o) tickInterval) width tickInterval with
  | None => None
  | Some xpos =>
      match ticksAboveWith minus fuel (minus (pixel_x o) tickInterval) 0 tickInterval with
      | None => None
      | Some xneg =>
          match ticksAboveWith minus fuel (minus (pixel_y o) tickInterval) 0
                  tickInterval with
          | None => None
          | Some ypos =>
              match ticksBelowWith plus fuel (plus (pixel_y o) tickInterval) height
                      tickInterval with
              | None => None
              | Some yneg =>
                  Some {| ticksXPos := xpos; ticksXNeg := xneg;
                          ticksYPos := ypos; ticksYNeg := yneg |}
              end
          end
      end
  end.

(** [handleExportPDF]: where the annotated image goes on the page, from the
    page size in points and the size of the canvas. *)
Record ImagePlacement : Type := mkImagePlacement {
  place_x : R;
  place_y : R;
  finalWidth : R;
  finalHeight : R
}.

Definition pdfImagePlacement (pageWidth pageHeight canvasWidth canvasHeight : R)
  : ImagePlacement :=
  let margin := 40 in
  let availableWidth := pageWidth - margin * 2 in
  let availableHeight := pageHeight - margin * 2 in
  let availableHeight := availableHeight - 30 in
  let imgRatio := canvasWidth / canvasHeight in
  let pageRatio := availableWidth / availableHeight in
  let '(finalWidth, finalHeight) :=
    if Rgt_dec imgRatio pageRatio
    then (availableWidth, availableWidth / imgRatio)
    else (availableHeight * imgRatio, availableHeight) in
  let x := (pageWidth - finalWidth) / 2 in
  let y := (pageHeight - finalHeight) / 2 + 20 in
  {| place_x := x; place_y := y;
     finalWidth := finalWidth; finalHeight := finalHeight |}.


(** ** The bearing as the specification writes it

    The specification's [mod 360], "normalized into [0, 360)": the number of
    [0, 360) that differs from [x] by a whole number of turns, [x] less 360
    times the floor of [x / 360]. *)
Definition spec_mod360 (x : R) : R := x - 360 * IZR (Int_part (x / 360)).

(** [bearing = (rawBearingDeg - referenceDirectionDeg + 360) mod 360]. *)
Definition spec_bearing (rc : RealCoords) (referenceDirectionDeg : R) : R :=
  let rawBearingDeg := JS.atan2 (real_x rc) (real_y rc) * (180 / PI) in
  spec_mod360 (rawBearingDeg - referenceDirectionDeg + 360).

(** ** Notions used to state the further properties *)

(** A string of white space only. *)
Fixpoint blank (s : string) : bool :=
  match s with
  | EmptyString => true
  | String c s' => JS.is_white_space c && blank s'
  end.

(** The stored data of a point agree with the calibration of the session:
    its real coordinates are those of its pixel and its distance is theirs. *)
Definition Consistent (s : State) (p : Point) : Prop :=
  realCoords p = calculateRealCoords s (pixelCoords p)
  /\ distance p
     = db_distance (calculateDistanceAndBearing (realCoords p) (northRotation s)).

(** An area as [handleSaveArea] builds it. *)
Definition SoundArea (s : State) (a : Area) : Prop :=
  area_name a <> EmptyString
  /\ (3 <= List.length (area_points a))%nat
  /\ realArea a = calculatePolygonArea (map realCoords (area_points a))
  /\ Forall (Consistent s) (area_points a).

(** The vertices in progress carry the names V1, V2, ... in order. *)
Definition Numbered (l : list Point) : Prop :=
  forall i p, nth_error l i = Some p ->
              name p = ("V" ++ JS.nat_to_string (i + 1))%string.

(** What holds of the stored points, vertices and areas in every session. *)
Definition Stored (s : State) : Prop :=
  (beforeOrigin (appState s) = true -> areas s = [])
  /\ (appState s <> DEFINING_AREA -> appState s <> NAMING_AREA ->
      currentAreaPoints s = [])
  /\ (appState s = NAMING_POINT -> tempPoint s <> None)
  /\ (appState s = NAMING_AREA -> (3 <= List.length (currentAreaPoints s))%nat)
  /\ Forall (fun p => Consistent s p /\ name p <> EmptyString) (points s)
  /\ Forall (Consistent s) (currentAreaPoints s)
  /\ Numbered (currentAreaPoints s)
  /\ Forall (SoundArea s) (areas s).

(** ** Tactics for the case analyses over the state and the handlers *)

Ltac break_state s :=
  destruct s as [st img pts ars cps ppm org kd tp npn mrc mpc cap nan rot].

Ltac unfold_handlers :=
  cbv beta iota delta
    [offered handler hasImage isNaming
     handleFileLoaded handleImageClick handleImageMouseMove handleCancelNaming
     handleSavePoint handleStartAreaMode handleCancelAreaMode handleFinishArea
     handleSaveArea handleDeletePoint handleDeleteArea handleReset
     handleSaveEdit handleSaveEditArea
     setAppState setImageSrc setPoints setAreas setCalibrationPoints
     setPixelsPerMeter setOrigin setKnownDistance setTempPoint setNewPointName
     setMouseRealCoords setMousePixelCoords setCurrentAreaPoints setNewAreaName
     setNorthRotation
     appState imageSrc points areas calibrationPoints pixelsPerMeter origin
     knownDistance tempPoint newPointName mouseRealCoords mousePixelCoords
     currentAreaPoints newAreaName northRotation] in *.

Ltac break_match_in H :=
  repeat match type of H with
         | context [match ?x with _ => _ end] => destruct x eqn:?
         | context [if ?x then _ else _] => destruct x eqn:?
         end.

(** ** Facts about the platform functions *)

Module JSFacts.

Lemma trunc_nonneg (x : R) (z : Z) :
  0 <= x -> IZR z <= x < IZR z + 1 -> JS.trunc x = z.
Proof.
  intros Hx [Hlo Hhi]. unfold JS.trunc.
  destruct (Rle_dec 0 x) as [_|Hn]; [|contradiction].
  symmetry. apply Int_part_spec. lra.
Qed.

Lemma trunc_neg (x : R) (z : Z) :
  x < 0 -> IZR z - 1 < x <= IZR z -> JS.trunc x = z.
Proof.
  intros Hx [Hlo Hhi]. unfold JS.trunc.
  destruct (Rle_dec 0 x) as [Hp|_]; [lra|].
  assert (E : (- z)%Z = Int_part (- x)).
  { apply Int_part_spec. rewrite opp_IZR. lra. }
  rewrite <- E. lia.
Qed.

(** The remainder differs from the dividend by a multiple of the divisor. *)
Lemma rem_congruent (n d : R) : exists k : Z, JS.rem n d = n - d * IZR k.
Proof. exists (JS.trunc (n / d)). reflexivity. Qed.

(** A non-negative dividend leaves a remainder in [[0, d)]. *)
Lemma rem_of_nonneg (n d : R) : 0 <= n -> 0 < d -> 0 <= JS.rem n d < d.
Proof.
  intros Hn Hd. unfold JS.rem, JS.trunc.
  assert (Hq : 0 <= n / d) by (apply Rmult_le_pos; [lra | left; now apply Rinv_0_lt_compat]).
  destruct (Rle_dec 0 (n / d)) as [_|Hc]; [|contradiction].
  destruct (base_Int_part (n / d)) as [Hlo Hhi].
  set (q := IZR (Int_part (n / d))) in *.
  assert (En : n = d * (n / d)) by (field; lra).
  split.
  - assert (0 <= d * (n / d - q)) by (apply Rmult_le_pos; lra). lra.
  - assert (d * (n / d - q) < d * 1) by (apply Rmult_lt_compat_l; lra). lra.
Qed.

(** A negative dividend leaves a remainder in [(-d, 0]]: the sign of the
    dividend is kept. *)
Lemma rem_of_neg (n d : R) : n < 0 -> 0 < d -> - d < JS.rem n d <= 0.
Proof.
  intros Hn Hd. unfold JS.rem, JS.trunc.
  assert (Hq : n / d < 0).
  { unfold Rdiv. rewrite <- (Rmult_0_l (/ d)).
    apply Rmult_lt_compat_r; [now apply Rinv_0_lt_compat | lra]. }
  destruct (Rle_dec 0 (n / d)) as [Hc|_]; [lra|].
  destruct (base_Int_part (- (n / d))) as [Hlo Hhi].
  rewrite opp_IZR.
  set (q := IZR (Int_part (- (n / d)))) in *.
  assert (En : n = d * (n / d)) by (field; lra).
  split.
  - assert (d * (- (n / d) - q) < d * 1) by (apply Rmult_lt_compat_l; lra). lra.
  - assert (0 <= d * (- (n / d) - q)) by (apply Rmult_le_pos; lra). lra.
Qed.

(** A dividend already in [[0, d)] is its own remainder. *)
Lemma rem_small (n d : R) : 0 <= n < d -> JS.rem n d = n.
Proof.
  intros [Hlo Hhi]. unfold JS.rem.
  assert (Hd : 0 < d) by lra.
  assert (Hq : 0 <= n / d < 1).
  { split.
    - apply Rmult_le_pos; [lra | left; now apply Rinv_0_lt_compat].
    - apply (Rmult_lt_reg_r d); [lra|]. unfold Rdiv.
      rewrite Rmult_assoc, Rinv_l by lra. lra. }
  rewrite (trunc_nonneg (n / d) 0); simpl; lra.
Qed.

(** A dividend in [(-d, 0)] is its own remainder too, and stays negative. *)
Lemma rem_small_neg (n d : R) : - d < n < 0 -> JS.rem n d = n.
Proof.
  intros [Hlo Hhi]. unfold JS.rem.
  assert (Hd : 0 < d) by lra.
  assert (Hq : -1 < n / d < 0).
  { split.
    - apply (Rmult_lt_reg_r d); [lra|]. unfold Rdiv.
      rewrite Rmult_assoc, Rinv_l by lra. lra.
    - unfold Rdiv. rewrite <- (Rmult_0_l (/ d)).
      apply Rmult_lt_compat_r; [now apply Rinv_0_lt_compat | lra]. }
  rewrite (trunc_neg (n / d) 0); simpl; lra.
Qed.

Lemma rem_shift (n d : R) : 0 < d -> d <= n < 2 * d -> JS.rem n d = n - d.
Proof.
  intros Hd [Hlo Hhi]. unfold JS.rem.
  assert (Hq : 1 <= n / d < 2).
  { split.
    - apply (Rmult_le_reg_r d); [lra|]. unfold Rdiv.
      rewrite Rmult_assoc, Rinv_l by lra. lra.
    - apply (Rmult_lt_reg_r d); [lra|]. unfold Rdiv.
      rewrite Rmult_assoc, Rinv_l by lra. lra. }
  rewrite (trunc_nonneg (n / d) 1); simpl; lra.
Qed.

(** [Math.atan2] on the axes and in the four quadrants. *)
Lemma atan2_pos_x (y x : R) : 0 < x -> JS.atan2 y x = atan (y / x).
Proof.
  intros Hx. unfold JS.atan2.
  destruct (total_order_T x 0) as [[H|H]|H]; try reflexivity; lra.
Qed.

Lemma atan2_neg_x_nonneg_y (y x : R) :
  x < 0 -> 0 <= y -> JS.atan2 y x = atan (y / x) + PI.
Proof.
  intros Hx Hy. unfold JS.atan2.
  destruct (total_order_T x 0) as [[H|H]|H]; [|exfalso; lra..].
  destruct (Rle_dec 0 y); [reflexivity | contradiction].
Qed.

Lemma atan2_neg_x_neg_y (y x : R) :
  x < 0 -> y < 0 -> JS.atan2 y x = atan (y / x) - PI.
Proof.
  intros Hx Hy. unfold JS.atan2.
  destruct (total_order_T x 0) as [[H|H]|H]; [|exfalso; lra..].
  destruct (Rle_dec 0 y); [exfalso; lra | reflexivity].
Qed.

Lemma atan2_zero_x_pos_y (y : R) : 0 < y -> JS.atan2 y 0 = PI / 2.
Proof.
  intros Hy. unfold JS.atan2.
  destruct (total_order_T 0 0) as [[H|H]|H]; try (exfalso; lra).
  destruct (total_order_T y 0) as [[H'|H']|H']; try (exfalso; lra); reflexivity.
Qed.

Lemma atan2_zero_x_neg_y (y : R) : y < 0 -> JS.atan2 y 0 = - (PI / 2).
Proof.
  intros Hy. unfold JS.atan2.
  destruct (total_order_T 0 0) as [[H|H]|H]; try (exfalso; lra).
  destruct (total_order_T y 0) as [[H'|H']|H']; try (exfalso; lra); reflexivity.
Qed.

Lemma atan2_zero_zero : JS.atan2 0 0 = 0.
Proof.
  unfold JS.atan2.
  destruct (total_order_T 0 0) as [[H|H]|H]; try (exfalso; lra).
  destruct (total_order_T 0 0) as [[H'|H']|H']; try (exfalso; lra); reflexivity.
Qed.

(** The result of [Math.atan2] lies in [(-PI, PI]]. *)
Lemma atan2_range (y x : R) : - PI < JS.atan2 y x <= PI.
Proof.
  pose proof PI_RGT_0 as Hpi.
  unfold JS.atan2.
  destruct (total_order_T x 0) as [[Hx|Hx]|Hx].
  - destruct (Rle_dec 0 y) as [Hy|Hy].
    + pose proof (atan_bound (y / x)) as [Hlo Hhi].
      assert (Hq : y / x <= 0).
      { unfold Rdiv. replace (y * / x) with (- (y * / (- x))).
        - assert (0 <= y * / - x)
            by (apply Rmult_le_pos; [lra | left; apply Rinv_0_lt_compat; lra]).
          lra.
        - field; lra. }
      assert (atan (y / x) <= 0).
      { destruct Hq as [Hq|Hq].
        - left. rewrite <- atan_0. now apply atan_increasing.
        - rewrite Hq, atan_0. lra. }
      lra.
    + pose proof (atan_bound (y / x)) as [Hlo Hhi].
      assert (Hq : 0 < y / x).
      { unfold Rdiv. replace (y * / x) with ((- y) * / (- x)) by (field; lra).
        apply Rmult_lt_0_compat; [lra | apply Rinv_0_lt_compat; lra]. }
      assert (0 < atan (y / x)).
      { rewrite <- atan_0. now apply atan_increasing. }
      lra.
  - destruct (total_order_T y 0) as [[Hy|Hy]|Hy]; lra.
  - pose proof (atan_bound (y / x)). lra.
Qed.

Lemma hypotenuse_factor (x y : R) :
  x <> 0 -> sqrt (x * x + y * y) = Rabs x * sqrt (1 + (y / x)²).
Proof.
  intros Hx.
  replace (x * x + y * y) with (Rsqr x * (1 + (y / x)²))
    by (unfold Rsqr; field; exact Hx).
  rewrite sqrt_mult.
  - rewrite sqrt_Rsqr_abs. reflexivity.
  - apply Rle_0_sqr.
  - pose proof (Rle_0_sqr (y / x)). lra.
Qed.

(** [Math.atan2(y, x)] is the polar angle of the point (x, y): with r the
    distance of the point from the origin, x = r cos(angle), y = r sin(angle). *)
Lemma atan2_polar (y x : R) :
  x = sqrt (x * x + y * y) * cos (JS.atan2 y x)
  /\ y = sqrt (x * x + y * y) * sin (JS.atan2 y x).
Proof.
  destruct (total_order_T x 0) as [[Hx|Hx]|Hx].
  - assert (Hs : 0 < sqrt (1 + (y / x)²)).
    { apply sqrt_lt_R0. pose proof (Rle_0_sqr (y / x)). lra. }
    rewrite hypotenuse_factor by lra.
    rewrite (Rabs_left x) by lra.
    destruct (Rle_dec 0 y) as [Hy|Hy].
    + rewrite atan2_neg_x_nonneg_y by lra.
      rewrite neg_cos, neg_sin, cos_atan, sin_atan.
      split; field; lra.
    + rewrite atan2_neg_x_neg_y by lra.
      rewrite cos_minus, sin_minus, cos_PI, sin_PI, cos_atan, sin_atan.
      split; field; lra.
  - subst x. rewrite Rmult_0_l, Rplus_0_l.
    destruct (total_order_T y 0) as [[Hy|Hy]|Hy].
    + rewrite atan2_zero_x_neg_y by lra.
      rewrite cos_neg, sin_neg, cos_PI2, sin_PI2.
      replace (y * y) with (Rsqr (- y)) by (unfold Rsqr; ring).
      rewrite sqrt_Rsqr by lra. split; ring.
    + subst y. rewrite atan2_zero_zero, Rmult_0_l, sqrt_0. split; ring.
    + rewrite atan2_zero_x_pos_y by lra.
      rewrite cos_PI2, sin_PI2.
      replace (y * y) with (Rsqr y) by (unfold Rsqr; ring).
      rewrite sqrt_Rsqr by lra. split; ring.
  - assert (Hs : 0 < sqrt (1 + (y / x)²)).
    { apply sqrt_lt_R0. pose proof (Rle_0_sqr (y / x)). lra. }
    rewrite hypotenuse_factor by lra.
    rewrite (Rabs_pos_eq x) by lra.
    rewrite atan2_pos_x by lra.
    rewrite cos_atan, sin_atan.
    split; field; lra.
Qed.

End JSFacts.

(** ** Facts about the shoelace sum *)

Module ShoelaceFacts.
Import Shoelace.

Lemma cross_antisym (p q : RealCoords) : cross q p = - cross p q.
Proof. unfold cross. ring. Qed.

Lemma cross_self (p : RealCoords) : cross p p = 0.
Proof. unfold cross. ring. Qed.

Lemma sum_upto_ext (f g : nat -> R) (n : nat) :
  (forall i, (i < n)%nat -> f i = g i) -> sum_upto f n = sum_upto g n.
Proof.
  induction n as [|n IH]; intros H; simpl; [reflexivity|].
  rewrite IH by (intros i Hi; apply H; lia).
  rewrite (H n) by lia. reflexivity.
Qed.

Lemma sum_upto_shift (f : nat -> R) (n : nat) :
  sum_upto f (S n) = f O + sum_upto (fun i => f (S i)) n.
Proof.
  induction n as [|n IH]; [simpl; ring|].
  change (sum_upto f (S (S n))) with (sum_upto f (S n) + f (S n)).
  rewrite IH. simpl. ring.
Qed.

(** The loop of [calculatePolygonArea] adds up the terms of the sum. *)
Lemma loop_is_sum (coords : list RealCoords) (n : nat) (area : R) :
  fold_left (polygonAreaStep coords) (seq 0 n) area
  = area + sum_upto
             (fun i =>
                let v := fun i => nth i coords (mkRealCoords 0 0) in
                let j := ((i + 1) mod List.length coords)%nat in
                real_x (v i) * real_y (v j) - real_x (v j) * real_y (v i)) n.
Proof.
  induction n as [|n IH].
  - simpl. ring.
  - rewrite seq_S, fold_left_app, IH. simpl.
    unfold polygonAreaStep. ring.
Qed.

Lemma chain_is_sum (l : list RealCoords) (d : RealCoords) :
  chain l = sum_upto (fun i => cross (nth i l d) (nth (S i) l d))
                     (List.length l - 1).
Proof.
  induction l as [|p l IH]; [reflexivity|].
  destruct l as [|q t]; [reflexivity|].
  change (chain (p :: q :: t)) with (cross p q + chain (q :: t)).
  rewrite IH.
  replace (List.length (p :: q :: t) - 1)%nat with (S (List.length t))
    by (simpl; lia).
  replace (List.length (q :: t) - 1)%nat with (List.length t)
    by (simpl; lia).
  rewrite sum_upto_shift. reflexivity.
Qed.

(** The wrap-around index of the specification reads the closed chain. *)
Lemma spec_sum_is_closed (l : list RealCoords) :
  l <> [] -> spec_shoelace_sum l = closed l.
Proof.
  intros Hne. unfold spec_shoelace_sum, closed.
  set (d := mkRealCoords 0 0).
  rewrite (chain_is_sum _ d).
  rewrite length_app. simpl List.length.
  replace (List.length l + 1 - 1)%nat with (List.length l) by lia.
  apply sum_upto_ext. intros i Hi. unfold cross.
  assert (Ei : nth i (l ++ [hd d l]) d = nth i l d)
    by (apply app_nth1; exact Hi).
  assert (Ej : nth (S i) (l ++ [hd d l]) d
               = nth ((i + 1) mod List.length l) l d).
  { destruct (Nat.eq_dec (S i) (List.length l)) as [E|E].
    - replace (i + 1)%nat with (List.length l) by lia.
      rewrite Nat.Div0.mod_same.
      rewrite app_nth2 by lia. rewrite E, Nat.sub_diag.
      destruct l; [contradiction | reflexivity].
    - rewrite Nat.mod_small by lia.
      rewrite app_nth1 by lia. f_equal. lia. }
  rewrite Ei, Ej. reflexivity.
Qed.

Lemma chain_snoc (l : list RealCoords) (p q : RealCoords) :
  chain (l ++ [p; q]) = chain (l ++ [p]) + cross p q.
Proof.
  induction l as [|a l IH]; [simpl; ring|].
  destruct l as [|b t].
  - simpl. ring.
  - change (chain ((a :: b :: t) ++ [p; q]))
      with (cross a b + chain ((b :: t) ++ [p; q])).
    change (chain ((a :: b :: t) ++ [p]))
      with (cross a b + chain ((b :: t) ++ [p])).
    rewrite IH. ring.
Qed.

Lemma chain_rev (l : list RealCoords) : chain (rev l) = - chain l.
Proof.
  induction l as [|p l IH]; [simpl; ring|].
  destruct l as [|q t]; [simpl; ring|].
  change (chain (p :: q :: t)) with (cross p q + chain (q :: t)).
  change (rev (p :: q :: t)) with ((rev t ++ [q]) ++ [p]).
  rewrite <- app_assoc. change ([q] ++ [p]) with [q; p].
  rewrite chain_snoc.
  change (rev t ++ [q]) with (rev (q :: t)).
  rewrite IH, (cross_antisym p q). ring.
Qed.

(** Moving the first vertex to the end leaves the closed sum unchanged. *)
Lemma closed_rotate1 (a : RealCoords) (t : list RealCoords) :
  closed (t ++ [a]) = closed (a :: t).
Proof.
  unfold closed. destruct t as [|b t].
  - reflexivity.
  - change (hd _ ((b :: t) ++ [a])) with b.
    change (hd _ (a :: b :: t)) with a.
    rewrite <- app_assoc. change ([a] ++ [b]) with [a; b].
    rewrite chain_snoc.
    change (chain ((a :: b :: t) ++ [a]))
      with (cross a b + chain ((b :: t) ++ [a])).
    ring.
Qed.

Lemma closed_rotate (l1 l2 : list RealCoords) :
  closed (l2 ++ l1) = closed (l1 ++ l2).
Proof.
  revert l2. induction l1 as [|a l1 IH]; intros l2.
  - now rewrite app_nil_r.
  - change (a :: l1) with ([a] ++ l1) at 1. rewrite app_assoc.
    rewrite IH. rewrite app_assoc. apply closed_rotate1.
Qed.

(** Walking the polygon the other way round negates the closed sum. *)
Lemma closed_rev (l : list RealCoords) : closed (rev l) = - closed l.
Proof.
  destruct l as [|a t]; [unfold closed; simpl; ring|].
  change (rev (a :: t)) with (rev t ++ [a]).
  rewrite closed_rotate1. unfold closed.
  change (hd _ (a :: rev t)) with a. change (hd _ (a :: t)) with a.
  replace ((a :: rev t) ++ [a]) with (rev ((a :: t) ++ [a])).
  - apply chain_rev.
  - rewrite rev_app_distr. reflexivity.
Qed.

(** [calculatePolygonArea] in terms of the closed sum. *)
Lemma calculatePolygonArea_closed (coords : list RealCoords) :
  calculatePolygonArea coords
  = if (List.length coords <? 3)%nat then 0 else Rabs (closed coords / 2).
Proof.
  unfold calculatePolygonArea.
  destruct (List.length coords <? 3)%nat eqn:E; [reflexivity|].
  rewrite loop_is_sum, Rplus_0_l.
  rewrite <- (spec_sum_is_closed coords); [reflexivity|].
  intros ->. discriminate.
Qed.

Lemma Rabs_half (a : R) : Rabs (a / 2) = Rabs a / 2.
Proof.
  unfold Rdiv. rewrite Rabs_mult, (Rabs_pos_eq (/ 2)); [reflexivity | lra].
Qed.

End ShoelaceFacts.

(** ** Facts about the coordinate arithmetic *)

Lemma div_nonzero (a b : R) : b <> 0 -> JS.div a b = JS.Finite (a / b).
Proof.
  intros Hb. unfold JS.div.
  destruct (Req_dec_T b 0); [contradiction | reflexivity].
Qed.

Lemma div_pos_by_zero (a : R) : 0 < a -> JS.div a 0 = JS.PosInfinity.
Proof.
  intros Ha. unfold JS.div.
  destruct (Req_dec_T 0 0) as [_|H]; [|contradiction].
  destruct (total_order_T a 0) as [[H|H]|H]; try (exfalso; lra); reflexivity.
Qed.

Lemma div_zero_by_zero : JS.div 0 0 = JS.NaN.
Proof.
  unfold JS.div.
  destruct (Req_dec_T 0 0) as [_|H]; [|contradiction].
  destruct (total_order_T 0 0) as [[H|H]|H]; try (exfalso; lra); reflexivity.
Qed.

Lemma truthy_finite (r : R) : r <> 0 -> JS.truthy (JS.Finite r) = true.
Proof.
  intros Hr. simpl. destruct (Req_dec_T r 0); [contradiction | reflexivity].
Qed.

Lemma truthy_zero : JS.truthy (JS.Finite 0) = false.
Proof.
  simpl. destruct (Req_dec_T 0 0); [reflexivity | contradiction].
Qed.

Lemma calculateDistance_same (p : PixelCoords) : calculateDistance p p = 0.
Proof.
  unfold calculateDistance, JS.pow2.
  replace (_ + _) with 0 by ring. apply sqrt_0.
Qed.

Lemma calculateDistance_nonneg (p1 p2 : PixelCoords) : 0 <= calculateDistance p1 p2.
Proof. apply sqrt_pos. Qed.

Lemma calculateDistance_pos (p1 p2 : PixelCoords) :
  p1 <> p2 -> 0 < calculateDistance p1 p2.
Proof.
  intros Hne. unfold calculateDistance, JS.pow2. apply sqrt_lt_R0.
  destruct p1 as [x1 y1], p2 as [x2 y2]; simpl.
  destruct (Req_dec_T x2 x1) as [Ex|Ex].
  - destruct (Req_dec_T y2 y1) as [Ey|Ey].
    + subst. contradiction.
    + assert (0 < (y2 - y1) * (y2 - y1)) by (apply Rsqr_pos_lt; lra).
      assert (0 <= (x2 - x1) * (x2 - x1)) by apply Rle_0_sqr.
      lra.
  - assert (0 < (x2 - x1) * (x2 - x1)) by (apply Rsqr_pos_lt; lra).
    assert (0 <= (y2 - y1) * (y2 - y1)) by apply Rle_0_sqr.
    lra.
Qed.

Lemma calculateDistance_horizontal (x1 x2 y : R) :
  x1 <= x2 -> calculateDistance (mkPixelCoords x1 y) (mkPixelCoords x2 y) = x2 - x1.
Proof.
  intros H. unfold calculateDistance, JS.pow2. simpl.
  replace (_ + _) with (Rsqr (x2 - x1)) by (unfold Rsqr; ring).
  apply sqrt_Rsqr. lra.
Qed.

(** The guard of [calculateRealCoords]: without an origin or without a scale
    the result is (0, 0). *)
Lemma calculateRealCoords_unset (s : State) (p : PixelCoords) :
  origin s = None \/ pixelsPerMeter s = None ->
  calculateRealCoords s p = mkRealCoords 0 0.
Proof.
  intros [H|H]; unfold calculateRealCoords; rewrite H.
  - reflexivity.
  - destruct (origin s); reflexivity.
Qed.

Lemma calibrated_finite_nonzero (s : State) (o : PixelCoords) (r : R) :
  origin s = Some o -> pixelsPerMeter s = Some (JS.Finite r) -> r <> 0 ->
  calibrated s = true.
Proof.
  intros Ho Hs Hr. unfold calibrated. rewrite Ho, Hs.
  now apply truthy_finite.
Qed.

(** ** Facts about the bearing *)

(** Degrees of the angles met below. *)
Lemma degrees_of_half_pi : PI / 2 * (180 / PI) = 90.
Proof. field. apply PI_neq0. Qed.

Lemma degrees_of_pi : PI * (180 / PI) = 180.
Proof. field. apply PI_neq0. Qed.

Lemma angleDeg_range (y x : R) :
  -180 < JS.atan2 y x * (180 / PI) <= 180.
Proof.
  pose proof PI_RGT_0 as Hpi.
  destruct (JSFacts.atan2_range y x) as [Hlo Hhi].
  assert (Hk : 0 < 180 / PI) by (apply Rdiv_lt_0_compat; lra).
  pose proof degrees_of_pi as Hpk.
  set (k := 180 / PI) in *.
  split.
  - assert (- PI * k < JS.atan2 y x * k) by (apply Rmult_lt_compat_r; lra). lra.
  - assert (JS.atan2 y x * k <= PI * k) by (apply Rmult_le_compat_r; lra). lra.
Qed.

(** Up to a reference direction of 180 degrees the bearing is in [[0, 360)]. *)
Lemma bearing_in_range_up_to_180 (rc : RealCoords) (rotation : R) :
  rotation <= 180 ->
  0 <= db_bearing (calculateDistanceAndBearing rc rotation) < 360.
Proof.
  intros Hrot. unfold calculateDistanceAndBearing. simpl.
  pose proof (angleDeg_range (real_x rc) (real_y rc)).
  apply JSFacts.rem_of_nonneg; lra.
Qed.

(** In every case the bearing is strictly between -360 and 360. *)
Lemma bearing_in_open_range (rc : RealCoords) (rotation : R) :
  -360 < db_bearing (calculateDistanceAndBearing rc rotation) < 360.
Proof.
  unfold calculateDistanceAndBearing. simpl.
  set (n := _ - rotation + 360).
  destruct (Rle_dec 0 n) as [Hn|Hn].
  - pose proof (JSFacts.rem_of_nonneg n 360 Hn). lra.
  - pose proof (JSFacts.rem_of_neg n 360). lra.
Qed.

(** Two bearings of one position differ by the difference of the reference
    directions, up to whole turns. *)
Lemma bearing_shift (rc : RealCoords) (rotation delta : R) :
  exists k : Z,
    db_bearing (calculateDistanceAndBearing rc (rotation + delta))
    = db_bearing (calculateDistanceAndBearing rc rotation) - delta + 360 * IZR k.
Proof.
  unfold calculateDistanceAndBearing, JS.rem. simpl.
  set (a := JS.atan2 (real_x rc) (real_y rc) * (180 / PI)).
  exists (JS.trunc ((a - rotation + 360) / 360)
          - JS.trunc ((a - (rotation + delta) + 360) / 360))%Z.
  rewrite minus_IZR. ring.
Qed.

Lemma bearing_of_east :
  calculateDistanceAndBearing (mkRealCoords 10 0) 0
  = {| db_distance := 10; db_bearing := 90 |}.
Proof.
  unfold calculateDistanceAndBearing, JS.pow2. simpl.
  replace (10 * 10 + 0 * 0) with (Rsqr 10) by (unfold Rsqr; ring).
  rewrite sqrt_Rsqr by lra.
  rewrite JSFacts.atan2_zero_x_pos_y by lra.
  rewrite degrees_of_half_pi.
  rewrite JSFacts.rem_shift by lra.
  f_equal. ring.
Qed.

Lemma bearing_of_origin :
  calculateDistanceAndBearing (mkRealCoords 0 0) 0
  = {| db_distance := 0; db_bearing := 0 |}.
Proof.
  unfold calculateDistanceAndBearing, JS.pow2. simpl.
  replace (0 * 0 + 0 * 0) with 0 by ring. rewrite sqrt_0.
  rewrite JSFacts.atan2_zero_zero.
  replace (0 * (180 / PI) - 0 + 360) with 360 by (field; apply PI_neq0).
  rewrite JSFacts.rem_shift by lra. f_equal. ring.
Qed.

Lemma bearing_of_south_west_at_270 :
  db_bearing (calculateDistanceAndBearing (mkRealCoords (-1) (-1)) 270) = -45.
Proof.
  unfold calculateDistanceAndBearing. simpl.
  rewrite JSFacts.atan2_neg_x_neg_y by lra.
  replace (-1 / -1) with 1 by (field; lra).
  rewrite atan_1.
  replace ((PI / 4 - PI) * (180 / PI) - 270 + 360) with (-45)
    by (field; apply PI_neq0).
  apply JSFacts.rem_small_neg. lra.
Qed.

Lemma compass_pointing_left : compassAngleDeg (-1) 0 0 0 = 270.
Proof.
  unfold compassAngleDeg.
  replace (0 - 0) with 0 by ring. replace (-1 - 0) with (-1) by ring.
  rewrite JSFacts.atan2_neg_x_nonneg_y by lra.
  replace (0 / -1) with 0 by (field; lra).
  rewrite atan_0, Rplus_0_l, degrees_of_pi. ring.
Qed.

(** ** Facts about the bearing effect *)

(** The effect leaves a state without stored points as it is. *)
Lemma recalculateBearings_no_points (s : State) :
  points s = [] -> recalculateBearings s = s.
Proof. intros H. unfold recalculateBearings. rewrite H. reflexivity. Qed.

(** The effect, when its guard lets it run, maps the stored points. *)
Lemma recalculateBearings_runs (s : State) :
  points s <> [] -> calibrated s = true ->
  points (recalculateBearings s)
  = map (fun p =>
           {| name := name p;
              pixelCoords := pixelCoords p;
              realCoords := realCoords p;
              distance := distance p;
              bearing := db_bearing
                           (calculateDistanceAndBearing (realCoords p)
                              (northRotation s)) |})
        (points s)
  /\ northRotation (recalculateBearings s) = northRotation s.
Proof.
  intros Hne Hcal. unfold recalculateBearings. rewrite Hcal.
  destruct (points s) as [|p ps] eqn:E; [contradiction|].
  simpl. destruct s; simpl in *. split; reflexivity.
Qed.

(** The effect, when its guard stops it, changes nothing. *)
Lemma recalculateBearings_skips (s : State) :
  calibrated s = false -> recalculateBearings s = s.
Proof.
  intros Hcal. unfold recalculateBearings. rewrite Hcal.
  now rewrite orb_true_r.
Qed.

(** ** The sessions of the examples, handler by handler *)

Lemma andThen_returns (s s' : State) (a a' : list string) (h : State -> completion) :
  h s = Returns s' a' -> Returns s a >>> h = Returns s' (a ++ a').
Proof. intros H. unfold andThen. rewrite H. reflexivity. Qed.

Lemma first_click_of_scenario :
  handleImageClick (Some (mkPixelCoords 0 0)) imageLoaded = Returns afterFirstClick [].
Proof. reflexivity. Qed.

Lemma second_click_of_scenario :
  handleImageClick (Some (mkPixelCoords 100 0)) afterFirstClick
  = Returns awaitingOrigin [].
Proof.
  unfold handleImageClick, afterFirstClick.
  cbn [appState calibrationPoints setAppState setCalibrationPoints imageLoaded
       handleFileLoaded setImageSrc initialState knownDistance].
  rewrite calculateDistance_horizontal by lra.
  rewrite div_nonzero by lra.
  replace ((100 - 0) / 10) with 10 by field.
  reflexivity.
Qed.

Lemma origin_click_of_scenario :
  handleImageClick (Some (mkPixelCoords 50 50)) awaitingOrigin
  = Returns scenarioSession [].
Proof. reflexivity. Qed.

Lemma scenarioSession_reached :
  Returns imageLoaded []
  >>> handleImageClick (Some (mkPixelCoords 0 0))
  >>> handleImageClick (Some (mkPixelCoords 100 0))
  >>> handleImageClick (Some (mkPixelCoords 50 50))
  = Returns scenarioSession [].
Proof.
  unfold andThen.
  rewrite first_click_of_scenario, second_click_of_scenario,
    origin_click_of_scenario.
  reflexivity.
Qed.

Lemma scenario_point_data :
  calculatePointData scenarioSession (mkPixelCoords 150 50)
  = {| pd_realCoords := mkRealCoords 10 0; pd_distance := 10; pd_bearing := 90 |}.
Proof.
  assert (Hrc : calculateRealCoords scenarioSession (mkPixelCoords 150 50)
                = mkRealCoords 10 0).
  { unfold calculateRealCoords. simpl.
    destruct (Req_dec_T 10 0) as [E|_]; [lra|].
    f_equal; field. }
  unfold calculatePointData. rewrite Hrc.
  change (northRotation scenarioSession) with 0.
  rewrite bearing_of_east. reflexivity.
Qed.

Lemma scenario_origin_point_data :
  calculatePointData scenarioSession (mkPixelCoords 50 50)
  = {| pd_realCoords := mkRealCoords 0 0; pd_distance := 0; pd_bearing := 0 |}.
Proof.
  assert (Hrc : calculateRealCoords scenarioSession (mkPixelCoords 50 50)
                = mkRealCoords 0 0).
  { unfold calculateRealCoords. simpl.
    destruct (Req_dec_T 10 0) as [E|_]; [lra|].
    f_equal; field. }
  unfold calculatePointData. rewrite Hrc.
  change (northRotation scenarioSession) with 0.
  rewrite bearing_of_origin. reflexivity.
Qed.

Lemma sessionWithPoint_reached :
  Returns scenarioSession []
  >>> handleImageClick (Some (mkPixelCoords 150 50))
  >>> handleSavePoint
  = Returns sessionWithPoint [].
Proof.
  erewrite andThen_returns by reflexivity.
  erewrite andThen_returns; [reflexivity|].
  unfold handleSavePoint.
  cbn [tempPoint newPointName setAppState scenarioSession
       setTempPoint setNewPointName points List.length app].
  change (JS.trim ("Punto " ++ JS.nat_to_string (0 + 1))) with "Punto 1"%string.
  cbv iota.
  replace (calculatePointData _ (mkPixelCoords 150 50))
    with (calculatePointData scenarioSession (mkPixelCoords 150 50))
    by reflexivity.
  rewrite scenario_point_data.
  reflexivity.
Qed.

Lemma definingAreaWithTwo_reached :
  Returns scenarioSession []
  >>> returning handleStartAreaMode
  >>> handleImageClick (Some (mkPixelCoords 50 50))
  >>> handleImageClick (Some (mkPixelCoords 150 50))
  = Returns definingAreaWithTwo [].
Proof.
  erewrite andThen_returns by reflexivity.
  erewrite andThen_returns.
  2:{ unfold handleImageClick.
      cbn [appState handleStartAreaMode setCurrentAreaPoints setAppState
           scenarioSession currentAreaPoints List.length app].
      replace (calculatePointData _ (mkPixelCoords 50 50))
        with (calculatePointData scenarioSession (mkPixelCoords 50 50))
        by reflexivity.
      rewrite scenario_origin_point_data.
      cbn [pd_realCoords pd_distance pd_bearing]. reflexivity. }
  erewrite andThen_returns; [reflexivity|].
  unfold handleImageClick.
  cbn [appState setCurrentAreaPoints currentAreaPoints List.length app].
  replace (calculatePointData _ (mkPixelCoords 150 50))
    with (calculatePointData scenarioSession (mkPixelCoords 150 50))
    by reflexivity.
  rewrite scenario_point_data.
  reflexivity.
Qed.

Lemma degenerate_second_click :
  handleImageClick (Some (mkPixelCoords 5 5)) afterFirstClickAt5
  = Returns
      (setAppState SET_ORIGIN
         (setCalibrationPoints [mkPixelCoords 5 5; mkPixelCoords 5 5]
            (setPixelsPerMeter (Some (JS.Finite 0)) afterFirstClickAt5))) [].
Proof.
  unfold handleImageClick, afterFirstClickAt5.
  cbn [appState calibrationPoints setAppState setCalibrationPoints imageLoaded
       handleFileLoaded setImageSrc initialState knownDistance].
  rewrite calculateDistance_same.
  rewrite div_nonzero by lra.
  replace (0 / 10) with 0 by field.
  reflexivity.
Qed.

Lemma degenerate_point_data (p : PixelCoords) (s : State) :
  pixelsPerMeter s = Some (JS.Finite 0) ->
  northRotation s = 0 ->
  calculatePointData s p
  = {| pd_realCoords := mkRealCoords 0 0; pd_distance := 0; pd_bearing := 0 |}.
Proof.
  intros Hs Hr. unfold calculatePointData, calculateRealCoords.
  rewrite Hs, Hr, truthy_zero.
  destruct (origin s); rewrite bearing_of_origin; reflexivity.
Qed.

Lemma degenerateSession_reached :
  Returns imageLoaded []
  >>> handleImageClick (Some (mkPixelCoords 5 5))
  >>> handleImageClick (Some (mkPixelCoords 5 5))
  >>> handleImageClick (Some (mkPixelCoords 50 50))
  >>> handleImageClick (Some (mkPixelCoords 150 50))
  >>> handleSavePoint
  = Returns degenerateSession [].
Proof.
  rewrite (andThen_returns imageLoaded afterFirstClickAt5 [] []) by reflexivity.
  erewrite andThen_returns by apply degenerate_second_click.
  erewrite andThen_returns by reflexivity.
  erewrite andThen_returns by reflexivity.
  erewrite andThen_returns; [reflexivity|].
  unfold handleSavePoint.
  cbn [tempPoint newPointName setAppState setCalibrationPoints
       setPixelsPerMeter afterFirstClickAt5 imageLoaded handleFileLoaded setImageSrc initialState
       setOrigin setTempPoint setNewPointName points List.length app].
  change (JS.trim "Punto 1") with "Punto 1"%string.
  cbv iota.
  rewrite degenerate_point_data by reflexivity.
  reflexivity.
Qed.

(** ** The invariant of the reachable sessions *)

Lemma initialState_invariant : Invariant initialState.
Proof.
  split.
  - repeat split; simpl; intros; try discriminate; reflexivity.
  - intros _. constructor.
Qed.

(** Every handler keeps the session well formed. *)
Lemma handler_well_formed (e : Event) (s s1 : State) (alerts : list string) :
  WellFormed s -> offered e s = true -> handler e s = Returns s1 alerts ->
  WellFormed s1.
Proof.
  intros (W1 & W2 & W3 & W4 & W5) Hoff Hh.
  break_state s. unfold WellFormed in *.
  destruct e; unfold_handlers.
  all: destruct st; simpl in *; try discriminate.
  all: destruct img; simpl in *; try discriminate.
  all: try (specialize (W2 eq_refl); destruct W2 as [? ?]).
  all: try (specialize (W3 eq_refl); destruct W3 as [? ?]).
  all: try (specialize (W4 eq_refl); destruct W4 as [? ?]).
  all: try specialize (W5 eq_refl).
  all: subst.
  all: break_match_in Hh; try discriminate.
  all: try match goal with
           | H : nth_error [] ?n = Some _ |- _ => destruct n; discriminate H
           end.
  all: injection Hh as <- _; simpl; rewrite ?firstn_nil; simpl.
  all: repeat split; intros; try discriminate; eauto.
Qed.

Lemma Forall_firstn_of {A : Type} (P : A -> Prop) (n : nat) (l : list A) :
  Forall P l -> Forall P (firstn n l).
Proof.
  revert l. induction n as [|n IH]; intros l H; [constructor|].
  destruct l as [|x l]; [constructor|].
  inversion H; subst. simpl. constructor; auto.
Qed.

Lemma Forall_skipn_of {A : Type} (P : A -> Prop) (n : nat) (l : list A) :
  Forall P l -> Forall P (skipn n l).
Proof.
  revert l. induction n as [|n IH]; intros l H; [exact H|].
  destruct l as [|x l]; [constructor|].
  inversion H; subst. simpl. auto.
Qed.

Lemma upToDate_same_rotation (s s1 : State) (p : Point) :
  northRotation s1 = northRotation s -> upToDate s p -> upToDate s1 p.
Proof. unfold upToDate. intros ->. auto. Qed.

(** A handler only keeps, drops or renames stored points, or appends one
    whose bearing it has just computed. *)
Lemma handler_points (e : Event) (s s1 : State) (alerts : list string) :
  handler e s = Returns s1 alerts ->
  Forall (upToDate s) (points s) -> Forall (upToDate s) (points s1).
Proof.
  intros Hh Hall. destruct e; simpl in Hh.
  - injection Hh as <- _. break_state s. exact Hall.
  - injection Hh as <- _. break_state s. exact Hall.
  - unfold handleImageClick in Hh. break_match_in Hh; try discriminate;
      injection Hh as <- _; break_state s; exact Hall.
  - injection Hh as <- _. unfold handleImageMouseMove.
    break_state s. simpl. destruct (AppState_lt st READY); [exact Hall|].
    destruct coords; exact Hall.
  - injection Hh as <- _. break_state s. exact Hall.
  - break_match_in Hh; injection Hh as <- _; break_state s; exact Hall.
  - destruct (AppState_eqb (appState s) NAMING_POINT).
    + unfold handleSavePoint in Hh.
      break_match_in Hh; try discriminate; injection Hh as <- _;
        try exact Hall.
      assert (Hp : forall t, points (handleCancelNaming t) = points t).
      { intros t. unfold handleCancelNaming.
        break_state t. simpl. destruct st; reflexivity. }
      rewrite Hp.
      replace (points (setPoints _ s)) with
        (points s ++
           [{| name := String a s0;
               pixelCoords := p;
               realCoords := pd_realCoords (calculatePointData s p);
               distance := pd_distance (calculatePointData s p);
               bearing := pd_bearing (calculatePointData s p) |}])
        by (break_state s; reflexivity).
      apply Forall_app. split; [exact Hall|].
      constructor; [|constructor]. reflexivity.
    + injection Hh as <- _. unfold handleSaveArea.
      break_state s. simpl.
      destruct (JS.trim nan); [exact Hall|].
      destruct (List.length cap <? 3)%nat; exact Hall.
  - break_match_in Hh; injection Hh as <- _.
    + unfold handleCancelNaming. break_state s. simpl.
      destruct st; exact Hall.
    + break_state s. exact Hall.
  - injection Hh as <- _. break_state s. exact Hall.
  - injection Hh as <- _. break_state s. exact Hall.
  - unfold handleFinishArea in Hh. break_match_in Hh;
      injection Hh as <- _; break_state s; exact Hall.
  - injection Hh as <- _. break_state s. exact Hall.
  - injection Hh as <- _.
    replace (points (handleDeletePoint index s))
      with (firstn index (points s) ++ skipn (S index) (points s))
      by (break_state s; reflexivity).
    apply Forall_app. split.
    + now apply Forall_firstn_of.
    + now apply Forall_skipn_of.
  - injection Hh as <- _. break_state s. exact Hall.
  - unfold handleSaveEdit in Hh.
    break_match_in Hh; try discriminate; injection Hh as <- _;
      try exact Hall.
    match goal with
    | H : nth_error (points s) ?n = Some ?p |- _ =>
        replace (points (setPoints _ s))
          with (firstn n (points s)
                ++ {| name := String a s0;
                      pixelCoords := pixelCoords p;
                      realCoords := realCoords p;
                      distance := distance p;
                      bearing := bearing p |} :: skipn (S n) (points s))
          by (break_state s; reflexivity);
        apply nth_error_In in H
    end.
    apply Forall_app. split; [now apply Forall_firstn_of|].
    constructor; [|now apply Forall_skipn_of].
    rewrite Forall_forall in Hall.
    match goal with H : In ?p (points s) |- _ => apply (Hall p H) end.
  - unfold handleSaveEditArea in Hh.
    break_match_in Hh; try discriminate; injection Hh as <- _;
      try exact Hall.
    break_state s. exact Hall.
  - injection Hh as <- _. break_state s. constructor.
Qed.

Lemma recalculateBearings_calibrated (s : State) :
  calibrated (recalculateBearings s) = calibrated s.
Proof.
  unfold recalculateBearings.
  destruct (_ || _); [reflexivity|]. break_state s. reflexivity.
Qed.

Lemma recalculateBearings_well_formed (s : State) :
  WellFormed s -> WellFormed (recalculateBearings s).
Proof.
  intros W. unfold recalculateBearings.
  destruct (_ || _); [exact W|].
  destruct W as (W1 & W2 & W3 & W4 & W5).
  break_state s. unfold WellFormed in *. simpl in *.
  repeat split; auto.
  - destruct (W2 H) as [-> _]. reflexivity.
  - now destruct (W2 H).
  - now destruct (W3 H).
  - now destruct (W3 H).
Qed.

(** After the effect, the stored bearings are up to date whenever its guard
    lets it run. *)
Lemma recalculateBearings_upToDate (s : State) :
  calibrated s = true ->
  Forall (upToDate (recalculateBearings s)) (points (recalculateBearings s)).
Proof.
  intros Hcal. destruct (points s) as [|p ps] eqn:E.
  - rewrite recalculateBearings_no_points by exact E. rewrite E. constructor.
  - destruct (recalculateBearings_runs s) as [Hpts Hrot].
    + rewrite E. discriminate.
    + exact Hcal.
    + rewrite Hpts. apply Forall_forall. intros q Hq.
      apply in_map_iff in Hq. destruct Hq as [q0 [<- _]].
      unfold upToDate. rewrite Hrot. reflexivity.
Qed.

Lemma sameNumber_eq (a b : JS.number) : sameNumber a b = true -> a = b.
Proof.
  destruct a, b; simpl; try discriminate; try reflexivity.
  destruct (Req_dec_T r r0); [now subst | discriminate].
Qed.

Lemma sameDependencies_eq (prev next : State) :
  sameDependencies prev next = true ->
  northRotation next = northRotation prev /\ calibrated next = calibrated prev.
Proof.
  unfold sameDependencies, calibrated. intros H.
  apply andb_prop in H. destruct H as [H Hppm].
  apply andb_prop in H. destruct H as [Hrot Horg].
  destruct (Req_dec_T (northRotation prev) (northRotation next)) as [Er|];
    [|discriminate].
  split; [now symmetry|].
  destruct (origin prev), (origin next); try discriminate;
    destruct (pixelsPerMeter prev) as [a|], (pixelsPerMeter next) as [b|];
    try discriminate; try reflexivity.
  apply sameNumber_eq in Hppm. now subst.
Qed.

(** One event keeps the invariant. *)
Lemma dispatch_invariant (e : Event) (s s' : State) (alerts : list string) :
  Invariant s -> dispatch e s = Returns s' alerts -> Invariant s'.
Proof.
  intros [W B] Hd. unfold dispatch in Hd.
  destruct (offered e s) eqn:Hoff; [|injection Hd as <- _; now split].
  destruct (handler e s) as [s1 a1|] eqn:Hh; [|discriminate].
  injection Hd as <- _.
  pose proof (handler_well_formed e s s1 a1 W Hoff Hh) as W1.
  unfold afterRender. destruct (sameDependencies s s1) eqn:Hsame.
  - split; [exact W1|]. intros Hcal.
    destruct (sameDependencies_eq s s1 Hsame) as [Hrot Hc].
    rewrite Hc in Hcal.
    pose proof (handler_points e s s1 a1 Hh (B Hcal)) as Hall.
    eapply Forall_impl; [|exact Hall].
    intros p. now apply upToDate_same_rotation.
  - split; [now apply recalculateBearings_well_formed|].
    rewrite recalculateBearings_calibrated.
    apply recalculateBearings_upToDate.
Qed.

Lemma run_invariant (events : list Event) (s s' : State) (alerts : list string) :
  Invariant s -> run events s = Returns s' alerts -> Invariant s'.
Proof.
  revert s alerts. induction events as [|e rest IH]; intros s alerts Hinv Hrun.
  - injection Hrun as <- _. exact Hinv.
  - simpl in Hrun.
    destruct (dispatch e s) as [s1 a1|] eqn:Hd; [|discriminate].
    destruct (run rest s1) as [s2 a2|] eqn:Hr; [|discriminate].
    injection Hrun as <- _.
    eapply IH; [|exact Hr]. eapply dispatch_invariant; eassumption.
Qed.

(** Every reachable session satisfies the invariant. *)
Lemma reachable_invariant (s : State) : Reachable s -> Invariant s.
Proof.
  intros (events & alerts & Hrun).
  eapply run_invariant; [apply initialState_invariant | exact Hrun].
Qed.

(** In a reachable session waiting for the origin click, no origin is set. *)
Lemma reachable_set_origin_has_no_origin (s : State) :
  Reachable s -> appState s = SET_ORIGIN -> origin s = None.
Proof.
  intros Hr Hst. destruct (reachable_invariant s Hr) as [(_ & W2 & _) _].
  rewrite Hst in W2. now destruct (W2 eq_refl).
Qed.


(** In a reachable session whose origin is set and whose scale is neither 0
    nor NaN, every stored bearing is up to date; turning the reference
    direction by a non-zero delta then moves every stored bearing by -delta,
    up to whole turns. *)
Lemma reachable_rotation_shifts_bearings (s : State) (delta : R) :
  Reachable s -> calibrated s = true -> delta <> 0 ->
  Forall2
    (fun p p' => exists k : Z, bearing p' = bearing p - delta + 360 * IZR k)
    (points s)
    (points (rotateNorth (northRotation s + delta) s)).
Proof.
  intros Hr Hcal Hdelta.
  destruct (reachable_invariant s Hr) as [_ B]. specialize (B Hcal).
  unfold rotateNorth.
  destruct (Req_dec_T (northRotation s + delta) (northRotation s)) as [E|_];
    [exfalso; lra|].
  set (s1 := setNorthRotation (northRotation s + delta) s).
  assert (Hp1 : points s1 = points s) by (break_state s; reflexivity).
  assert (Hr1 : northRotation s1 = northRotation s + delta)
    by (break_state s; reflexivity).
  assert (Hc1 : calibrated s1 = true) by (break_state s; exact Hcal).
  destruct (points s) as [|p0 ps0] eqn:Epts.
  - rewrite recalculateBearings_no_points by exact Hp1. rewrite Hp1. constructor.
  - destruct (recalculateBearings_runs s1) as [Hpts _].
    { rewrite Hp1. discriminate. }
    { exact Hc1. }
    rewrite Hpts, Hp1, Hr1. clear - B.
    induction B as [|p ps Hp _ IH]; simpl; constructor; [|exact IH].
    simpl. rewrite Hp. apply bearing_shift.
Qed.

(** The compass drag of [dispatch] is [rotateNorth] at the dragged angle. *)
Lemma dispatch_compass_drag (s : State) (clientX clientY centerX centerY : R) :
  offered (CompassDrag clientX clientY centerX centerY) s = true ->
  dispatch (CompassDrag clientX clientY centerX centerY) s
  = Returns (rotateNorth (compassAngleDeg clientX clientY centerX centerY) s) [].
Proof.
  intros Hoff. unfold dispatch. rewrite Hoff. simpl handler. f_equal.
  unfold afterRender, rotateNorth, sameDependencies.
  set (r := compassAngleDeg clientX clientY centerX centerY).
  replace (northRotation (setNorthRotation r s)) with r
    by (break_state s; reflexivity).
  replace (origin (setNorthRotation r s)) with (origin s)
    by (break_state s; reflexivity).
  replace (pixelsPerMeter (setNorthRotation r s)) with (pixelsPerMeter s)
    by (break_state s; reflexivity).
  assert (Ho : match origin s, origin s with
               | None, None => true
               | Some a, Some b =>
                   (if Req_dec_T (pixel_x a) (pixel_x b) then true else false)
                   && (if Req_dec_T (pixel_y a) (pixel_y b) then true else false)
               | _, _ => false
               end = true).
  { destruct (origin s) as [o|]; [|reflexivity].
    destruct (Req_dec_T (pixel_x o) (pixel_x o)); [|contradiction].
    destruct (Req_dec_T (pixel_y o) (pixel_y o)); [reflexivity | contradiction]. }
  assert (Hp : match pixelsPerMeter s, pixelsPerMeter s with
               | None, None => true
               | Some a, Some b => sameNumber a b
               | _, _ => false
               end = true).
  { destruct (pixelsPerMeter s) as [[x| | |]|]; try reflexivity.
    simpl. destruct (Req_dec_T x x); [reflexivity | contradiction]. }
  rewrite Ho, Hp.
  destruct (Req_dec_T (northRotation s) r) as [E|E];
    destruct (Req_dec_T r (northRotation s)) as [E'|E']; simpl.
  - subst r. rewrite <- E. break_state s. reflexivity.
  - exfalso. apply E'. now symmetry.
  - exfalso. apply E. now symmetry.
  - reflexivity.
Qed.

(** In a reachable session waiting for the origin click the preview shows
    (0, 0) wherever the mouse is. *)
Lemma reachable_set_origin_preview_is_zero (s : State) (c : PixelCoords) :
  Reachable s -> appState s = SET_ORIGIN ->
  mouseRealCoords (handleImageMouseMove (Some c) s) = Some (mkRealCoords 0 0).
Proof.
  intros Hr Hst. unfold handleImageMouseMove. rewrite Hst.
  change (AppState_lt SET_ORIGIN READY) with false. cbv iota.
  rewrite (calculateRealCoords_unset s c)
    by (left; now apply reachable_set_origin_has_no_origin).
  break_state s. reflexivity.
Qed.

(** With fewer than 3 vertices the finish button is disabled: the event does
    not reach [handleFinishArea] and the render stays as it is. *)
Lemma finish_button_disabled_below_three (s : State) :
  (List.length (currentAreaPoints s) < 3)%nat ->
  dispatch FinishArea s = Returns s [].
Proof.
  intros Hlen. apply Nat.ltb_lt in Hlen.
  unfold dispatch, offered. rewrite Hlen.
  now rewrite andb_false_r.
Qed.

(** With no stored point the render after a handler changes nothing. *)
Lemma afterRender_no_points (prev next : State) :
  points next = [] -> afterRender prev next = next.
Proof.
  intros H. unfold afterRender.
  destruct (sameDependencies prev next); [reflexivity|].
  now apply recalculateBearings_no_points.
Qed.

Lemma dispatch_no_points (e : Event) (s s' : State) (alerts : list string) :
  offered e s = true -> handler e s = Returns s' alerts -> points s' = [] ->
  dispatch e s = Returns s' alerts.
Proof.
  intros Hoff Hh Hp. unfold dispatch. rewrite Hoff, Hh.
  now rewrite afterRender_no_points.
Qed.

(** The session of the scenario is reachable. *)
Lemma scenarioSession_reachable : Reachable scenarioSession.
Proof.
  exists [FileLoaded exampleImage;
          ImageClick (Some (mkPixelCoords 0 0));
          ImageClick (Some (mkPixelCoords 100 0));
          ImageClick (Some (mkPixelCoords 50 50))], [].
  cbn [run].
  rewrite (dispatch_no_points (FileLoaded exampleImage) initialState imageLoaded [])
    by reflexivity.
  rewrite (dispatch_no_points (ImageClick (Some (mkPixelCoords 0 0)))
             imageLoaded afterFirstClick []) by reflexivity.
  rewrite (dispatch_no_points (ImageClick (Some (mkPixelCoords 100 0)))
             afterFirstClick awaitingOrigin []);
    [|reflexivity | apply second_click_of_scenario | reflexivity].
  rewrite (dispatch_no_points (ImageClick (Some (mkPixelCoords 50 50)))
             awaitingOrigin scenarioSession []) by reflexivity.
  reflexivity.
Qed.

(** A handler that leaves the three dependencies alone is not followed by the
    effect. *)
Lemma afterRender_same (prev next : State) :
  northRotation next = northRotation prev ->
  origin next = origin prev ->
  pixelsPerMeter next = pixelsPerMeter prev ->
  afterRender prev next = next.
Proof.
  intros Hr Ho Hp. unfold afterRender, sameDependencies.
  rewrite Hr, Ho, Hp.
  destruct (Req_dec_T (northRotation prev) (northRotation prev)); [|contradiction].
  assert (E1 : match origin prev, origin prev with
               | None, None => true
               | Some a, Some b =>
                   (if Req_dec_T (pixel_x a) (pixel_x b) then true else false)
                   && (if Req_dec_T (pixel_y a) (pixel_y b) then true else false)
               | _, _ => false
               end = true).
  { destruct (origin prev) as [o|]; [|reflexivity].
    destruct (Req_dec_T (pixel_x o) (pixel_x o)); [|contradiction].
    destruct (Req_dec_T (pixel_y o) (pixel_y o)); [reflexivity | contradiction]. }
  assert (E2 : match pixelsPerMeter prev, pixelsPerMeter prev with
               | None, None => true
               | Some a, Some b => sameNumber a b
               | _, _ => false
               end = true).
  { destruct (pixelsPerMeter prev) as [[x| | |]|]; try reflexivity.
    simpl. destruct (Req_dec_T x x); [reflexivity | contradiction]. }
  rewrite E1, E2. reflexivity.
Qed.

Lemma dispatch_same (e : Event) (s s' : State) (alerts : list string) :
  offered e s = true -> handler e s = Returns s' alerts ->
  northRotation s' = northRotation s ->
  origin s' = origin s ->
  pixelsPerMeter s' = pixelsPerMeter s ->
  dispatch e s = Returns s' alerts.
Proof.
  intros Hoff Hh Hr Ho Hp. unfold dispatch. rewrite Hoff, Hh.
  now rewrite afterRender_same.
Qed.

Lemma run_app (ev1 ev2 : list Event) (s s1 : State) (a1 : list string) :
  run ev1 s = Returns s1 a1 ->
  run (ev1 ++ ev2) s
  = match run ev2 s1 with
    | Returns s2 a2 => Returns s2 (a1 ++ a2)
    | Throws error => Throws error
    end.
Proof.
  revert s a1. induction ev1 as [|e ev1 IH]; intros s a1 H.
  - injection H as <- <-. simpl. destruct (run ev2 s); reflexivity.
  - simpl in H. simpl.
    destruct (dispatch e s) as [t b|]; [|discriminate].
    destruct (run ev1 t) as [t' b'|] eqn:E; [|discriminate].
    injection H as <- <-.
    rewrite (IH t b' E).
    destruct (run ev2 t'); [|reflexivity].
    now rewrite app_assoc.
Qed.

(** One more event from a reachable session leads to a reachable session. *)
Lemma reachable_step (e : Event) (s s' : State) (alerts : list string) :
  Reachable s -> dispatch e s = Returns s' alerts -> Reachable s'.
Proof.
  intros (events & a & Hrun) Hd.
  exists (events ++ [e]), (a ++ (alerts ++ [])).
  rewrite (run_app events [e] initialState s a Hrun).
  simpl. rewrite Hd. reflexivity.
Qed.


(** The session with the degenerate calibration is reachable. *)
Lemma degenerateSession_reachable : Reachable degenerateSession.
Proof.
  assert (H0 : Reachable afterFirstClickAt5).
  { exists [FileLoaded exampleImage; ImageClick (Some (mkPixelCoords 5 5))], [].
    cbn [run].
    rewrite (dispatch_no_points (FileLoaded exampleImage) initialState imageLoaded [])
      by reflexivity.
    rewrite (dispatch_no_points (ImageClick (Some (mkPixelCoords 5 5)))
               imageLoaded afterFirstClickAt5 []) by reflexivity.
    reflexivity. }
  set (s1 := setAppState SET_ORIGIN
               (setCalibrationPoints [mkPixelCoords 5 5; mkPixelCoords 5 5]
                  (setPixelsPerMeter (Some (JS.Finite 0)) afterFirstClickAt5))).
  assert (H1 : Reachable s1).
  { apply (reachable_step (ImageClick (Some (mkPixelCoords 5 5)))
             afterFirstClickAt5 s1 [] H0).
    apply dispatch_no_points;
      [reflexivity | apply degenerate_second_click | reflexivity]. }
  set (s2 := setAppState READY (setOrigin (Some (mkPixelCoords 50 50)) s1)).
  assert (H2 : Reachable s2).
  { apply (reachable_step (ImageClick (Some (mkPixelCoords 50 50))) s1 s2 [] H1).
    apply dispatch_no_points; reflexivity. }
  set (s3 := setAppState NAMING_POINT
               (setNewPointName "Punto 1"
                  (setTempPoint (Some (mkPixelCoords 150 50)) s2))).
  assert (H3 : Reachable s3).
  { apply (reachable_step (ImageClick (Some (mkPixelCoords 150 50))) s2 s3 [] H2).
    apply dispatch_no_points; reflexivity. }
  subst s1 s2 s3.
  apply (reachable_step NamingSave _ _ [] H3).
  apply dispatch_same; try reflexivity.
  simpl handler. unfold handleSavePoint.
  cbn [tempPoint newPointName setAppState setCalibrationPoints
       setPixelsPerMeter afterFirstClickAt5 imageLoaded handleFileLoaded
       setImageSrc initialState
       setOrigin setTempPoint setNewPointName points List.length app].
  change (JS.trim "Punto 1") with "Punto 1"%string.
  cbv iota.
  rewrite degenerate_point_data by reflexivity.
  reflexivity.
Qed.

(** ** Further facts: angles *)

Lemma sin_period_Z (x : R) (k : Z) : sin (x + 2 * IZR k * PI) = sin x.
Proof.
  destruct k as [|p|p].
  - f_equal. simpl. ring.
  - rewrite <- (positive_nat_Z p), <- INR_IZR_INZ. apply sin_period.
  - rewrite <- (sin_period (x + 2 * IZR (Z.neg p) * PI) (Pos.to_nat p)).
    f_equal. change (Z.neg p) with (- Z.pos p)%Z.
    rewrite opp_IZR, <- (positive_nat_Z p), <- INR_IZR_INZ. ring.
Qed.

Lemma cos_period_Z (x : R) (k : Z) : cos (x + 2 * IZR k * PI) = cos x.
Proof.
  destruct k as [|p|p].
  - f_equal. simpl. ring.
  - rewrite <- (positive_nat_Z p), <- INR_IZR_INZ. apply cos_period.
  - rewrite <- (cos_period (x + 2 * IZR (Z.neg p) * PI) (Pos.to_nat p)).
    f_equal. change (Z.neg p) with (- Z.pos p)%Z.
    rewrite opp_IZR, <- (positive_nat_Z p), <- INR_IZR_INZ. ring.
Qed.

(** [Math.atan2] only sees the direction of the point. *)
Lemma atan2_scale (k y x : R) : 0 < k -> JS.atan2 (k * y) (k * x) = JS.atan2 y x.
Proof.
  intros Hk.
  destruct (total_order_T x 0) as [[Hx|Hx]|Hx].
  - assert (Hkx : k * x < 0) by nra.
    assert (Eq : k * y / (k * x) = y / x) by (field; lra).
    destruct (Rle_dec 0 y) as [Hy|Hy].
    + rewrite !JSFacts.atan2_neg_x_nonneg_y by nra. now rewrite Eq.
    + rewrite !JSFacts.atan2_neg_x_neg_y by nra. now rewrite Eq.
  - subst x. rewrite Rmult_0_r.
    destruct (total_order_T y 0) as [[Hy|Hy]|Hy].
    + rewrite !JSFacts.atan2_zero_x_neg_y by nra. reflexivity.
    + subst y. now rewrite Rmult_0_r.
    + rewrite !JSFacts.atan2_zero_x_pos_y by nra. reflexivity.
  - assert (Hkx : 0 < k * x) by nra.
    rewrite !JSFacts.atan2_pos_x by assumption.
    f_equal. field. lra.
Qed.

(** ** Further facts: the shoelace sum under affine maps *)

Lemma last_cons_any {A : Type} (l : list A) (x a b : A) :
  last (x :: l) a = last (x :: l) b.
Proof.
  revert x. induction l as [|y l IH]; intros x; [reflexivity|].
  change (last (x :: y :: l) a) with (last (y :: l) a).
  change (last (x :: y :: l) b) with (last (y :: l) b).
  apply IH.
Qed.

Lemma last_cons_default {A : Type} (l : list A) (a b : A) :
  last (b :: l) a = last l b.
Proof.
  destruct l as [|x l]; [reflexivity|].
  change (last (b :: x :: l) a) with (last (x :: l) a).
  apply last_cons_any.
Qed.

Lemma chain_map_affine {A : Type} (f g : A -> RealCoords) (h : A -> R) (c : R) :
  (forall p q, Shoelace.cross (f p) (f q)
               = c * Shoelace.cross (g p) (g q) + h p - h q) ->
  forall (l : list A) (a : A),
    Shoelace.chain (map f (a :: l))
    = c * Shoelace.chain (map g (a :: l)) + h a - h (last l a).
Proof.
  intros H l. induction l as [|b l IH]; intros a.
  - simpl. ring.
  - change (Shoelace.chain (map f (a :: b :: l)))
      with (Shoelace.cross (f a) (f b) + Shoelace.chain (map f (b :: l))).
    change (Shoelace.chain (map g (a :: b :: l)))
      with (Shoelace.cross (g a) (g b) + Shoelace.chain (map g (b :: l))).
    rewrite IH, H, last_cons_default. ring.
Qed.

Lemma closed_map_affine {A : Type} (f g : A -> RealCoords) (h : A -> R) (c : R) :
  (forall p q, Shoelace.cross (f p) (f q)
               = c * Shoelace.cross (g p) (g q) + h p - h q) ->
  forall l : list A, Shoelace.closed (map f l) = c * Shoelace.closed (map g l).
Proof.
  intros H l. unfold Shoelace.closed. destruct l as [|a l].
  - simpl. ring.
  - change (hd _ (map f (a :: l))) with (f a).
    change (hd _ (map g (a :: l))) with (g a).
    replace (map f (a :: l) ++ [f a]) with (map f (a :: (l ++ [a])))
      by (simpl; now rewrite map_app).
    replace (map g (a :: l) ++ [g a]) with (map g (a :: (l ++ [a])))
      by (simpl; now rewrite map_app).
    rewrite (chain_map_affine f g h c H).
    rewrite last_last. ring.
Qed.

Lemma area_map_affine {A : Type} (f g : A -> RealCoords) (h : A -> R) (c : R) :
  (forall p q, Shoelace.cross (f p) (f q)
               = c * Shoelace.cross (g p) (g q) + h p - h q) ->
  forall l : list A,
    calculatePolygonArea (map f l) = Rabs c * calculatePolygonArea (map g l).
Proof.
  intros H l. rewrite !ShoelaceFacts.calculatePolygonArea_closed, !length_map.
  destruct (List.length l <? 3)%nat; [ring|].
  rewrite (closed_map_affine f g h c H).
  replace (c * Shoelace.closed (map g l) / 2)
    with (c * (Shoelace.closed (map g l) / 2)) by (unfold Rdiv; ring).
  apply Rabs_mult.
Qed.

(** ** Further facts: distances and the coordinate transform *)

Lemma calculateDistance_sym (p q : PixelCoords) :
  calculateDistance p q = calculateDistance q p.
Proof. unfold calculateDistance, JS.pow2. f_equal. ring. Qed.

Lemma calculateDistance_zero (p q : PixelCoords) :
  calculateDistance p q = 0 -> p = q.
Proof.
  intros H. destruct p as [x1 y1], q as [x2 y2].
  destruct (Req_dec_T x1 x2) as [Ex|Ex]; [destruct (Req_dec_T y1 y2) as [Ey|Ey]|].
  - now subst.
  - exfalso. assert (mkPixelCoords x1 y1 <> mkPixelCoords x2 y2)
      by (intros E; injection E; intros; contradiction).
    pose proof (calculateDistance_pos _ _ H0). lra.
  - exfalso. assert (mkPixelCoords x1 y1 <> mkPixelCoords x2 y2)
      by (intros E; injection E; intros; contradiction).
    pose proof (calculateDistance_pos _ _ H0). lra.
Qed.

Lemma sqrt_sum_squares_scaled (a b k : R) :
  k <> 0 ->
  sqrt (a / k * (a / k) + b / k * (b / k)) = sqrt (a * a + b * b) / Rabs k.
Proof.
  intros Hk.
  assert (Hak : 0 < Rabs k) by now apply Rabs_pos_lt.
  assert (Hs : 0 <= sqrt (a * a + b * b)) by apply sqrt_pos.
  apply sqrt_lem_1.
  - pose proof (Rle_0_sqr (a / k)). pose proof (Rle_0_sqr (b / k)).
    unfold Rsqr in *. lra.
  - apply Rmult_le_pos; [exact Hs | left; now apply Rinv_0_lt_compat].
  - assert (Hsq : sqrt (a * a + b * b) * sqrt (a * a + b * b) = a * a + b * b).
    { apply sqrt_sqrt. pose proof (Rle_0_sqr a). pose proof (Rle_0_sqr b).
      unfold Rsqr in *. lra. }
    assert (Hkk : Rabs k * Rabs k = k * k).
    { unfold Rabs. destruct (Rcase_abs k); ring. }
    assert (Hnz : Rabs k <> 0) by lra.
    replace (sqrt (a * a + b * b) / Rabs k * (sqrt (a * a + b * b) / Rabs k))
      with ((sqrt (a * a + b * b) * sqrt (a * a + b * b)) / (Rabs k * Rabs k))
      by (field; exact Hnz).
    rewrite Hsq, Hkk. field. exact Hk.
Qed.

(** The real coordinates for a finite scale other than 0. *)
Lemma calculateRealCoords_finite (s : State) (o p : PixelCoords) (scale : R) :
  origin s = Some o -> pixelsPerMeter s = Some (JS.Finite scale) -> scale <> 0 ->
  calculateRealCoords s p
  = mkRealCoords ((pixel_x p - pixel_x o) / scale) ((pixel_y o - pixel_y p) / scale).
Proof.
  intros Ho Hs Hnz. unfold calculateRealCoords. rewrite Ho, Hs.
  rewrite truthy_finite by exact Hnz. reflexivity.
Qed.

(** The real coordinates for the scales that collapse the map. *)
Lemma calculateRealCoords_collapsed (s : State) (p : PixelCoords) :
  pixelsPerMeter s = Some (JS.Finite 0) \/ pixelsPerMeter s = Some JS.NaN
  \/ pixelsPerMeter s = Some JS.PosInfinity
  \/ pixelsPerMeter s = Some JS.NegInfinity ->
  calculateRealCoords s p = mkRealCoords 0 0.
Proof.
  unfold calculateRealCoords.
  intros [H|[H|[H|H]]]; rewrite H; destruct (origin s); try reflexivity.
  now rewrite truthy_zero.
Qed.

Lemma distance_of_real_coords (rc : RealCoords) (rotation : R) :
  db_distance (calculateDistanceAndBearing rc rotation)
  = sqrt (real_x rc * real_x rc + real_y rc * real_y rc).
Proof. reflexivity. Qed.

Lemma pointData_distance (s : State) (o p : PixelCoords) (scale : R) :
  origin s = Some o -> pixelsPerMeter s = Some (JS.Finite scale) -> scale <> 0 ->
  pd_distance (calculatePointData s p) = calculateDistance o p / Rabs scale.
Proof.
  intros Ho Hs Hnz.
  unfold calculatePointData. cbn [pd_distance].
  rewrite distance_of_real_coords.
  rewrite (calculateRealCoords_finite s o p scale Ho Hs Hnz). cbn [real_x real_y].
  rewrite sqrt_sum_squares_scaled by exact Hnz.
  unfold calculateDistance, JS.pow2. do 2 f_equal. ring.
Qed.

(** ** Further facts: what the sessions store *)

Lemma Consistent_frame (s s1 : State) (p : Point) :
  Consistent s p ->
  origin s1 = origin s -> pixelsPerMeter s1 = pixelsPerMeter s ->
  Consistent s1 p.
Proof.
  intros [Hr Hd] Ho Hp. split.
  - rewrite Hr. unfold calculateRealCoords. now rewrite Ho, Hp.
  - exact Hd.
Qed.

Lemma points_frame (s s1 : State) (l : list Point) :
  Forall (fun p => Consistent s p /\ name p <> EmptyString) l ->
  origin s1 = origin s -> pixelsPerMeter s1 = pixelsPerMeter s ->
  Forall (fun p => Consistent s1 p /\ name p <> EmptyString) l.
Proof.
  intros H Ho Hp. eapply Forall_impl; [|exact H].
  intros p [Hc Hn]. split; [now apply (Consistent_frame s) | exact Hn].
Qed.

Lemma vertices_frame (s s1 : State) (l : list Point) :
  Forall (Consistent s) l ->
  origin s1 = origin s -> pixelsPerMeter s1 = pixelsPerMeter s ->
  Forall (Consistent s1) l.
Proof.
  intros H Ho Hp. eapply Forall_impl; [|exact H].
  intros p Hc. now apply (Consistent_frame s).
Qed.

Lemma areas_frame (s s1 : State) (l : list Area) :
  Forall (SoundArea s) l ->
  origin s1 = origin s -> pixelsPerMeter s1 = pixelsPerMeter s ->
  Forall (SoundArea s1) l.
Proof.
  intros H Ho Hp. eapply Forall_impl; [|exact H].
  intros a (Hn & Hl & Ha & Hc). repeat split; auto.
  now apply (vertices_frame s).
Qed.

Lemma Numbered_nil : Numbered [].
Proof. intros i p H. destruct i; discriminate. Qed.

Lemma Numbered_snoc (l : list Point) (p : Point) :
  Numbered l ->
  name p = ("V" ++ JS.nat_to_string (List.length l + 1))%string ->
  Numbered (l ++ [p]).
Proof.
  intros Hl Hp i q Hq.
  destruct (Nat.lt_ge_cases i (List.length l)) as [Hlt|Hge].
  - rewrite nth_error_app1 in Hq by exact Hlt. now apply Hl.
  - rewrite nth_error_app2 in Hq by exact Hge.
    destruct (i - List.length l)%nat as [|k] eqn:E.
    + injection Hq as <-. rewrite Hp. do 2 f_equal. lia.
    + destruct k; discriminate.
Qed.

Lemma initialState_stored : Stored initialState.
Proof.
  unfold Stored. simpl.
  repeat split; intros; try discriminate; try constructor.
  apply Numbered_nil.
Qed.

Lemma Forall_remove_at {A : Type} (P : A -> Prop) (i : nat) (l : list A) :
  Forall P l -> Forall P (firstn i l ++ skipn (S i) l).
Proof.
  intros H. apply Forall_app. split;
    [now apply Forall_firstn_of | now apply Forall_skipn_of].
Qed.

Lemma Forall_replace_at {A : Type} (P : A -> Prop) (i : nat) (l : list A) (x : A) :
  Forall P l -> P x -> Forall P (firstn i l ++ x :: skipn (S i) l).
Proof.
  intros H Hx. apply Forall_app. split; [now apply Forall_firstn_of|].
  constructor; [exact Hx | now apply Forall_skipn_of].
Qed.

Lemma Consistent_renamed (s s1 : State) (p : Point) (newName : string) :
  Consistent s p ->
  origin s1 = origin s -> pixelsPerMeter s1 = pixelsPerMeter s ->
  Consistent s1
    {| name := newName; pixelCoords := pixelCoords p; realCoords := realCoords p;
       distance := distance p; bearing := bearing p |}.
Proof.
  intros Hc Ho Hp. destruct (Consistent_frame s s1 p Hc Ho Hp) as [Hr Hd].
  split; assumption.
Qed.

Lemma Forall_nth_error {A : Type} (P : A -> Prop) (l : list A) (i : nat) (x : A) :
  Forall P l -> nth_error l i = Some x -> P x.
Proof.
  intros H E. rewrite Forall_forall in H. apply H. eapply nth_error_In. exact E.
Qed.

Ltac frame_lists :=
  first
    [ assumption
    | apply Numbered_nil
    | constructor; fail
    | eapply points_frame; [eassumption | reflexivity | reflexivity]
    | eapply vertices_frame; [eassumption | reflexivity | reflexivity]
    | eapply areas_frame; [eassumption | reflexivity | reflexivity]
    | apply Forall_remove_at;
      first [ eapply points_frame; [eassumption | reflexivity | reflexivity]
            | eapply areas_frame; [eassumption | reflexivity | reflexivity] ] ].

Lemma handler_stored (e : Event) (s s1 : State) (alerts : list string) :
  WellFormed s -> Stored s -> offered e s = true ->
  handler e s = Returns s1 alerts -> Stored s1.
Proof.
  intros (W1 & W2 & W3 & W4 & W5) (S1 & S2 & S3 & S4 & S5 & S6 & S7 & S8) Hoff Hh.
  break_state s. unfold Stored.
  destruct e; unfold_handlers.
  all: destruct st; cbn -[skipn firstn] in *; try discriminate.
  all: destruct img; cbn -[skipn firstn] in *; try discriminate.
  all: try (specialize (W2 eq_refl); destruct W2 as [? ?]).
  all: try specialize (S1 eq_refl).
  all: try (specialize (S2 ltac:(discriminate) ltac:(discriminate))).
  all: try specialize (S3 eq_refl).
  all: try specialize (S4 eq_refl).
  all: subst.
  all: break_match_in Hh; try discriminate.
  all: try match goal with
           | H : nth_error [] ?n = Some _ |- _ => destruct n; discriminate H
           end.
  all: injection Hh as <- _; cbn -[skipn firstn]; rewrite ?firstn_nil;
       cbn -[skipn firstn].
  all: repeat match goal with |- _ /\ _ => split end.
  all: intros; try discriminate; try congruence; try frame_lists.
  all: try (apply Nat.ltb_ge; assumption).
  all: try (apply Numbered_snoc; [assumption | reflexivity]).
  all: try (apply Forall_app; split;
            [frame_lists
            | constructor; [|constructor];
              first [ split; [split; reflexivity | discriminate]
                    | split; reflexivity
                    | repeat split;
                      [discriminate | apply Nat.ltb_ge; assumption | frame_lists] ] ]).
  all: try (apply Forall_replace_at; [frame_lists|]).
  all: try match goal with
           | H : nth_error ?l ?n = Some ?p,
             F : Forall (fun q => Consistent _ q /\ _) ?l |- _ /\ _ =>
               destruct (Forall_nth_error _ _ _ _ F H) as [Hc Hn];
               split;
               [eapply Consistent_renamed; [exact Hc | reflexivity | reflexivity]
               | discriminate]
           | H : nth_error ?l ?n = Some ?a,
             F : Forall (SoundArea _) ?l |- SoundArea _ _ =>
               destruct (Forall_nth_error _ _ _ _ F H) as (Hn & Hl & Ha & Hc);
               repeat split;
               [discriminate | exact Hl | exact Ha
               | eapply vertices_frame; [exact Hc | reflexivity | reflexivity]]
           end.
Qed.

Lemma recalculateBearings_stored (s : State) :
  Stored s -> Stored (recalculateBearings s).
Proof.
  intros St. unfold recalculateBearings.
  destruct (_ || _); [exact St|].
  destruct St as (S1 & S2 & S3 & S4 & S5 & S6 & S7 & S8).
  break_state s. unfold Stored. cbn in *.
  repeat match goal with |- _ /\ _ => split end; try assumption.
  apply Forall_map. eapply Forall_impl; [|exact S5].
  intros p [Hc Hn]. cbn. split; [|exact Hn].
  destruct Hc as [Hr Hd]. split; assumption.
Qed.

Lemma dispatch_stored (e : Event) (s s' : State) (alerts : list string) :
  Invariant s -> Stored s -> dispatch e s = Returns s' alerts -> Stored s'.
Proof.
  intros [W _] St Hd. unfold dispatch in Hd.
  destruct (offered e s) eqn:Hoff; [|injection Hd as <- _; exact St].
  destruct (handler e s) as [s1 a1|] eqn:Hh; [|discriminate].
  injection Hd as <- _.
  pose proof (handler_stored e s s1 a1 W St Hoff Hh) as St1.
  unfold afterRender. destruct (sameDependencies s s1); [exact St1|].
  now apply recalculateBearings_stored.
Qed.

Lemma run_stored (events : list Event) (s s' : State) (alerts : list string) :
  Invariant s -> Stored s -> run events s = Returns s' alerts -> Stored s'.
Proof.
  revert s alerts. induction events as [|e rest IH]; intros s alerts Hinv St Hrun.
  - injection Hrun as <- _. exact St.
  - simpl in Hrun.
    destruct (dispatch e s) as [s1 a1|] eqn:Hd; [|discriminate].
    destruct (run rest s1) as [s2 a2|] eqn:Hr; [|discriminate].
    injection Hrun as <- _.
    eapply IH; [| |exact Hr].
    + eapply dispatch_invariant; eassumption.
    + eapply dispatch_stored; eassumption.
Qed.

Lemma reachable_stored (s : State) : Reachable s -> Stored s.
Proof.
  intros (events & alerts & Hrun).
  eapply run_stored;
    [apply initialState_invariant | apply initialState_stored | exact Hrun].
Qed.

(** ** Further facts: trimming and filtering *)

Lemma trim_start_blank (s : string) : blank s = true -> JS.trim_start s = EmptyString.
Proof.
  induction s as [|c s IH]; [reflexivity|]. simpl.
  destruct (JS.is_white_space c); [exact IH | discriminate].
Qed.

Lemma trim_start_not_blank (s : string) :
  blank s = false ->
  exists c s', JS.trim_start s = String c s' /\ JS.is_white_space c = false.
Proof.
  induction s as [|c s IH]; [discriminate|]. simpl.
  destruct (JS.is_white_space c) eqn:E; [exact IH|].
  intros _. exists c, s. split; [reflexivity | exact E].
Qed.

Lemma trim_end_head_kept (c : ascii) (s : string) :
  JS.is_white_space c = false -> JS.trim_end (String c s) <> EmptyString.
Proof.
  intros E. simpl. rewrite E. destruct (JS.trim_end s); discriminate.
Qed.

(** [trim] leaves nothing exactly of the strings made of white space. *)
Lemma trim_empty_iff_blank (s : string) :
  JS.trim s = EmptyString <-> blank s = true.
Proof.
  unfold JS.trim. split.
  - intros H. destruct (blank s) eqn:B; [reflexivity|].
    destruct (trim_start_not_blank s B) as (c & s' & E & Hc).
    rewrite E in H. now apply trim_end_head_kept in H.
  - intros B. now rewrite trim_start_blank.
Qed.

Lemma filterFrom_remove {A : Type} (index i : nat) (l : list A) :
  filterFrom (fun _ j => negb (j =? index)%nat) i l
  = if (index <? i)%nat then l
    else firstn (index - i) l ++ skipn (S (index - i)) l.
Proof.
  revert i. induction l as [|x l IH]; intros i.
  - simpl. destruct (index <? i)%nat; [reflexivity|].
    now rewrite firstn_nil.
  - simpl. rewrite IH.
    destruct (i =? index)%nat eqn:E.
    + apply Nat.eqb_eq in E. subst i. simpl.
      rewrite (proj2 (Nat.ltb_lt index (S index))) by lia.
      rewrite (proj2 (Nat.ltb_ge index index)) by lia.
      now rewrite Nat.sub_diag.
    + apply Nat.eqb_neq in E. simpl.
      destruct (index <? i)%nat eqn:L.
      * apply Nat.ltb_lt in L.
        now rewrite (proj2 (Nat.ltb_lt index (S i))) by lia.
      * apply Nat.ltb_ge in L.
        rewrite (proj2 (Nat.ltb_ge index (S i))) by lia.
        replace (index - i)%nat with (S (index - S i)) by lia.
        reflexivity.
Qed.

(** The list that [handleDeletePoint] stores is the one the filter of the
    source gives. *)
Lemma remove_at_is_filter {A : Type} (index : nat) (l : list A) :
  firstn index l ++ skipn (S index) l = filterOutIndex index l.
Proof.
  unfold filterOutIndex, Array_filter. rewrite filterFrom_remove.
  simpl. now rewrite Nat.sub_0_r.
Qed.

(** ** Further facts: more reachable sessions *)

Lemma reachable_by (e : Event) (s s1 : State) (alerts : list string) :
  Reachable s -> offered e s = true -> handler e s = Returns s1 alerts ->
  northRotation s1 = northRotation s ->
  origin s1 = origin s ->
  pixelsPerMeter s1 = pixelsPerMeter s ->
  Reachable s1.
Proof.
  intros Hr Hoff Hh H1 H2 H3.
  apply (reachable_step e s s1 alerts Hr).
  now apply dispatch_same.
Qed.

Lemma namingFirstPoint_reachable : Reachable namingFirstPoint.
Proof.
  apply (reachable_by (ImageClick (Some (mkPixelCoords 150 50)))
           scenarioSession _ [] scenarioSession_reachable); reflexivity.
Qed.

Lemma triangleInProgress_reachable : Reachable triangleInProgress.
Proof.
  pose proof scenarioSession_reachable as H0.
  assert (H1 : Reachable (handleStartAreaMode scenarioSession))
    by (apply (reachable_by StartArea scenarioSession _ [] H0); reflexivity).
  set (s1 := setCurrentAreaPoints [vertexAt "V1" (mkPixelCoords 50 50)]
               (handleStartAreaMode scenarioSession)).
  assert (H2 : Reachable s1)
    by (apply (reachable_by (ImageClick (Some (mkPixelCoords 50 50)))
                 (handleStartAreaMode scenarioSession) _ [] H1); reflexivity).
  set (s2 := setCurrentAreaPoints
               [vertexAt "V1" (mkPixelCoords 50 50);
                vertexAt "V2" (mkPixelCoords 150 50)] s1).
  assert (H3 : Reachable s2)
    by (apply (reachable_by (ImageClick (Some (mkPixelCoords 150 50)))
                 s1 _ [] H2); reflexivity).
  apply (reachable_by (ImageClick (Some (mkPixelCoords 150 150))) s2 _ [] H3);
    reflexivity.
Qed.

Lemma namingTriangle_reachable : Reachable namingTriangle.
Proof.
  apply (reachable_by FinishArea triangleInProgress _ []
           triangleInProgress_reachable); reflexivity.
Qed.


(** ** Further facts: areas on the image *)


(** The area of the real positions of a list of pixels, for a finite scale
    other than 0. *)
Lemma polygon_area_of_pixels
  (s : State) (o : PixelCoords) (scale : R) (pixels : list PixelCoords) :
  origin s = Some o -> pixelsPerMeter s = Some (JS.Finite scale) -> scale <> 0 ->
  calculatePolygonArea (map (calculateRealCoords s) pixels)
  = calculatePolygonArea
      (map (fun p => mkRealCoords (pixel_x p) (pixel_y p)) pixels)
    / (scale * scale).
Proof.
  intros Ho Hs Hnz.
  rewrite (map_ext (calculateRealCoords s)
             (fun p => mkRealCoords ((pixel_x p - pixel_x o) / scale)
                         ((pixel_y o - pixel_y p) / scale)))
    by (intros p; apply (calculateRealCoords_finite s o p scale Ho Hs Hnz)).
  rewrite (area_map_affine
             (fun p => mkRealCoords ((pixel_x p - pixel_x o) / scale)
                         ((pixel_y o - pixel_y p) / scale))
             (fun p => mkRealCoords (pixel_x p) (pixel_y p))
             (fun p => (pixel_y o * pixel_x p - pixel_x o * pixel_y p)
                       / (scale * scale))
             (- / (scale * scale))).
  - rewrite Rabs_Ropp, Rabs_pos_eq.
    + unfold Rdiv. ring.
    + left. apply Rinv_0_lt_compat. apply Rsqr_pos_lt in Hnz. exact Hnz.
  - intros p q. unfold Shoelace.cross. simpl. field. exact Hnz.
Qed.


(** ** Further facts: what a render leaves alone *)

(** The bearing effect touches the point list only. *)
Lemma recalculateBearings_frame (s : State) :
  appState (recalculateBearings s) = appState s
  /\ origin (recalculateBearings s) = origin s
  /\ pixelsPerMeter (recalculateBearings s) = pixelsPerMeter s
  /\ northRotation (recalculateBearings s) = northRotation s
  /\ knownDistance (recalculateBearings s) = knownDistance s
  /\ calibrationPoints (recalculateBearings s) = calibrationPoints s
  /\ areas (recalculateBearings s) = areas s
  /\ currentAreaPoints (recalculateBearings s) = currentAreaPoints s.
Proof.
  unfold recalculateBearings.
  destruct (_ || _); [repeat split|]. break_state s. repeat split.
Qed.

Lemma afterRender_frame (prev next : State) :
  appState (afterRender prev next) = appState next
  /\ origin (afterRender prev next) = origin next
  /\ pixelsPerMeter (afterRender prev next) = pixelsPerMeter next
  /\ northRotation (afterRender prev next) = northRotation next
  /\ knownDistance (afterRender prev next) = knownDistance next
  /\ calibrationPoints (afterRender prev next) = calibrationPoints next
  /\ areas (afterRender prev next) = areas next
  /\ currentAreaPoints (afterRender prev next) = currentAreaPoints next.
Proof.
  unfold afterRender.
  destruct (sameDependencies prev next); [repeat split|].
  apply recalculateBearings_frame.
Qed.


(** Only the compass drag and the reset set the reference direction. *)
Lemma handler_keeps_rotation (e : Event) (s s1 : State) (alerts : list string) :
  handler e s = Returns s1 alerts ->
  e <> ResetClick -> (forall x y cx cy, e <> CompassDrag x y cx cy) ->
  northRotation s1 = northRotation s.
Proof.
  intros Hh Hne Hnc.
  break_state s.
  destruct e; try congruence; unfold_handlers.
  all: try (exfalso; eapply Hnc; reflexivity).
  all: break_match_in Hh; try discriminate.
  all: injection Hh as <- _; reflexivity.
Qed.

(** ** Further facts: the default names *)

Lemma trim_end_digits (d : Decimal.uint) :
  JS.trim_end (NilEmpty.string_of_uint d) = NilEmpty.string_of_uint d.
Proof.
  induction d as [|d IH|d IH|d IH|d IH|d IH|d IH|d IH|d IH|d IH|d IH];
    [reflexivity | ..];
    cbn [NilEmpty.string_of_uint JS.trim_end]; rewrite IH;
    destruct (NilEmpty.string_of_uint d); reflexivity.
Qed.

Lemma nat_to_string_not_empty (n : nat) : JS.nat_to_string n <> EmptyString.
Proof.
  unfold JS.nat_to_string.
  assert (H : Nat.to_uint n <> Decimal.Nil).
  { rewrite <- (DecimalNat.Unsigned.of_to n) at 1.
    rewrite DecimalNat.Unsigned.to_of. apply DecimalFacts.unorm_nonnil. }
  destruct (Nat.to_uint n); [contradiction | ..]; discriminate.
Qed.

Lemma trim_end_before_number (s : string) (n : nat) :
  JS.trim_end (s ++ JS.nat_to_string n) = (s ++ JS.nat_to_string n)%string.
Proof.
  induction s as [|c s IH].
  - apply trim_end_digits.
  - cbn [append JS.trim_end]. rewrite IH.
    destruct (s ++ JS.nat_to_string n)%string eqn:E; [|reflexivity].
    exfalso. destruct s; [|discriminate E].
    exact (nat_to_string_not_empty n E).
Qed.

(** The default name of a point is stored as it is. *)
Lemma trim_default_point_name (n : nat) :
  JS.trim ("Punto " ++ JS.nat_to_string n) = ("Punto " ++ JS.nat_to_string n)%string.
Proof.
  unfold JS.trim. change (JS.trim_start ("Punto " ++ JS.nat_to_string n))
    with ("Punto " ++ JS.nat_to_string n)%string.
  apply trim_end_before_number.
Qed.

Lemma trim_default_area_name (n : nat) :
  JS.trim ("Area " ++ JS.nat_to_string n) = ("Area " ++ JS.nat_to_string n)%string.
Proof.
  unfold JS.trim. change (JS.trim_start ("Area " ++ JS.nat_to_string n))
    with ("Area " ++ JS.nat_to_string n)%string.
  apply trim_end_before_number.
Qed.

Lemma filterOutIndex_nth {A : Type} (index i : nat) (l : list A) :
  nth_error (filterOutIndex index l) i
  = if (i <? index)%nat then nth_error l i else nth_error l (S i).
Proof.
  rewrite <- remove_at_is_filter.
  destruct (i <? index)%nat eqn:E.
  - apply Nat.ltb_lt in E.
    destruct (Nat.lt_ge_cases i (List.length l)) as [L|L].
    + rewrite nth_error_app1 by (rewrite length_firstn; lia).
      now rewrite nth_error_firstn, (proj2 (Nat.ltb_lt i index) E).
    + rewrite (proj2 (nth_error_None l i) L).
      apply nth_error_None.
      rewrite length_app, length_firstn, length_skipn. lia.
  - apply Nat.ltb_ge in E.
    destruct (Nat.lt_ge_cases index (List.length l)) as [L|L].
    + rewrite nth_error_app2 by (rewrite length_firstn; lia).
      rewrite length_firstn, nth_error_skipn.
      f_equal. lia.
    + rewrite (proj2 (nth_error_None l (S i))) by lia.
      apply nth_error_None.
      rewrite length_app, length_firstn, length_skipn. lia.
Qed.

Lemma filterOutIndex_length {A : Type} (index : nat) (l : list A) :
  List.length (filterOutIndex index l)
  = if (index <? List.length l)%nat then (List.length l - 1)%nat else List.length l.
Proof.
  rewrite <- remove_at_is_filter.
  rewrite length_app, length_firstn, length_skipn.
  destruct (index <? List.length l)%nat eqn:E.
  - apply Nat.ltb_lt in E. lia.
  - apply Nat.ltb_ge in E. lia.
Qed.

(** ** Further facts: the loops of the grid *)

(** The ticks of an ascending loop that has run [n] times. *)
Lemma ticks_shift (i step : R) (n : nat) :
  i :: map (fun k => i + step + INR k * step) (seq 0 n)
  = map (fun k => i + INR k * step) (seq 0 (S n)).
Proof.
  cbn [seq map]. f_equal; [simpl; ring|].
  rewrite <- seq_shift, map_map. apply map_ext.
  intros k. rewrite S_INR. ring.
Qed.

(** An ascending loop with a positive step ends, after a number of rounds
    that the distance to the limit bounds. *)
Lemma ticksBelow_bounded (limit step : R) (m : nat) :
  0 < step -> forall i, limit - i <= INR m * step ->
  exists n,
    (forall fuel, (n < fuel)%nat ->
       ticksBelow fuel i limit step
       = Some (map (fun k => i + INR k * step) (seq 0 n)))
    /\ (forall k, (k < n)%nat -> i + INR k * step < limit)
    /\ limit <= i + INR n * step.
Proof.
  intros Hstep. induction m as [|m IH]; intros i Hm.
  - exists 0%nat. simpl in Hm. split; [|split].
    + intros [|fuel] Hf; [lia|]. simpl.
      destruct (Rlt_dec i limit); [lra | reflexivity].
    + intros k Hk. lia.
    + simpl. lra.
  - destruct (Rlt_dec i limit) as [Hlt|Hge].
    + destruct (IH (i + step)) as (n & H1 & H2 & H3).
      { rewrite S_INR in Hm. lra. }
      exists (S n). split; [|split].
      * intros [|fuel] Hf; [lia|]. simpl ticksBelow.
        destruct (Rlt_dec i limit); [|contradiction].
        rewrite H1 by lia. now rewrite ticks_shift.
      * intros [|k] Hk; [simpl; lra|].
        specialize (H2 k ltac:(lia)). rewrite S_INR. lra.
      * rewrite S_INR. lra.
    + exists 0%nat. split; [|split].
      * intros [|fuel] Hf; [lia|]. simpl.
        destruct (Rlt_dec i limit); [contradiction | reflexivity].
      * intros k Hk. lia.
      * simpl. lra.
Qed.

Lemma nat_above (r : R) : exists m : nat, r <= INR m.
Proof.
  destruct (archimed r) as [Hup _].
  exists (Z.to_nat (Z.max 0 (up r))).
  rewrite INR_IZR_INZ, Z2Nat.id by lia.
  apply Rle_trans with (IZR (up r)); [lra|].
  apply IZR_le. lia.
Qed.

(** What an ascending loop with a positive step leaves: the values
    [i + k * step] below the limit, and no other. *)
Lemma ticksBelow_ends (i limit step : R) :
  0 < step ->
  exists fuel ticks,
    (forall fuel', (fuel <= fuel')%nat ->
       ticksBelow fuel' i limit step = Some ticks)
    /\ (forall t, In t ticks <->
          exists k : nat, t = i + INR k * step /\ t < limit).
Proof.
  intros Hstep.
  destruct (nat_above ((limit - i) / step)) as [m Hm].
  destruct (ticksBelow_bounded limit step m Hstep i) as (n & H1 & H2 & H3).
  { apply (Rmult_le_compat_r step) in Hm; [|lra].
    unfold Rdiv in Hm. rewrite Rmult_assoc, Rinv_l, Rmult_1_r in Hm by lra.
    exact Hm. }
  exists (S n), (map (fun k => i + INR k * step) (seq 0 n)).
  split; [intros fuel' Hf; apply H1; lia|].
  intros t. rewrite in_map_iff. split.
  - intros (k & <- & Hk). apply in_seq in Hk.
    exists k. split; [reflexivity | apply H2; lia].
  - intros (k & -> & Hlt). exists k. split; [reflexivity|].
    apply in_seq. split; [lia|]. simpl.
    destruct (Nat.lt_ge_cases k n) as [L|L]; [exact L|].
    exfalso. apply le_INR in L.
    assert (INR n * step <= INR k * step)
      by (apply Rmult_le_compat_r; lra).
    lra.
Qed.

(** A descending loop is the mirror image of an ascending one. *)
Lemma ticksAbove_mirror (fuel : nat) (i limit step : R) :
  ticksAbove fuel i limit step
  = option_map (map Ropp) (ticksBelow fuel (- i) (- limit) step).
Proof.
  revert i. induction fuel as [|fuel IH]; intros i; [reflexivity|].
  simpl. destruct (Rgt_dec i limit) as [H|H];
    destruct (Rlt_dec (- i) (- limit)) as [H'|H']; try (exfalso; lra).
  - rewrite IH. replace (- (i - step)) with (- i + step) by ring.
    destruct (ticksBelow fuel (- i + step) (- limit) step); simpl;
      [|reflexivity].
    now rewrite Ropp_involutive.
  - reflexivity.
Qed.

Lemma ticksAbove_ends (i limit step : R) :
  0 < step ->
  exists fuel ticks,
    (forall fuel', (fuel <= fuel')%nat ->
       ticksAbove fuel' i limit step = Some ticks)
    /\ (forall t, In t ticks <->
          exists k : nat, t = i - INR k * step /\ t > limit).
Proof.
  intros Hstep.
  destruct (ticksBelow_ends (- i) (- limit) step Hstep) as (fuel & ticks & H1 & H2).
  exists fuel, (map Ropp ticks). split.
  - intros fuel' Hf. rewrite ticksAbove_mirror, (H1 fuel' Hf). reflexivity.
  - intros t. rewrite in_map_iff. split.
    + intros (u & <- & Hu). apply H2 in Hu. destruct Hu as (k & -> & Hlt).
      exists k. split; [ring | lra].
    + intros (k & -> & Hgt). exists (- (i - INR k * step)).
      split; [ring|]. apply H2. exists k. split; [ring | lra].
Qed.

(** A loop whose step goes the wrong way never ends once it has started. *)
Lemma ticksBelow_diverges (limit step : R) :
  step <= 0 -> forall fuel i, i < limit -> ticksBelow fuel i limit step = None.
Proof.
  intros Hstep. induction fuel as [|fuel IH]; intros i Hi; [reflexivity|].
  simpl. destruct (Rlt_dec i limit); [|contradiction].
  rewrite IH by lra. reflexivity.
Qed.

(** The marks of the loops of the grid, which start one step away from the
    origin. *)
Lemma marksBelow (a limit step : R) :
  0 < step ->
  exists fuel ticks,
    (forall fuel', (fuel <= fuel')%nat ->
       ticksBelow fuel' (a + step) limit step = Some ticks)
    /\ (forall t, In t ticks <->
          exists k : nat, (1 <= k)%nat /\ t = a + INR k * step /\ t < limit).
Proof.
  intros Hstep.
  destruct (ticksBelow_ends (a + step) limit step Hstep) as (fuel & ticks & H1 & H2).
  exists fuel, ticks. split; [exact H1|].
  intros t. rewrite H2. split.
  - intros (k & E & H). exists (S k). split; [lia|]. split; [|exact H].
    rewrite S_INR, E. ring.
  - intros (k & Hk & E & H). destruct k as [|k]; [lia|].
    exists k. split; [|exact H]. rewrite S_INR in E. rewrite E. ring.
Qed.

Lemma marksAbove (a limit step : R) :
  0 < step ->
  exists fuel ticks,
    (forall fuel', (fuel <= fuel')%nat ->
       ticksAbove fuel' (a - step) limit step = Some ticks)
    /\ (forall t, In t ticks <->
          exists k : nat, (1 <= k)%nat /\ t = a - INR k * step /\ t > limit).
Proof.
  intros Hstep.
  destruct (ticksAbove_ends (a - step) limit step Hstep) as (fuel & ticks & H1 & H2).
  exists fuel, ticks. split; [exact H1|].
  intros t. rewrite H2. split.
  - intros (k & E & H). exists (S k). split; [lia|]. split; [|exact H].
    rewrite S_INR, E. ring.
  - intros (k & Hk & E & H). destruct k as [|k]; [lia|].
    exists k. split; [|exact H]. rewrite S_INR in E. rewrite E. ring.
Qed.

(** ** Facts about the specification's modulus *)

Lemma spec_mod360_range (x : R) : 0 <= spec_mod360 x < 360.
Proof.
  unfold spec_mod360.
  destruct (base_Int_part (x / 360)) as [Hlo Hhi].
  replace x with (x / 360 * 360) at 1 3 by field.
  lra.
Qed.

Lemma spec_mod360_turns (x : R) : exists k : Z, spec_mod360 x = x - 360 * IZR k.
Proof. unfold spec_mod360. eauto. Qed.

(** The number of [0, 360) a whole number of turns away from [x] is one. *)
Lemma spec_mod360_unique (x y : R) (k : Z) :
  0 <= y < 360 -> y = x - 360 * IZR k -> y = spec_mod360 x.
Proof.
  intros Hy E.
  destruct (spec_mod360_range x) as [H1 H2].
  destruct (spec_mod360_turns x) as [j Ej].
  assert (Hd : y - spec_mod360 x = 360 * IZR (j - k)) by (rewrite minus_IZR; lra).
  assert (Hlt : (-1 < j - k < 1)%Z).
  { split; [apply lt_IZR | apply lt_IZR]; simpl; lra. }
  assert (E0 : (j - k = 0)%Z) by lia.
  rewrite E0 in Hd. simpl in Hd. lra.
Qed.

(** [%] is the specification's modulus on a dividend that is not negative. *)
Lemma rem_is_spec_mod (n : R) : 0 <= n -> JS.rem n 360 = spec_mod360 n.
Proof.
  intros Hn. destruct (JSFacts.rem_congruent n 360) as [k Ek].
  apply (spec_mod360_unique n _ k); [|exact Ek].
  apply JSFacts.rem_of_nonneg; lra.
Qed.

(** On a negative dividend [%] is a full turn below it, unless both are 0. *)
Lemma rem_below_spec_mod (n : R) :
  n < 0 ->
  (JS.rem n 360 = 0 /\ spec_mod360 n = 0)
  \/ (JS.rem n 360 < 0 /\ JS.rem n 360 = spec_mod360 n - 360).
Proof.
  intros Hn.
  destruct (JSFacts.rem_of_neg n 360 Hn) as [Hlo Hhi]; [lra|].
  destruct (JSFacts.rem_congruent n 360) as [k Ek].
  destruct (Req_dec_T (JS.rem n 360) 0) as [E0|Hne].
  - left. split; [exact E0|]. symmetry.
    apply (spec_mod360_unique n 0 k); lra.
  - right. split; [lra|].
    assert (E : JS.rem n 360 + 360 = spec_mod360 n).
    { apply (spec_mod360_unique n _ (k - 1)); [lra|].
      rewrite minus_IZR. lra. }
    lra.
Qed.


(** ** Further facts: the loops of the grid in any arithmetic *)

(** An ascending loop ends when every round moves its counter up by a fixed
    gap at least; its marks lie from the start up to the limit. *)
Lemma ticksBelowWith_ends (plus : R -> R -> R) (gap lo limit step : R) :
  0 < gap ->
  (forall i, lo <= i < limit -> plus i step >= i + gap) ->
  forall (m : nat) (i : R),
    lo <= i -> limit - i <= INR m * gap ->
    exists ticks,
      (forall fuel, (m < fuel)%nat ->
         ticksBelowWith plus fuel i limit step = Some ticks)
      /\ Forall (fun t => i <= t < limit) ticks.
Proof.
  intros Hgap Hadv. induction m as [|m IH]; intros i Hlo Hm.
  - exists []. split; [|constructor].
    intros [|fuel] Hf; [lia|]. simpl in *.
    destruct (Rlt_dec i limit); [lra | reflexivity].
  - destruct (Rlt_dec i limit) as [Hlt|Hge].
    + pose proof (Hadv i (conj Hlo Hlt)) as Ha.
      destruct (IH (plus i step)) as (ticks & H1 & H2).
      { lra. }
      { rewrite S_INR in Hm. lra. }
      exists (i :: ticks). split.
      * intros [|fuel] Hf; [lia|]. simpl.
        destruct (Rlt_dec i limit); [|contradiction].
        rewrite H1 by lia. reflexivity.
      * constructor; [lra|].
        apply (Forall_impl _ (P := fun t => plus i step <= t < limit));
          [intros t Ht; lra | exact H2].
    + exists []. split; [|constructor].
      intros [|fuel] Hf; [lia|]. simpl.
      destruct (Rlt_dec i limit); [contradiction | reflexivity].
Qed.

Lemma ticksAboveWith_ends (minus : R -> R -> R) (gap hi limit step : R) :
  0 < gap ->
  (forall i, limit < i <= hi -> minus i step <= i - gap) ->
  forall (m : nat) (i : R),
    i <= hi -> i - limit <= INR m * gap ->
    exists ticks,
      (forall fuel, (m < fuel)%nat ->
         ticksAboveWith minus fuel i limit step = Some ticks)
      /\ Forall (fun t => limit < t <= i) ticks.
Proof.
  intros Hgap Hadv. induction m as [|m IH]; intros i Hhi Hm.
  - exists []. split; [|constructor].
    intros [|fuel] Hf; [lia|]. simpl in *.
    destruct (Rgt_dec i limit); [lra | reflexivity].
  - destruct (Rgt_dec i limit) as [Hgt|Hle].
    + pose proof (Hadv i (conj Hgt Hhi)) as Ha.
      destruct (IH (minus i step)) as (ticks & H1 & H2).
      { lra. }
      { rewrite S_INR in Hm. lra. }
      exists (i :: ticks). split.
      * intros [|fuel] Hf; [lia|]. simpl.
        destruct (Rgt_dec i limit); [|contradiction].
        rewrite H1 by lia. reflexivity.
      * constructor; [lra|].
        apply (Forall_impl _ (P := fun t => limit < t <= minus i step));
          [intros t Ht; lra | exact H2].
    + exists []. split; [|constructor].
      intros [|fuel] Hf; [lia|]. simpl.
      destruct (Rgt_dec i limit); [contradiction | reflexivity].
Qed.

(** A loop whose round leaves the counter where it is, below the limit, never
    ends: the case of a step that the rounded sum absorbs. *)
Lemma ticksBelowWith_stuck (plus : R -> R -> R) (i limit step : R) :
  i < limit -> plus i step = i ->
  forall fuel, ticksBelowWith plus fuel i limit step = None.
Proof.
  intros Hlt Hstuck. induction fuel as [|fuel IH]; [reflexivity|].
  simpl. destruct (Rlt_dec i limit); [|contradiction].
  rewrite Hstuck, IH. reflexivity.
Qed.

(** In exact arithmetic the loops are [ticksBelow] and [ticksAbove]. *)
Lemma ticksBelowWith_exact (plus : R -> R -> R) (limit step : R) :
  (forall i, plus i step = i + step) ->
  forall fuel i, ticksBelowWith plus fuel i limit step = ticksBelow fuel i limit step.
Proof.
  intros Hex. induction fuel as [|fuel IH]; intros i; [reflexivity|].
  simpl. rewrite Hex, IH. reflexivity.
Qed.

Lemma ticksAboveWith_exact (minus : R -> R -> R) (limit step : R) :
  (forall i, minus i step = i - step) ->
  forall fuel i, ticksAboveWith minus fuel i limit step = ticksAbove fuel i limit step.
Proof.
  intros Hex. induction fuel as [|fuel IH]; intros i; [reflexivity|].
  simpl. rewrite Hex, IH. reflexivity.
Qed.

Lemma gridTicksWith_exact (plus minus : R -> R -> R) (fuel : nat) (o : PixelCoords)
  (scale width height : R) :
  (forall i, plus i (10 * scale) = i + 10 * scale) ->
  (forall i, minus i (10 * scale) = i - 10 * scale) ->
  gridTicksWith plus minus fuel o scale width height
  = gridTicks fuel o scale width height.
Proof.
  intros Hp Hm. unfold gridTicksWith, gridTicks. cbv zeta.
  rewrite !Hp, !Hm.
  rewrite !(ticksBelowWith_exact plus _ _ Hp), !(ticksAboveWith_exact minus _ _ Hm).
  reflexivity.
Qed.

(** The marks of the grid in exact arithmetic, for a positive step. *)
Lemma gridTicks_marks (o : PixelCoords) (scale width height : R) :
  0 < scale ->
  exists fuel g,
    (forall fuel', (fuel <= fuel')%nat ->
       gridTicks fuel' o scale width height = Some g)
    /\ (forall t, In t (ticksXPos g) <->
          exists k : nat, (1 <= k)%nat
                          /\ t = pixel_x o + INR k * (10 * scale) /\ t < width)
    /\ (forall t, In t (ticksXNeg g) <->
          exists k : nat, (1 <= k)%nat
                          /\ t = pixel_x o - INR k * (10 * scale) /\ t > 0)
    /\ (forall t, In t (ticksYPos g) <->
          exists k : nat, (1 <= k)%nat
                          /\ t = pixel_y o - INR k * (10 * scale) /\ t > 0)
    /\ (forall t, In t (ticksYNeg g) <->
          exists k : nat, (1 <= k)%nat
                          /\ t = pixel_y o + INR k * (10 * scale) /\ t < height).
Proof.
  intros Hpos.
  assert (Hstep : 0 < 10 * scale) by lra.
  destruct (marksBelow (pixel_x o) width (10 * scale) Hstep) as (f1 & xpos & F1 & I1).
  destruct (marksAbove (pixel_x o) 0 (10 * scale) Hstep) as (f2 & xneg & F2 & I2).
  destruct (marksAbove (pixel_y o) 0 (10 * scale) Hstep) as (f3 & ypos & F3 & I3).
  destruct (marksBelow (pixel_y o) height (10 * scale) Hstep) as (f4 & yneg & F4 & I4).
  exists (f1 + f2 + f3 + f4)%nat,
    {| ticksXPos := xpos; ticksXNeg := xneg; ticksYPos := ypos; ticksYNeg := yneg |}.
  split.
  { intros fuel' Hf. unfold gridTicks. cbv zeta.
    rewrite F1, F2, F3, F4 by lia. reflexivity. }
  cbn [ticksXPos ticksXNeg ticksYPos ticksYNeg].
  split; [exact I1|]. split; [exact I2|]. split; [exact I3 | exact I4].
Qed.

(** The loops of the grid end in every arithmetic whose rounds move the
    counter by a fixed gap at least, on the numbers that the loops meet. *)
Lemma gridTicksWith_ends (plus minus : R -> R -> R) (o : PixelCoords)
  (scale width height gap bound : R) :
  0 < gap ->
  Rabs (pixel_x o) <= bound -> Rabs (pixel_y o) <= bound ->
  width <= bound -> height <= bound ->
  (forall i, Rabs i <= bound -> plus i (10 * scale) >= i + gap) ->
  (forall i, Rabs i <= bound -> minus i (10 * scale) <= i - gap) ->
  exists fuel g,
    (forall fuel', (fuel <= fuel')%nat ->
       gridTicksWith plus minus fuel' o scale width height = Some g)
    /\ Forall (fun t => pixel_x o < t < width) (ticksXPos g)
    /\ Forall (fun t => 0 < t < pixel_x o) (ticksXNeg g)
    /\ Forall (fun t => 0 < t < pixel_y o) (ticksYPos g)
    /\ Forall (fun t => pixel_y o < t < height) (ticksYNeg g).
Proof.
  intros Hgap Hox Hoy Hw Hh Hplus Hminus.
  set (T := 10 * scale) in *.
  assert (Hup : forall a limit, Rabs a <= bound -> limit <= bound ->
            exists fuel ticks,
              (forall fuel', (fuel <= fuel')%nat ->
                 ticksBelowWith plus fuel' (plus a T) limit T = Some ticks)
              /\ Forall (fun t => a < t < limit) ticks).
  { intros a limit Ha Hl.
    pose proof (Hplus a Ha) as Hstart.
    destruct (nat_above ((limit - plus a T) / gap)) as [m Hm].
    destruct (ticksBelowWith_ends plus gap a limit T Hgap) with (m := m) (i := plus a T)
      as (ticks & H1 & H2).
    - intros i [Hi1 Hi2]. apply Hplus.
      revert Ha. unfold Rabs.
      destruct (Rcase_abs a), (Rcase_abs i); lra.
    - lra.
    - apply (Rmult_le_compat_r gap) in Hm; [|lra].
      unfold Rdiv in Hm. rewrite Rmult_assoc, Rinv_l, Rmult_1_r in Hm by lra.
      exact Hm.
    - exists (S m), ticks. split; [intros fuel' Hf; apply H1; lia|].
      apply (Forall_impl _ (P := fun t => plus a T <= t < limit));
        [intros t Ht; lra | exact H2]. }
  assert (Hdown : forall a, Rabs a <= bound ->
            exists fuel ticks,
              (forall fuel', (fuel <= fuel')%nat ->
                 ticksAboveWith minus fuel' (minus a T) 0 T = Some ticks)
              /\ Forall (fun t => 0 < t < a) ticks).
  { intros a Ha.
    pose proof (Hminus a Ha) as Hstart.
    destruct (nat_above ((minus a T - 0) / gap)) as [m Hm].
    destruct (ticksAboveWith_ends minus gap a 0 T Hgap) with (m := m) (i := minus a T)
      as (ticks & H1 & H2).
    - intros i [Hi1 Hi2]. apply Hminus.
      revert Ha. unfold Rabs.
      destruct (Rcase_abs a), (Rcase_abs i); lra.
    - lra.
    - apply (Rmult_le_compat_r gap) in Hm; [|lra].
      unfold Rdiv in Hm. rewrite Rmult_assoc, Rinv_l, Rmult_1_r in Hm by lra.
      exact Hm.
    - exists (S m), ticks. split; [intros fuel' Hf; apply H1; lia|].
      apply (Forall_impl _ (P := fun t => 0 < t <= minus a T));
        [intros t Ht; lra | exact H2]. }
  destruct (Hup (pixel_x o) width Hox Hw) as (f1 & xpos & F1 & I1).
  destruct (Hdown (pixel_x o) Hox) as (f2 & xneg & F2 & I2).
  destruct (Hdown (pixel_y o) Hoy) as (f3 & ypos & F3 & I3).
  destruct (Hup (pixel_y o) height Hoy Hh) as (f4 & yneg & F4 & I4).
  exists (f1 + f2 + f3 + f4)%nat,
    {| ticksXPos := xpos; ticksXNeg := xneg; ticksYPos := ypos; ticksYNeg := yneg |}.
  split.
  { intros fuel' Hf. unfold gridTicksWith. cbv zeta. fold T.
    rewrite F1, F2, F3, F4 by lia. reflexivity. }
  cbn [ticksXPos ticksXNeg ticksYPos ticksYNeg]. auto.
Qed.

(** ** The properties of the specification *)

(** C1, at the input where the code leaves the interval: with the compass
    dragged to 270 degrees (pointer left of its centre) in the session of the
    scenario, the pixel (40, 60) has real coordinates (-1, -1) and receives the
    bearing -45, which is not in [[0, 360)]. *)
Theorem C1_bearing_negative_at_rotation_270 :
  compassAngleDeg (-1) 0 0 0 = 270
  /\ pd_realCoords
       (calculatePointData (rotateNorth 270 scenarioSession) (mkPixelCoords 40 60))
     = mkRealCoords (-1) (-1)
  /\ pd_bearing
       (calculatePointData (rotateNorth 270 scenarioSession) (mkPixelCoords 40 60))
     = -45
  /\ ~ (0 <= pd_bearing
               (calculatePointData (rotateNorth 270 scenarioSession)
                  (mkPixelCoords 40 60)) < 360).
Proof.
  assert (Hs : rotateNorth 270 scenarioSession
               = setNorthRotation 270 scenarioSession).
  { unfold rotateNorth.
    destruct (Req_dec_T 270 (northRotation scenarioSession)) as [E|_].
    - simpl in E. lra.
    - apply recalculateBearings_no_points. reflexivity. }
  assert (Hrc : calculateRealCoords (setNorthRotation 270 scenarioSession)
                  (mkPixelCoords 40 60) = mkRealCoords (-1) (-1)).
  { unfold calculateRealCoords. simpl.
    destruct (Req_dec_T 10 0) as [E|_]; [lra|].
    f_equal; field. }
  assert (Hb : pd_bearing
                 (calculatePointData (setNorthRotation 270 scenarioSession)
                    (mkPixelCoords 40 60)) = -45).
  { unfold calculatePointData. rewrite Hrc. simpl.
    apply bearing_of_south_west_at_270. }
  rewrite Hs. split; [apply compass_pointing_left|].
  split; [exact Hrc|]. split; [exact Hb|].
  rewrite Hb. lra.
Qed.

(** C2, as the code has it: the second calibration click is never rejected.
    Whatever the two points and the known distance, it stores the quotient of
    the pixel distance by the known distance as the scale, appends the point
    and moves to SET_ORIGIN.  The scale stored is 0 when the clicks coincide
    and the known distance is not 0, Infinity when they differ and the known
    distance is 0, NaN when they coincide and the known distance is 0, and a
    negative number when they differ and the known distance is negative. *)
Theorem C2_second_click_stores_any_scale
  (s : State) (p1 p2 : PixelCoords) (rest : list PixelCoords) :
  appState s = CALIBRATE_END ->
  calibrationPoints s = p1 :: rest ->
  exists s',
    handleImageClick (Some p2) s = Returns s' []
    /\ appState s' = SET_ORIGIN
    /\ calibrationPoints s' = (p1 :: rest) ++ [p2]
    /\ pixelsPerMeter s'
       = Some (JS.div (calculateDistance p1 p2) (knownDistance s))
    /\ (p1 = p2 -> knownDistance s <> 0 ->
        pixelsPerMeter s' = Some (JS.Finite 0))
    /\ (p1 <> p2 -> knownDistance s = 0 ->
        pixelsPerMeter s' = Some JS.PosInfinity)
    /\ (p1 = p2 -> knownDistance s = 0 ->
        pixelsPerMeter s' = Some JS.NaN)
    /\ (p1 <> p2 -> knownDistance s < 0 ->
        exists r, pixelsPerMeter s' = Some (JS.Finite r) /\ r < 0).
Proof.
  intros Hst Hcal. unfold handleImageClick. rewrite Hst, Hcal.
  eexists. split; [reflexivity|].
  assert (Hppm : pixelsPerMeter
                   (setAppState SET_ORIGIN
                      (setCalibrationPoints ((p1 :: rest) ++ [p2])
                         (setPixelsPerMeter
                            (Some (JS.div (calculateDistance p1 p2) (knownDistance s)))
                            s)))
                 = Some (JS.div (calculateDistance p1 p2) (knownDistance s)))
    by (destruct s; reflexivity).
  rewrite Hppm.
  split; [destruct s; reflexivity|]. split; [destruct s; reflexivity|].
  split; [reflexivity|].
  split; [|split; [|split]].
  - intros <- Hd. rewrite calculateDistance_same, div_nonzero by exact Hd.
    do 2 f_equal. field. exact Hd.
  - intros Hne Hd. rewrite Hd, div_pos_by_zero; [reflexivity|].
    now apply calculateDistance_pos.
  - intros <- Hd. rewrite Hd, calculateDistance_same, div_zero_by_zero.
    reflexivity.
  - intros Hne Hd. rewrite div_nonzero by lra. eexists. split; [reflexivity|].
    pose proof (calculateDistance_pos p1 p2 Hne) as Hpos.
    unfold Rdiv. replace (calculateDistance p1 p2 * / knownDistance s)
      with (- (calculateDistance p1 p2 * / (- knownDistance s))) by (field; lra).
    assert (0 < calculateDistance p1 p2 * / - knownDistance s)
      by (apply Rmult_lt_0_compat; [exact Hpos | apply Rinv_0_lt_compat; lra]).
    lra.
Qed.

Lemma C2_second_click_stores_any_scale_witness :
  exists s',
    handleImageClick (Some (mkPixelCoords 5 5)) afterFirstClickAt5 = Returns s' []
    /\ appState s' = SET_ORIGIN
    /\ pixelsPerMeter s' = Some (JS.Finite 0).
Proof.
  destruct (C2_second_click_stores_any_scale afterFirstClickAt5
              (mkPixelCoords 5 5) (mkPixelCoords 5 5) [])
    as [s' [Hret [Hst [_ [_ [Hzero _]]]]]].
  - reflexivity.
  - reflexivity.
  - exists s'. split; [exact Hret|]. split; [exact Hst|].
    apply Hzero; [reflexivity | simpl; lra].
Defined.

(** C2 as stated fails: with the known distance 10 and both calibration clicks
    on pixel (5, 5) the pixel distance is 0, yet the second click returns
    normally, stores the scale 0 and moves to SET_ORIGIN; the scale has been
    changed and the state is not CALIBRATE_END any more. *)
Lemma C2_counterexample :
  appState afterFirstClickAt5 = CALIBRATE_END
  /\ calibrationPoints afterFirstClickAt5 = [mkPixelCoords 5 5]
  /\ calculateDistance (mkPixelCoords 5 5) (mkPixelCoords 5 5) = 0
  /\ (exists s',
         handleImageClick (Some (mkPixelCoords 5 5)) afterFirstClickAt5
         = Returns s' []
         /\ pixelsPerMeter s' = Some (JS.Finite 0)
         /\ appState s' = SET_ORIGIN)
  /\ ~ (exists s' alerts,
           handleImageClick (Some (mkPixelCoords 5 5)) afterFirstClickAt5
           = Returns s' alerts
           /\ pixelsPerMeter s' = pixelsPerMeter afterFirstClickAt5
           /\ appState s' = CALIBRATE_END).
Proof.
  split; [reflexivity|]. split; [reflexivity|].
  split; [apply calculateDistance_same|].
  split.
  - eexists. split; [apply degenerate_second_click|]. split; reflexivity.
  - intros [s' [alerts [Hret [_ Hst]]]].
    rewrite degenerate_second_click in Hret.
    injection Hret as <- _. discriminate Hst.
Qed.

(** C3, as the code has it: while the origin or the scale is not yet set,
    the conversion of any pixel position returns the coordinates (0, 0); the
    caller receives an ordinary [RealCoords] value and no failure, and the
    point data derived from it are the position (0, 0) at distance 0. *)
Theorem C3_unset_calibration_returns_zero (s : State) (p : PixelCoords) :
  origin s = None \/ pixelsPerMeter s = None ->
  calculateRealCoords s p = mkRealCoords 0 0
  /\ pd_realCoords (calculatePointData s p) = mkRealCoords 0 0
  /\ pd_distance (calculatePointData s p) = 0.
Proof.
  intros H.
  assert (E : calculateRealCoords s p = mkRealCoords 0 0).
  { unfold calculateRealCoords. destruct H as [H|H]; rewrite H.
    - reflexivity.
    - destruct (origin s); reflexivity. }
  split; [exact E|]. unfold calculatePointData. rewrite E. simpl.
  split; [reflexivity|].
  unfold JS.pow2. replace (0 * 0 + 0 * 0) with 0 by ring. apply sqrt_0.
Qed.

Lemma C3_unset_calibration_returns_zero_witness :
  (origin awaitingOrigin = None \/ pixelsPerMeter awaitingOrigin = None)
  /\ calculateRealCoords awaitingOrigin (mkPixelCoords 3 4) = mkRealCoords 0 0.
Proof.
  split.
  - left. reflexivity.
  - apply (C3_unset_calibration_returns_zero awaitingOrigin (mkPixelCoords 3 4)).
    left. reflexivity.
Defined.

(** C3 as stated fails: after the two calibration clicks of the scenario and
    before the origin click, the conversion of the pixel (3, 4) hands the
    zeroed coordinates (0, 0) to its caller, and the mouse-move handler that
    called it returns and displays them. *)
Lemma C3_counterexample :
  handleImageClick (Some (mkPixelCoords 100 0)) afterFirstClick
  = Returns awaitingOrigin []
  /\ origin awaitingOrigin = None
  /\ calculateRealCoords awaitingOrigin (mkPixelCoords 3 4) = mkRealCoords 0 0
  /\ mouseRealCoords
       (handleImageMouseMove (Some (mkPixelCoords 3 4)) awaitingOrigin)
     = Some (mkRealCoords 0 0).
Proof.
  split; [apply second_click_of_scenario|]. repeat split; reflexivity.
Qed.

(** C4: for every real position r and reference direction ref the distance is
    sqrt(r.x^2 + r.y^2), atan2(r.x, r.y) being the angle of r counted
    clockwise from the positive y axis.  The bearing is
    ((atan2(r.x, r.y) in degrees) - ref + 360) mod 360, the value normalized
    into [0, 360), whenever the dividend is not negative, hence for every ref
    up to 180.  On a negative dividend the [%] of the code keeps its sign: the
    bearing is then negative, a full turn below the value of the formula
    (unless both are 0).  At the position (-1, -1) with the reference
    direction 270, which the compass stores, the formula gives 315 and the
    code -45.  In the scenario (known distance 10, calibration clicks at
    pixels (0, 0) and (100, 0), origin at pixel (50, 50), reference direction
    0) the scale is 10 and the pixel (150, 50) has real coordinates (10, 0),
    distance 10 and bearing 90. *)
Theorem C4_bearing_departs_from_formula_on_negative_dividend :
  (forall (rc : RealCoords) (ref : R),
      let db := calculateDistanceAndBearing rc ref in
      let raw := JS.atan2 (real_x rc) (real_y rc) in
      let dividend := raw * (180 / PI) - ref + 360 in
      db_distance db = sqrt (real_x rc ^ 2 + real_y rc ^ 2)
      /\ real_x rc = db_distance db * sin raw
      /\ real_y rc = db_distance db * cos raw
      /\ 0 <= spec_bearing rc ref < 360
      /\ (0 <= dividend -> db_bearing db = spec_bearing rc ref)
      /\ (ref <= 180 -> db_bearing db = spec_bearing rc ref)
      /\ (dividend < 0 ->
          (db_bearing db = 0 /\ spec_bearing rc ref = 0)
          \/ (db_bearing db < 0 /\ db_bearing db = spec_bearing rc ref - 360)))
  /\ (db_bearing (calculateDistanceAndBearing (mkRealCoords (-1) (-1)) 270) = -45
      /\ spec_bearing (mkRealCoords (-1) (-1)) 270 = 315
      /\ compassAngleDeg (-1) 0 0 0 = 270)
  /\ Returns imageLoaded []
     >>> handleImageClick (Some (mkPixelCoords 0 0))
     >>> handleImageClick (Some (mkPixelCoords 100 0))
     >>> handleImageClick (Some (mkPixelCoords 50 50))
     = Returns scenarioSession []
  /\ pixelsPerMeter scenarioSession = Some (JS.Finite 10)
  /\ northRotation scenarioSession = 0
  /\ calculatePointData scenarioSession (mkPixelCoords 150 50)
     = {| pd_realCoords := mkRealCoords 10 0; pd_distance := 10; pd_bearing := 90 |}
  /\ spec_bearing (mkRealCoords 10 0) 0 = 90.
Proof.
  assert (Hgen : forall (rc : RealCoords) (ref : R),
             let db := calculateDistanceAndBearing rc ref in
             let dividend := JS.atan2 (real_x rc) (real_y rc) * (180 / PI) - ref + 360 in
             (0 <= dividend -> db_bearing db = spec_bearing rc ref)
             /\ (dividend < 0 ->
                 (db_bearing db = 0 /\ spec_bearing rc ref = 0)
                 \/ (db_bearing db < 0 /\ db_bearing db = spec_bearing rc ref - 360))).
  { intros rc ref db dividend.
    assert (Eb : db_bearing db = JS.rem dividend 360) by reflexivity.
    assert (Es : spec_bearing rc ref = spec_mod360 dividend) by reflexivity.
    rewrite Eb, Es. split.
    - apply rem_is_spec_mod.
    - apply rem_below_spec_mod. }
  split; [|split; [|split; [apply scenarioSession_reached|]]].
  - intros rc ref db raw dividend.
    assert (Hd : db_distance db = sqrt (real_y rc * real_y rc + real_x rc * real_x rc)).
    { unfold db, calculateDistanceAndBearing, JS.pow2. simpl. f_equal. ring. }
    destruct (JSFacts.atan2_polar (real_x rc) (real_y rc)) as [Hcos Hsin].
    fold raw in Hcos, Hsin. rewrite <- Hd in Hcos, Hsin.
    destruct (Hgen rc ref) as [Hpos Hneg].
    split; [rewrite Hd; f_equal; ring|].
    split; [exact Hsin|]. split; [exact Hcos|].
    split; [apply spec_mod360_range|].
    split; [exact Hpos|]. split; [|exact Hneg].
    intros Href. apply Hpos.
    pose proof (angleDeg_range (real_x rc) (real_y rc)). lra.
  - pose proof bearing_of_south_west_at_270 as Hb.
    split; [exact Hb|]. split; [|apply compass_pointing_left].
    destruct (Hgen (mkRealCoords (-1) (-1)) 270) as [Hpos Hneg].
    destruct (Rle_dec 0 (JS.atan2 (real_x (mkRealCoords (-1) (-1)))
                           (real_y (mkRealCoords (-1) (-1))) * (180 / PI) - 270 + 360))
      as [Hle|Hgt].
    + specialize (Hpos Hle). rewrite Hb in Hpos.
      pose proof (spec_mod360_range
                    (JS.atan2 (real_x (mkRealCoords (-1) (-1)))
                       (real_y (mkRealCoords (-1) (-1))) * (180 / PI) - 270 + 360)).
      unfold spec_bearing in Hpos. cbv zeta in Hpos. lra.
    + destruct Hneg as [[H0 _]|[_ E]]; [lra | lra | lra].
  - split; [reflexivity|]. split; [reflexivity|].
    split; [apply scenario_point_data|].
    destruct (Hgen (mkRealCoords 10 0) 0) as [Hpos _].
    rewrite <- Hpos.
    + now rewrite bearing_of_east.
    + pose proof (angleDeg_range (real_x (mkRealCoords 10 0)) (real_y (mkRealCoords 10 0))).
      lra.
Qed.

(** C5: with the origin set and a positive scale, every pixel position [p]
    converts to ((p.x - origin.x) / scale, (origin.y - p.y) / scale), and the
    origin pixel itself converts to exactly (0, 0). *)
Theorem C5_calculateRealCoords_formula
  (s : State) (o : PixelCoords) (scale : R) (p : PixelCoords) :
  origin s = Some o ->
  pixelsPerMeter s = Some (JS.Finite scale) ->
  0 < scale ->
  calculateRealCoords s p
  = mkRealCoords ((pixel_x p - pixel_x o) / scale) ((pixel_y o - pixel_y p) / scale)
  /\ calculateRealCoords s o = mkRealCoords 0 0.
Proof.
  intros Ho Hs Hpos. unfold calculateRealCoords. rewrite Ho, Hs.
  rewrite truthy_finite by lra. simpl. split; [reflexivity|].
  f_equal; field; lra.
Qed.

Lemma C5_calculateRealCoords_formula_witness :
  calculateRealCoords calibratedSession (mkPixelCoords 150 50)
  = mkRealCoords ((150 - 50) / 10) ((50 - 50) / 10)
  /\ calculateRealCoords calibratedSession (mkPixelCoords 50 50) = mkRealCoords 0 0.
Proof.
  apply (C5_calculateRealCoords_formula calibratedSession (mkPixelCoords 50 50) 10
           (mkPixelCoords 150 50)); [reflexivity | reflexivity | lra].
Defined.

(** C6: [calculatePolygonArea] returns |sum of (x_i * y_(i+1) - x_(i+1) * y_i)| / 2,
    the index after the last one wrapping to the first, when there are at least
    3 vertices, and 0 when there are fewer.  The result is never negative, is
    the same for the reverse winding and for every starting vertex, and for an
    axis-aligned square of side s it is s * s, whichever vertex comes first and
    whichever way round the vertices are listed. *)
Theorem C6_calculatePolygonArea_is_shoelace :
  (forall coords, calculatePolygonArea coords = Shoelace.spec_polygonArea coords)
  /\ (forall p q,
         calculatePolygonArea [] = 0
         /\ calculatePolygonArea [p] = 0
         /\ calculatePolygonArea [p; q] = 0)
  /\ (forall coords, 0 <= calculatePolygonArea coords)
  /\ (forall coords, calculatePolygonArea (rev coords) = calculatePolygonArea coords)
  /\ (forall k coords,
         calculatePolygonArea (Shoelace.startingAt k coords)
         = calculatePolygonArea coords)
  /\ (forall x0 y0 s k,
         calculatePolygonArea (Shoelace.startingAt k (Shoelace.square x0 y0 s)) = s * s
         /\ calculatePolygonArea (rev (Shoelace.startingAt k (Shoelace.square x0 y0 s)))
            = s * s).
Proof.
  assert (Hrev : forall coords,
             calculatePolygonArea (rev coords) = calculatePolygonArea coords).
  { intros coords. rewrite !ShoelaceFacts.calculatePolygonArea_closed.
    rewrite length_rev, ShoelaceFacts.closed_rev.
    destruct (List.length coords <? 3)%nat; [reflexivity|].
    replace (- Shoelace.closed coords / 2) with (- (Shoelace.closed coords / 2))
      by (unfold Rdiv; ring).
    apply Rabs_Ropp. }
  assert (Hrot : forall k coords,
             calculatePolygonArea (Shoelace.startingAt k coords)
             = calculatePolygonArea coords).
  { intros k coords. rewrite !ShoelaceFacts.calculatePolygonArea_closed.
    unfold Shoelace.startingAt.
    rewrite ShoelaceFacts.closed_rotate, firstn_skipn.
    replace (List.length (skipn k coords ++ firstn k coords))
      with (List.length coords); [reflexivity|].
    rewrite length_app, Nat.add_comm, <- length_app, firstn_skipn. reflexivity. }
  assert (Hsq : forall x0 y0 s,
             calculatePolygonArea (Shoelace.square x0 y0 s) = s * s).
  { intros x0 y0 s. rewrite ShoelaceFacts.calculatePolygonArea_closed.
    unfold Shoelace.square, Shoelace.closed, Shoelace.chain, Shoelace.cross.
    simpl.
    replace (_ / 2) with (s * s) by field.
    apply Rabs_pos_eq. apply Rle_0_sqr. }
  repeat split.
  - intros coords. rewrite ShoelaceFacts.calculatePolygonArea_closed.
    unfold Shoelace.spec_polygonArea.
    destruct (List.length coords <? 3)%nat eqn:E; [reflexivity|].
    rewrite ShoelaceFacts.spec_sum_is_closed.
    + apply ShoelaceFacts.Rabs_half.
    + intros ->. discriminate.
  - intros coords. rewrite ShoelaceFacts.calculatePolygonArea_closed.
    destruct (List.length coords <? 3)%nat; [lra | apply Rabs_pos].
  - exact Hrev.
  - exact Hrot.
  - rewrite Hrot. apply Hsq.
  - rewrite Hrev, Hrot. apply Hsq.
Qed.

(** C7, as the code has it: with at least one stored point, the origin set and
    the scale set to a number other than 0 and NaN, changing the reference
    direction by a non-zero delta recomputes the bearing of every stored point
    from its stored real coordinates, so that a bearing that was up to date
    changes by -delta up to a whole number of turns, while the name, the pixel
    and real coordinates and the distance of every point stay as they were. *)
Theorem C7_rotation_recomputes_bearings (s : State) (delta : R) :
  points s <> [] ->
  calibrated s = true ->
  delta <> 0 ->
  northRotation (rotateNorth (northRotation s + delta) s) = northRotation s + delta
  /\ Forall2
       (fun p p' =>
          name p' = name p
          /\ pixelCoords p' = pixelCoords p
          /\ realCoords p' = realCoords p
          /\ distance p' = distance p
          /\ bearing p'
             = db_bearing (calculateDistanceAndBearing (realCoords p)
                             (northRotation s + delta))
          /\ (bearing p
              = db_bearing (calculateDistanceAndBearing (realCoords p)
                              (northRotation s)) ->
              exists k : Z, bearing p' = bearing p - delta + 360 * IZR k))
       (points s)
       (points (rotateNorth (northRotation s + delta) s)).
Proof.
  intros Hne Hcal Hdelta. unfold rotateNorth.
  destruct (Req_dec_T (northRotation s + delta) (northRotation s)) as [E|_];
    [exfalso; lra|].
  set (s1 := setNorthRotation (northRotation s + delta) s).
  assert (Hp1 : points s1 = points s) by (destruct s; reflexivity).
  assert (Hr1 : northRotation s1 = northRotation s + delta)
    by (destruct s; reflexivity).
  assert (Hc1 : calibrated s1 = true) by (destruct s; exact Hcal).
  destruct (recalculateBearings_runs s1) as [Hpts Hrot].
  { rewrite Hp1. exact Hne. }
  { exact Hc1. }
  rewrite Hrot, Hr1. split; [reflexivity|].
  rewrite Hpts, Hp1, Hr1. clear.
  induction (points s) as [|p ps IH]; simpl; constructor.
  - repeat split; try reflexivity.
    intros Hold. simpl. rewrite Hold. apply bearing_shift.
  - exact IH.
Qed.

Lemma C7_rotation_recomputes_bearings_witness :
  northRotation (rotateNorth (northRotation sessionWithPoint + 90) sessionWithPoint)
  = northRotation sessionWithPoint + 90
  /\ Forall2
       (fun p p' =>
          name p' = name p
          /\ pixelCoords p' = pixelCoords p
          /\ realCoords p' = realCoords p
          /\ distance p' = distance p
          /\ bearing p'
             = db_bearing (calculateDistanceAndBearing (realCoords p)
                             (northRotation sessionWithPoint + 90))
          /\ (bearing p
              = db_bearing (calculateDistanceAndBearing (realCoords p)
                              (northRotation sessionWithPoint)) ->
              exists k : Z, bearing p' = bearing p - 90 + 360 * IZR k))
       (points sessionWithPoint)
       (points (rotateNorth (northRotation sessionWithPoint + 90) sessionWithPoint)).
Proof.
  apply (C7_rotation_recomputes_bearings sessionWithPoint 90).
  - discriminate.
  - apply (calibrated_finite_nonzero sessionWithPoint (mkPixelCoords 50 50) 10);
      [reflexivity | reflexivity | lra].
  - lra.
Defined.

(** C7 as stated fails: in the session whose calibration clicks coincided
    (scale 0, one point saved with bearing 0), turning the reference direction
    from 0 to 90 leaves the stored points as they are; the bearing of the
    point stays 0, which is no whole number of turns away from 0 - 90. *)
Lemma C7_counterexample :
  Returns imageLoaded []
  >>> handleImageClick (Some (mkPixelCoords 5 5))
  >>> handleImageClick (Some (mkPixelCoords 5 5))
  >>> handleImageClick (Some (mkPixelCoords 50 50))
  >>> handleImageClick (Some (mkPixelCoords 150 50))
  >>> handleSavePoint
  = Returns degenerateSession []
  /\ points degenerateSession <> []
  /\ northRotation (rotateNorth (northRotation degenerateSession + 90) degenerateSession)
     = 90
  /\ points (rotateNorth (northRotation degenerateSession + 90) degenerateSession)
     = points degenerateSession
  /\ ~ Forall2
         (fun p p' => exists k : Z, bearing p' = bearing p - 90 + 360 * IZR k)
         (points degenerateSession)
         (points (rotateNorth (northRotation degenerateSession + 90)
                    degenerateSession)).
Proof.
  assert (Hrot : rotateNorth (northRotation degenerateSession + 90) degenerateSession
                 = setNorthRotation (0 + 90) degenerateSession).
  { unfold rotateNorth.
    change (northRotation degenerateSession) with 0.
    destruct (Req_dec_T (0 + 90) 0) as [E|_]; [exfalso; lra|].
    apply recalculateBearings_skips.
    unfold calibrated. simpl.
    destruct (Req_dec_T 0 0); [reflexivity | contradiction]. }
  split; [apply degenerateSession_reached|].
  split; [discriminate|].
  rewrite Hrot. split; [simpl; ring|]. split; [reflexivity|].
  simpl. intros H. inversion H as [|p p' ps ps' [k Hk] _]; subst.
  simpl in Hk.
  assert (E : IZR (4 * k) = IZR 1) by (rewrite mult_IZR; lra).
  apply eq_IZR in E. lia.
Qed.

(** C8: in DEFINING_AREA with fewer than 3 vertices captured, the finish
    command returns with an alert and leaves the whole state as it was: the
    mode is still DEFINING_AREA, the vertices and the areas are untouched, and
    nothing is thrown. *)
Theorem C8_finish_area_rejected_below_three (s : State) :
  appState s = DEFINING_AREA ->
  (List.length (currentAreaPoints s) < 3)%nat ->
  handleFinishArea s
  = Returns s ["Sono necessari almeno 3 punti per definire un'area."%string]
  /\ forall s' alerts, handleFinishArea s = Returns s' alerts ->
       appState s' = DEFINING_AREA
       /\ currentAreaPoints s' = currentAreaPoints s
       /\ areas s' = areas s.
Proof.
  intros Hst Hlen. unfold handleFinishArea.
  apply Nat.ltb_lt in Hlen. rewrite Hlen. split; [reflexivity|].
  intros s' alerts E. injection E as <- _. auto.
Qed.

Lemma C8_finish_area_rejected_below_three_witness :
  handleFinishArea definingAreaWithTwo
  = Returns definingAreaWithTwo
      ["Sono necessari almeno 3 punti per definire un'area."%string]
  /\ forall s' alerts, handleFinishArea definingAreaWithTwo = Returns s' alerts ->
       appState s' = DEFINING_AREA
       /\ currentAreaPoints s' = currentAreaPoints definingAreaWithTwo
       /\ areas s' = areas definingAreaWithTwo.
Proof.
  apply (C8_finish_area_rejected_below_three definingAreaWithTwo).
  - reflexivity.
  - simpl. lia.
Defined.

(** C9: for two distinct calibration points p1, p2 and a known distance
    d > 0, the second calibration click stores the scale
    [calculateDistance p1 p2 / d], a finite number that is strictly positive. *)
Theorem C9_scale_is_distance_over_known_distance
  (s : State) (p1 p2 : PixelCoords) (rest : list PixelCoords) :
  appState s = CALIBRATE_END ->
  calibrationPoints s = p1 :: rest ->
  p1 <> p2 ->
  0 < knownDistance s ->
  exists s',
    handleImageClick (Some p2) s = Returns s' []
    /\ pixelsPerMeter s'
       = Some (JS.Finite
                 (sqrt ((pixel_x p2 - pixel_x p1) ^ 2 + (pixel_y p2 - pixel_y p1) ^ 2)
                  / knownDistance s))
    /\ 0 < sqrt ((pixel_x p2 - pixel_x p1) ^ 2 + (pixel_y p2 - pixel_y p1) ^ 2)
           / knownDistance s.
Proof.
  intros Hst Hcal Hne Hd.
  assert (E : sqrt ((pixel_x p2 - pixel_x p1) ^ 2 + (pixel_y p2 - pixel_y p1) ^ 2)
              = calculateDistance p1 p2).
  { unfold calculateDistance, JS.pow2. f_equal. ring. }
  rewrite E.
  unfold handleImageClick. rewrite Hst, Hcal.
  eexists. split; [reflexivity|]. split.
  - destruct s; simpl in *. rewrite div_nonzero by lra. reflexivity.
  - apply Rdiv_lt_0_compat; [now apply calculateDistance_pos | exact Hd].
Qed.

Lemma C9_scale_is_distance_over_known_distance_witness :
  exists s',
    handleImageClick (Some (mkPixelCoords 100 0)) afterFirstClick = Returns s' []
    /\ pixelsPerMeter s'
       = Some (JS.Finite (sqrt ((100 - 0) ^ 2 + (0 - 0) ^ 2) / 10))
    /\ 0 < sqrt ((100 - 0) ^ 2 + (0 - 0) ^ 2) / 10.
Proof.
  apply (C9_scale_is_distance_over_known_distance afterFirstClick
           (mkPixelCoords 0 0) (mkPixelCoords 100 0) []).
  - reflexivity.
  - reflexivity.
  - intros H. injection H as H. lra.
  - simpl. lra.
Defined.

(** C10: the guard [appState < AppState.READY] of the mouse-move preview
    compares the enum's strings.  It holds, and the preview is set to null,
    exactly in CALIBRATE_START, CALIBRATE_END, DEFINING_AREA, NAMING_POINT and
    NAMING_AREA; in READY, SET_ORIGIN and UPLOAD_IMAGE the preview is computed
    from the mouse position; in SET_ORIGIN with no origin set yet it is (0, 0)
    wherever the mouse is. *)
Theorem C10_preview_guard_is_lexicographic :
  (forall st : AppState,
      AppState_lt st READY
      = match st with
        | CALIBRATE_START | CALIBRATE_END | DEFINING_AREA
        | NAMING_POINT | NAMING_AREA => true
        | READY | SET_ORIGIN | UPLOAD_IMAGE => false
        end)
  /\ (forall (s : State) (coords : option PixelCoords),
         In (appState s)
            [CALIBRATE_START; CALIBRATE_END; DEFINING_AREA; NAMING_POINT; NAMING_AREA] ->
         mouseRealCoords (handleImageMouseMove coords s) = None)
  /\ (forall (s : State) (c : PixelCoords),
         In (appState s) [READY; SET_ORIGIN; UPLOAD_IMAGE] ->
         mouseRealCoords (handleImageMouseMove (Some c) s)
         = Some (calculateRealCoords s c))
  /\ (forall (s : State) (c : PixelCoords),
         appState s = SET_ORIGIN -> origin s = None ->
         mouseRealCoords (handleImageMouseMove (Some c) s)
         = Some (mkRealCoords 0 0)).
Proof.
  assert (G : forall st : AppState,
             AppState_lt st READY
             = match st with
               | CALIBRATE_START | CALIBRATE_END | DEFINING_AREA
               | NAMING_POINT | NAMING_AREA => true
               | READY | SET_ORIGIN | UPLOAD_IMAGE => false
               end)
    by (intros []; reflexivity).
  split; [exact G|]. split; [|split].
  - intros s coords Hin. unfold handleImageMouseMove. rewrite G.
    destruct s as [st ? ? ? ? ? ? ? ? ? ? ? ? ? ?]; simpl in *.
    destruct Hin as [<-|[<-|[<-|[<-|[<-|[]]]]]]; reflexivity.
  - intros s c Hin. unfold handleImageMouseMove. rewrite G.
    destruct s as [st ? ? ? ? ? ? ? ? ? ? ? ? ? ?]; simpl in *.
    destruct Hin as [<-|[<-|[<-|[]]]]; reflexivity.
  - intros s c Hst Ho. unfold handleImageMouseMove. rewrite G, Hst.
    rewrite (calculateRealCoords_unset s c) by (left; exact Ho).
    destruct s; reflexivity.
Qed.

Lemma C10_preview_guard_is_lexicographic_witness :
  mouseRealCoords (handleImageMouseMove (Some (mkPixelCoords 7 9)) awaitingOrigin)
  = Some (mkRealCoords 0 0)
  /\ mouseRealCoords (handleImageMouseMove (Some (mkPixelCoords 7 9)) afterFirstClick)
     = None.
Proof.
  destruct C10_preview_guard_is_lexicographic as [_ [Hnull [_ Hzero]]].
  split.
  - apply Hzero; reflexivity.
  - apply Hnull. simpl. right. left. reflexivity.
Defined.

(** ** Further properties of the code *)

(** X1: the pixel distance is symmetric, never negative, and 0 only between a
    pixel and itself; hence the scale that the two calibration clicks store
    does not depend on the order in which the two points are clicked. *)
Theorem X1_scale_independent_of_click_order (s : State) (p q : PixelCoords) :
  appState s = CALIBRATE_START ->
  (0 <= calculateDistance p q
   /\ calculateDistance p q = calculateDistance q p
   /\ (calculateDistance p q = 0 <-> p = q))
  /\ exists s1 s2,
       Returns s [] >>> handleImageClick (Some p) >>> handleImageClick (Some q)
       = Returns s1 []
       /\ Returns s [] >>> handleImageClick (Some q) >>> handleImageClick (Some p)
          = Returns s2 []
       /\ pixelsPerMeter s1 = pixelsPerMeter s2
       /\ appState s1 = SET_ORIGIN /\ appState s2 = SET_ORIGIN.
Proof.
  intros Hst. split.
  - split; [apply calculateDistance_nonneg|].
    split; [apply calculateDistance_sym|].
    split; [apply calculateDistance_zero | intros ->; apply calculateDistance_same].
  - unfold andThen, handleImageClick. rewrite Hst.
    destruct s; simpl in *. do 2 eexists.
    split; [reflexivity|]. split; [reflexivity|]. simpl.
    rewrite (calculateDistance_sym p q). repeat split.
Qed.

Lemma X1_scale_independent_of_click_order_witness :
  exists s1 s2,
    Returns imageLoaded [] >>> handleImageClick (Some (mkPixelCoords 0 0))
    >>> handleImageClick (Some (mkPixelCoords 100 0)) = Returns s1 []
    /\ Returns imageLoaded [] >>> handleImageClick (Some (mkPixelCoords 100 0))
       >>> handleImageClick (Some (mkPixelCoords 0 0)) = Returns s2 []
    /\ pixelsPerMeter s1 = pixelsPerMeter s2
    /\ appState s1 = SET_ORIGIN /\ appState s2 = SET_ORIGIN.
Proof.
  apply (X1_scale_independent_of_click_order imageLoaded
           (mkPixelCoords 0 0) (mkPixelCoords 100 0)).
  reflexivity.
Defined.

(** X2: with the origin set and a finite scale other than 0, the distance of
    a pixel is its pixel distance from the origin divided by the absolute
    value of the scale; it is 0 for the origin pixel only. *)
Theorem X2_distance_is_pixel_distance_over_scale
  (s : State) (o p : PixelCoords) (scale : R) :
  origin s = Some o -> pixelsPerMeter s = Some (JS.Finite scale) -> scale <> 0 ->
  pd_distance (calculatePointData s p) = calculateDistance o p / Rabs scale
  /\ (pd_distance (calculatePointData s p) = 0 <-> p = o).
Proof.
  intros Ho Hs Hnz.
  pose proof (pointData_distance s o p scale Ho Hs Hnz) as E.
  split; [exact E|]. rewrite E.
  assert (Hak : 0 < Rabs scale) by now apply Rabs_pos_lt.
  split.
  - intros H0. symmetry. apply calculateDistance_zero.
    apply (Rmult_eq_reg_r (/ Rabs scale)).
    + unfold Rdiv in H0. rewrite H0. ring.
    + apply Rinv_neq_0_compat. lra.
  - intros ->. rewrite calculateDistance_same. unfold Rdiv. ring.
Qed.

Lemma X2_distance_is_pixel_distance_over_scale_witness :
  pd_distance (calculatePointData scenarioSession (mkPixelCoords 150 50))
  = calculateDistance (mkPixelCoords 50 50) (mkPixelCoords 150 50) / Rabs 10
  /\ (pd_distance (calculatePointData scenarioSession (mkPixelCoords 150 50)) = 0
      <-> mkPixelCoords 150 50 = mkPixelCoords 50 50).
Proof.
  apply (X2_distance_is_pixel_distance_over_scale scenarioSession
           (mkPixelCoords 50 50) (mkPixelCoords 150 50) 10);
    [reflexivity | reflexivity | lra].
Defined.

(** X3: the calibration reproduces the known distance.  After the second
    calibration click on a point other than the first, with a known distance
    other than 0, and the origin click on the first calibration point, the
    second calibration point lies at the distance |knownDistance| and the
    first one at the real position (0, 0). *)
Theorem X3_calibration_reproduces_known_distance
  (s : State) (p1 p2 : PixelCoords) (rest : list PixelCoords) :
  appState s = CALIBRATE_END ->
  calibrationPoints s = p1 :: rest ->
  p1 <> p2 ->
  knownDistance s <> 0 ->
  exists s',
    Returns s [] >>> handleImageClick (Some p2) >>> handleImageClick (Some p1)
    = Returns s' []
    /\ appState s' = READY
    /\ pd_distance (calculatePointData s' p2) = Rabs (knownDistance s)
    /\ pd_realCoords (calculatePointData s' p1) = mkRealCoords 0 0.
Proof.
  intros Hst Hcal Hne Hd.
  pose proof (calculateDistance_pos p1 p2 Hne) as HD.
  set (D := calculateDistance p1 p2) in *.
  set (d := knownDistance s) in *.
  assert (Hscale : D / d <> 0).
  { unfold Rdiv. apply Rmult_integral_contrapositive_currified; [lra|].
    now apply Rinv_neq_0_compat. }
  assert (E : Returns s [] >>> handleImageClick (Some p2)
               >>> handleImageClick (Some p1)
               = Returns
                   (setAppState READY
                      (setOrigin (Some p1)
                         (setAppState SET_ORIGIN
                            (setCalibrationPoints ((p1 :: rest) ++ [p2])
                               (setPixelsPerMeter (Some (JS.Finite (D / d))) s)))))
                   []).
  { unfold andThen, handleImageClick. rewrite Hst, Hcal.
    fold D. fold d. rewrite (div_nonzero D d Hd).
    break_state s. reflexivity. }
  eexists. split; [exact E|].
  split; [break_state s; reflexivity|].
  match goal with
  | |- pd_distance (calculatePointData ?t _) = _ /\ _ =>
      assert (Ho : origin t = Some p1) by (break_state s; reflexivity);
      assert (Hp : pixelsPerMeter t = Some (JS.Finite (D / d)))
        by (break_state s; reflexivity)
  end.
  split.
  - rewrite (pointData_distance _ p1 p2 (D / d) Ho Hp Hscale). fold D.
    unfold Rdiv at 2. rewrite Rabs_mult, (Rabs_pos_eq D) by lra.
    rewrite Rabs_inv. field. split; [apply Rabs_no_R0; exact Hd | lra].
  - unfold calculatePointData. cbn [pd_realCoords].
    rewrite (calculateRealCoords_finite _ p1 p1 (D / d) Ho Hp Hscale).
    f_equal; field; split; assumption || lra.
Qed.

Lemma X3_calibration_reproduces_known_distance_witness :
  exists s',
    Returns afterFirstClick [] >>> handleImageClick (Some (mkPixelCoords 100 0))
    >>> handleImageClick (Some (mkPixelCoords 0 0)) = Returns s' []
    /\ appState s' = READY
    /\ pd_distance (calculatePointData s' (mkPixelCoords 100 0))
       = Rabs (knownDistance afterFirstClick)
    /\ pd_realCoords (calculatePointData s' (mkPixelCoords 0 0)) = mkRealCoords 0 0.
Proof.
  apply (X3_calibration_reproduces_known_distance afterFirstClick
           (mkPixelCoords 0 0) (mkPixelCoords 100 0) []).
  - reflexivity.
  - reflexivity.
  - intros H. injection H as H. lra.
  - simpl. lra.
Defined.

(** X4: with the origin set and a finite scale other than 0 the pixel is
    recovered from its real coordinates, as origin.x + x * scale and
    origin.y - y * scale; two pixels with the same real coordinates are the
    same pixel. *)
Theorem X4_pixel_recovered_from_real_coords
  (s : State) (o : PixelCoords) (scale : R) :
  origin s = Some o -> pixelsPerMeter s = Some (JS.Finite scale) -> scale <> 0 ->
  (forall p,
      pixel_x p = pixel_x o + real_x (calculateRealCoords s p) * scale
      /\ pixel_y p = pixel_y o - real_y (calculateRealCoords s p) * scale)
  /\ (forall p q, calculateRealCoords s p = calculateRealCoords s q -> p = q).
Proof.
  intros Ho Hs Hnz.
  assert (R1 : forall p,
             pixel_x p = pixel_x o + real_x (calculateRealCoords s p) * scale
             /\ pixel_y p = pixel_y o - real_y (calculateRealCoords s p) * scale).
  { intros p. rewrite (calculateRealCoords_finite s o p scale Ho Hs Hnz).
    cbn [real_x real_y]. split; field; exact Hnz. }
  split; [exact R1|].
  intros p q E. destruct (R1 p) as [Hx Hy]. destruct (R1 q) as [Hx' Hy'].
  rewrite E in Hx, Hy. destruct p, q; simpl in *. f_equal; lra.
Qed.

Lemma X4_pixel_recovered_from_real_coords_witness :
  (forall p,
      pixel_x p
      = pixel_x (mkPixelCoords 50 50)
        + real_x (calculateRealCoords scenarioSession p) * 10
      /\ pixel_y p
         = pixel_y (mkPixelCoords 50 50)
           - real_y (calculateRealCoords scenarioSession p) * 10)
  /\ (forall p q,
         calculateRealCoords scenarioSession p = calculateRealCoords scenarioSession q ->
         p = q).
Proof.
  apply (X4_pixel_recovered_from_real_coords scenarioSession (mkPixelCoords 50 50) 10);
    [reflexivity | reflexivity | lra].
Defined.

(** X5: with a positive finite scale the real x grows to the right of the
    image and the real y grows upwards (against the pixel y); with a negative
    scale, which a negative known distance gives, both are reversed. *)
Theorem X5_orientation_of_real_axes
  (s : State) (o : PixelCoords) (scale : R) (p q : PixelCoords) :
  origin s = Some o -> pixelsPerMeter s = Some (JS.Finite scale) -> scale <> 0 ->
  (0 < scale ->
   (pixel_x p < pixel_x q <->
    real_x (calculateRealCoords s p) < real_x (calculateRealCoords s q))
   /\ (pixel_y p < pixel_y q <->
       real_y (calculateRealCoords s q) < real_y (calculateRealCoords s p)))
  /\ (scale < 0 ->
      (pixel_x p < pixel_x q <->
       real_x (calculateRealCoords s q) < real_x (calculateRealCoords s p))
      /\ (pixel_y p < pixel_y q <->
          real_y (calculateRealCoords s p) < real_y (calculateRealCoords s q))).
Proof.
  intros Ho Hs Hnz.
  rewrite !(calculateRealCoords_finite s o _ scale Ho Hs Hnz). cbn [real_x real_y].
  assert (Hinv : / scale <> 0) by now apply Rinv_neq_0_compat.
  unfold Rdiv. split; intros Hsgn.
  - assert (Hi : 0 < / scale) by now apply Rinv_0_lt_compat.
    split; split; intros H; nra.
  - assert (Hi : / scale < 0) by now apply Rinv_lt_0_compat.
    split; split; intros H; nra.
Qed.

Lemma X5_orientation_of_real_axes_witness :
  (pixel_x (mkPixelCoords 40 60) < pixel_x (mkPixelCoords 150 50) <->
   real_x (calculateRealCoords scenarioSession (mkPixelCoords 40 60))
   < real_x (calculateRealCoords scenarioSession (mkPixelCoords 150 50)))
  /\ (pixel_y (mkPixelCoords 40 60) < pixel_y (mkPixelCoords 150 50) <->
      real_y (calculateRealCoords scenarioSession (mkPixelCoords 150 50))
      < real_y (calculateRealCoords scenarioSession (mkPixelCoords 40 60))).
Proof.
  destruct (X5_orientation_of_real_axes scenarioSession (mkPixelCoords 50 50) 10
              (mkPixelCoords 40 60) (mkPixelCoords 150 50)) as [Hpos _];
    [reflexivity | reflexivity | lra |].
  apply Hpos. lra.
Defined.

(** X6: a scale of 0, NaN or an infinity collapses the map: every pixel has
    the real coordinates (0, 0) and the distance 0.  A known distance of 0
    gives such a scale whatever the two calibration clicks. *)
Theorem X6_degenerate_scale_collapses_map :
  (forall (s : State) (p : PixelCoords),
      pixelsPerMeter s = Some (JS.Finite 0) \/ pixelsPerMeter s = Some JS.NaN
      \/ pixelsPerMeter s = Some JS.PosInfinity
      \/ pixelsPerMeter s = Some JS.NegInfinity ->
      pd_realCoords (calculatePointData s p) = mkRealCoords 0 0
      /\ pd_distance (calculatePointData s p) = 0)
  /\ (forall (s : State) (p1 p2 : PixelCoords) (rest : list PixelCoords),
         appState s = CALIBRATE_END -> calibrationPoints s = p1 :: rest ->
         knownDistance s = 0 ->
         exists s', handleImageClick (Some p2) s = Returns s' []
                    /\ (pixelsPerMeter s' = Some JS.NaN
                        \/ pixelsPerMeter s' = Some JS.PosInfinity)).
Proof.
  split.
  - intros s p H. unfold calculatePointData. cbn [pd_realCoords pd_distance].
    rewrite (calculateRealCoords_collapsed s p H). split; [reflexivity|].
    rewrite distance_of_real_coords. cbn [real_x real_y].
    replace (0 * 0 + 0 * 0) with 0 by ring. apply sqrt_0.
  - intros s p1 p2 rest Hst Hcal Hd. unfold handleImageClick.
    rewrite Hst, Hcal, Hd. eexists. split; [reflexivity|].
    assert (E : forall v t, pixelsPerMeter
                   (setAppState SET_ORIGIN
                      (setCalibrationPoints t (setPixelsPerMeter v s))) = v)
      by (intros; destruct s; reflexivity).
    rewrite E. destruct (Req_dec_T (calculateDistance p1 p2) 0) as [Z|NZ].
    + left. rewrite Z, div_zero_by_zero. reflexivity.
    + right. rewrite div_pos_by_zero; [reflexivity|].
      pose proof (calculateDistance_nonneg p1 p2). lra.
Qed.

Lemma X6_degenerate_scale_collapses_map_witness :
  (pd_realCoords (calculatePointData degenerateSession (mkPixelCoords 150 50))
   = mkRealCoords 0 0
   /\ pd_distance (calculatePointData degenerateSession (mkPixelCoords 150 50)) = 0)
  /\ exists s',
       handleImageClick (Some (mkPixelCoords 100 0))
         (setKnownDistance 0 afterFirstClick) = Returns s' []
       /\ (pixelsPerMeter s' = Some JS.NaN
           \/ pixelsPerMeter s' = Some JS.PosInfinity).
Proof.
  destruct X6_degenerate_scale_collapses_map as [Hcollapse Hzero].
  split.
  - apply Hcollapse. left. reflexivity.
  - apply (Hzero (setKnownDistance 0 afterFirstClick) (mkPixelCoords 0 0)
             (mkPixelCoords 100 0) []); reflexivity.
Defined.

(** X7: where the bearing falls.  It is always strictly between -360 and
    360, it is in [0, 360) whenever the reference direction is at most 180,
    and for a reference direction set by the compass it is never below -90.
    With angleDeg the raw angle of the position in degrees, and for a
    position off the half line x = 0, y <= 0 (on which the platform's zeros
    have a sign that decides between the angles 0, 180 and -180), the bearing
    is in [0, 360) whenever rotation <= angleDeg + 360, and it is the negative
    number angleDeg - rotation + 360 whenever
    angleDeg + 360 < rotation < angleDeg + 720. *)
Theorem X7_bearing_range (rc : RealCoords) (rotation : R) :
  let angleDeg := JS.atan2 (real_x rc) (real_y rc) * (180 / PI) in
  let b := db_bearing (calculateDistanceAndBearing rc rotation) in
  -360 < b < 360
  /\ (rotation <= 180 -> 0 <= b < 360)
  /\ (forall clientX clientY centerX centerY,
         rotation = compassAngleDeg clientX clientY centerX centerY ->
         -90 <= b < 360)
  /\ (real_x rc <> 0 \/ 0 < real_y rc ->
      (rotation <= angleDeg + 360 -> 0 <= b < 360)
      /\ (angleDeg + 360 < rotation < angleDeg + 720 ->
          b = angleDeg - rotation + 360 /\ b < 0)).
Proof.
  intros angleDeg b.
  pose proof (angleDeg_range (real_x rc) (real_y rc)) as Ha. fold angleDeg in Ha.
  assert (Eb : b = JS.rem (angleDeg - rotation + 360) 360) by reflexivity.
  assert (Hnonneg : rotation <= angleDeg + 360 -> 0 <= b < 360).
  { intros H. rewrite Eb. apply JSFacts.rem_of_nonneg; lra. }
  assert (Hneg : angleDeg + 360 < rotation < angleDeg + 720 ->
                 b = angleDeg - rotation + 360 /\ b < 0).
  { intros H. rewrite Eb. rewrite JSFacts.rem_small_neg by lra. split; lra. }
  split; [apply bearing_in_open_range|].
  split; [intros H; apply Hnonneg; lra|].
  split; [|intros _; split; [exact Hnonneg | exact Hneg]].
  intros clientX clientY centerX centerY Hrot.
  pose proof (angleDeg_range (clientY - centerY) (clientX - centerX)) as Hc.
  unfold compassAngleDeg in Hrot.
  destruct (Rle_dec rotation (angleDeg + 360)) as [Hle|Hgt].
  - pose proof (Hnonneg Hle). lra.
  - destruct Hneg as [Hb _]; lra.
Qed.

Lemma X7_bearing_range_witness :
  0 <= db_bearing (calculateDistanceAndBearing (mkRealCoords 10 0) 0) < 360.
Proof.
  destruct (X7_bearing_range (mkRealCoords 10 0) 0) as [_ [H180 _]].
  apply H180. lra.
Defined.

(** X8: the angle that the compass drag stores.  It is in (-90, 270]; a
    pointer straight above the centre of the compass gives 0 (north up), one
    to its right 90, one below it 180 and one to its left 270. *)
Theorem X8_compass_angle (centerX centerY d : R) :
  0 < d ->
  (forall clientX clientY,
      -90 < compassAngleDeg clientX clientY centerX centerY <= 270)
  /\ compassAngleDeg centerX (centerY - d) centerX centerY = 0
  /\ compassAngleDeg (centerX + d) centerY centerX centerY = 90
  /\ compassAngleDeg centerX (centerY + d) centerX centerY = 180
  /\ compassAngleDeg (centerX - d) centerY centerX centerY = 270.
Proof.
  intros Hd. pose proof PI_neq0 as Hpi.
  split.
  { intros clientX clientY. unfold compassAngleDeg.
    pose proof (angleDeg_range (clientY - centerY) (clientX - centerX)). lra. }
  unfold compassAngleDeg. repeat split.
  - replace (centerY - d - centerY) with (- d) by ring.
    replace (centerX - centerX) with 0 by ring.
    rewrite JSFacts.atan2_zero_x_neg_y by lra. field. exact Hpi.
  - replace (centerY - centerY) with 0 by ring.
    replace (centerX + d - centerX) with d by ring.
    rewrite JSFacts.atan2_pos_x by lra.
    replace (0 / d) with 0 by (field; lra). rewrite atan_0. ring.
  - replace (centerY + d - centerY) with d by ring.
    replace (centerX - centerX) with 0 by ring.
    rewrite JSFacts.atan2_zero_x_pos_y by lra. field. exact Hpi.
  - replace (centerY - centerY) with 0 by ring.
    replace (centerX - d - centerX) with (- d) by ring.
    rewrite JSFacts.atan2_neg_x_nonneg_y by lra.
    replace (0 / - d) with 0 by (field; lra). rewrite atan_0. field. exact Hpi.
Qed.

Lemma X8_compass_angle_witness :
  (forall clientX clientY, -90 < compassAngleDeg clientX clientY 64 64 <= 270)
  /\ compassAngleDeg 64 (64 - 10) 64 64 = 0
  /\ compassAngleDeg (64 + 10) 64 64 64 = 90
  /\ compassAngleDeg 64 (64 + 10) 64 64 = 180
  /\ compassAngleDeg (64 - 10) 64 64 64 = 270.
Proof. apply (X8_compass_angle 64 64 10). lra. Defined.

(** X9: the bearing is a true direction.  Whatever the reference direction,
    and also when the bearing is negative, the position lies at its distance
    in the direction (bearing + rotation) degrees, counted clockwise from the
    positive y axis: x = distance * sin, y = distance * cos. *)
Theorem X9_bearing_is_the_direction (rc : RealCoords) (rotation : R) :
  let db := calculateDistanceAndBearing rc rotation in
  let direction := (db_bearing db + rotation) * (PI / 180) in
  real_x rc = db_distance db * sin direction
  /\ real_y rc = db_distance db * cos direction.
Proof.
  intros db direction. pose proof PI_neq0 as Hpi.
  set (raw := JS.atan2 (real_x rc) (real_y rc)).
  set (k := (1 - JS.trunc ((raw * (180 / PI) - rotation + 360) / 360))%Z).
  assert (Ed : direction = raw + 2 * IZR k * PI).
  { unfold direction, db, calculateDistanceAndBearing, JS.rem, k.
    cbn [db_bearing]. fold raw. rewrite minus_IZR. field. exact Hpi. }
  rewrite Ed, sin_period_Z, cos_period_Z.
  destruct (JSFacts.atan2_polar (real_x rc) (real_y rc)) as [Hcos Hsin].
  fold raw in Hcos, Hsin.
  assert (Edist : db_distance db
                  = sqrt (real_y rc * real_y rc + real_x rc * real_x rc)).
  { unfold db. rewrite distance_of_real_coords. f_equal. ring. }
  rewrite Edist. split; assumption.
Qed.

(** X10: the bearing does not depend on the scale.  With the origin set and a
    positive finite scale, the bearing of a pixel is the one of its pixel
    offset from the origin (x to the right, y upwards), so that two sessions
    with the same origin and reference direction give a pixel the same
    bearing whatever their positive scales. *)
Theorem X10_bearing_independent_of_scale
  (s : State) (o p : PixelCoords) (scale : R) :
  origin s = Some o -> pixelsPerMeter s = Some (JS.Finite scale) -> 0 < scale ->
  pd_bearing (calculatePointData s p)
  = db_bearing
      (calculateDistanceAndBearing
         (mkRealCoords (pixel_x p - pixel_x o) (pixel_y o - pixel_y p))
         (northRotation s)).
Proof.
  intros Ho Hs Hpos.
  unfold calculatePointData. cbn [pd_bearing].
  rewrite (calculateRealCoords_finite s o p scale Ho Hs) by lra.
  unfold calculateDistanceAndBearing. cbn [db_bearing real_x real_y].
  assert (Hi : 0 < / scale) by now apply Rinv_0_lt_compat.
  replace ((pixel_x p - pixel_x o) / scale)
    with (/ scale * (pixel_x p - pixel_x o)) by (unfold Rdiv; ring).
  replace ((pixel_y o - pixel_y p) / scale)
    with (/ scale * (pixel_y o - pixel_y p)) by (unfold Rdiv; ring).
  rewrite (atan2_scale (/ scale) _ _ Hi). reflexivity.
Qed.

Lemma X10_bearing_independent_of_scale_witness :
  pd_bearing (calculatePointData scenarioSession (mkPixelCoords 150 50))
  = db_bearing
      (calculateDistanceAndBearing
         (mkRealCoords (pixel_x (mkPixelCoords 150 50) - pixel_x (mkPixelCoords 50 50))
            (pixel_y (mkPixelCoords 50 50) - pixel_y (mkPixelCoords 150 50)))
         (northRotation scenarioSession)).
Proof.
  apply (X10_bearing_independent_of_scale scenarioSession (mkPixelCoords 50 50)
           (mkPixelCoords 150 50) 10); [reflexivity | reflexivity | lra].
Defined.

(** X11: the area does not change when every vertex is moved by the same
    vector, and it is multiplied by k * k when every coordinate is multiplied
    by k. *)
Theorem X11_area_under_translation_and_scaling (coords : list RealCoords) :
  (forall a b,
      calculatePolygonArea
        (map (fun p => mkRealCoords (real_x p + a) (real_y p + b)) coords)
      = calculatePolygonArea coords)
  /\ (forall k,
         calculatePolygonArea
           (map (fun p => mkRealCoords (k * real_x p) (k * real_y p)) coords)
         = k * k * calculatePolygonArea coords).
Proof.
  split.
  - intros a b.
    rewrite (area_map_affine
               (fun p => mkRealCoords (real_x p + a) (real_y p + b))
               (fun p => p)
               (fun p => b * real_x p - a * real_y p) 1).
    + rewrite map_id, Rabs_R1. ring.
    + intros p q. unfold Shoelace.cross. simpl. ring.
  - intros k.
    rewrite (area_map_affine
               (fun p => mkRealCoords (k * real_x p) (k * real_y p))
               (fun p => p) (fun _ => 0) (k * k)).
    + rewrite map_id. f_equal. apply Rabs_pos_eq. apply Rle_0_sqr.
    + intros p q. unfold Shoelace.cross. simpl. ring.
Qed.

(** X12: the area of a polygon clicked on the image.  With the origin set and
    a finite scale other than 0, the area of the real positions of a list of
    pixels is the area of the pixel polygon divided by the square of the
    scale; it does not depend on where the origin is. *)
Theorem X12_real_area_is_pixel_area_over_scale_squared
  (s : State) (o : PixelCoords) (scale : R) (pixels : list PixelCoords) :
  origin s = Some o -> pixelsPerMeter s = Some (JS.Finite scale) -> scale <> 0 ->
  calculatePolygonArea (map (calculateRealCoords s) pixels)
  = calculatePolygonArea
      (map (fun p => mkRealCoords (pixel_x p) (pixel_y p)) pixels)
    / (scale * scale).
Proof.
  intros Ho Hs Hnz. now apply polygon_area_of_pixels with (o := o).
Qed.

Lemma X12_real_area_is_pixel_area_over_scale_squared_witness :
  calculatePolygonArea
    (map (calculateRealCoords scenarioSession)
       [mkPixelCoords 50 50; mkPixelCoords 150 50;
        mkPixelCoords 150 150; mkPixelCoords 50 150])
  = calculatePolygonArea
      (map (fun p => mkRealCoords (pixel_x p) (pixel_y p))
         [mkPixelCoords 50 50; mkPixelCoords 150 50;
          mkPixelCoords 150 150; mkPixelCoords 50 150])
    / (10 * 10).
Proof.
  apply (X12_real_area_is_pixel_area_over_scale_squared scenarioSession
           (mkPixelCoords 50 50) 10); [reflexivity | reflexivity | lra].
Defined.

(** X13: for three vertices a, b, c the area is
    |(b.x - a.x) * (c.y - a.y) - (c.x - a.x) * (b.y - a.y)| / 2, the area of
    the triangle; it is 0 when the third vertex lies on the line through the
    first two. *)
Theorem X13_triangle_area (a b c : RealCoords) :
  calculatePolygonArea [a; b; c]
  = Rabs ((real_x b - real_x a) * (real_y c - real_y a)
          - (real_x c - real_x a) * (real_y b - real_y a)) / 2
  /\ (forall t,
         calculatePolygonArea
           [a; b; mkRealCoords (real_x a + t * (real_x b - real_x a))
                    (real_y a + t * (real_y b - real_y a))] = 0).
Proof.
  assert (T : forall a b c,
             calculatePolygonArea [a; b; c]
             = Rabs ((real_x b - real_x a) * (real_y c - real_y a)
                     - (real_x c - real_x a) * (real_y b - real_y a)) / 2).
  { intros u v w. rewrite ShoelaceFacts.calculatePolygonArea_closed.
    unfold Shoelace.closed, Shoelace.chain, Shoelace.cross. simpl.
    rewrite ShoelaceFacts.Rabs_half. do 2 f_equal. ring. }
  split; [apply T|].
  intros t. rewrite T. simpl.
  replace (_ - _) with 0 by ring. rewrite Rabs_R0. unfold Rdiv. ring.
Qed.







(** X17: a name that is not blank is always accepted for a point.  In every
    session whose naming dialog of a point is open, confirming a name that
    is not made of white space only saves one point at the end of the list,
    under the trimmed name, at the clicked pixel, with the real coordinates
    of that pixel, and the session is READY again. *)
Theorem X17_confirmed_point_is_saved (s : State) :
  Reachable s -> appState s = NAMING_POINT -> blank (newPointName s) = false ->
  exists s' c p,
    dispatch NamingSave s = Returns s' []
    /\ tempPoint s = Some c
    /\ points s' = points s ++ [p]
    /\ name p = JS.trim (newPointName s)
    /\ pixelCoords p = c
    /\ realCoords p = calculateRealCoords s c
    /\ appState s' = READY /\ tempPoint s' = None
    /\ areas s' = areas s.
Proof.
  intros Hr Hst Hb.
  destruct (reachable_stored s Hr) as (_ & _ & S3 & _).
  destruct (reachable_invariant s Hr) as [(W1 & _) _].
  specialize (S3 Hst).
  destruct (tempPoint s) as [c|] eqn:Htp; [|contradiction].
  assert (Hn : JS.trim (newPointName s) <> EmptyString).
  { intros E. apply trim_empty_iff_blank in E. congruence. }
  destruct (JS.trim (newPointName s)) as [|ch rest] eqn:Htrim; [contradiction|].
  set (p := {| name := String ch rest;
               pixelCoords := c;
               realCoords := pd_realCoords (calculatePointData s c);
               distance := pd_distance (calculatePointData s c);
               bearing := pd_bearing (calculatePointData s c) |}).
  assert (Hh : handler NamingSave s
               = Returns (handleCancelNaming (setPoints (points s ++ [p]) s)) []).
  { simpl handler. rewrite Hst. simpl. unfold handleSavePoint.
    rewrite Htp, Htrim. reflexivity. }
  exists (handleCancelNaming (setPoints (points s ++ [p]) s)), c, p.
  split.
  { apply dispatch_same; [| exact Hh | | |].
    - unfold offered, hasImage, isNaming in *. rewrite Hst in *.
      destruct (imageSrc s); [reflexivity | discriminate].
    - break_state s. simpl in Hst. subst st. reflexivity.
    - break_state s. simpl in Hst. subst st. reflexivity.
    - break_state s. simpl in Hst. subst st. reflexivity. }
  split; [reflexivity|].
  break_state s. simpl in Hst. subst st. repeat split.
Qed.

Lemma X17_confirmed_point_is_saved_witness :
  exists s' c p,
    dispatch NamingSave namingFirstPoint = Returns s' []
    /\ tempPoint namingFirstPoint = Some c
    /\ points s' = points namingFirstPoint ++ [p]
    /\ name p = JS.trim (newPointName namingFirstPoint)
    /\ pixelCoords p = c
    /\ realCoords p = calculateRealCoords namingFirstPoint c
    /\ appState s' = READY /\ tempPoint s' = None
    /\ areas s' = areas namingFirstPoint.
Proof.
  apply (X17_confirmed_point_is_saved namingFirstPoint namingFirstPoint_reachable);
    reflexivity.
Defined.

(** X18: a name that is not blank is always accepted for an area.  In every
    session whose naming dialog of an area is open, confirming a name that is
    not made of white space only saves one area at the end of the list, under
    the trimmed name, with the vertices clicked, measured by
    [calculatePolygonArea]; the vertices in progress are emptied and the
    session is READY again. *)
Theorem X18_confirmed_area_is_saved (s : State) :
  Reachable s -> appState s = NAMING_AREA -> blank (newAreaName s) = false ->
  exists s' a,
    dispatch NamingSave s = Returns s' []
    /\ areas s' = areas s ++ [a]
    /\ area_name a = JS.trim (newAreaName s)
    /\ area_points a = currentAreaPoints s
    /\ realArea a = calculatePolygonArea (map realCoords (currentAreaPoints s))
    /\ appState s' = READY /\ currentAreaPoints s' = []
    /\ points s' = points s.
Proof.
  intros Hr Hst Hb.
  destruct (reachable_stored s Hr) as (_ & _ & _ & S4 & _).
  destruct (reachable_invariant s Hr) as [(W1 & _) _].
  specialize (S4 Hst).
  assert (Hn : JS.trim (newAreaName s) <> EmptyString).
  { intros E. apply trim_empty_iff_blank in E. congruence. }
  destruct (JS.trim (newAreaName s)) as [|ch rest] eqn:Htrim; [contradiction|].
  assert (Hlen : (List.length (currentAreaPoints s) <? 3)%nat = false)
    by (apply Nat.ltb_ge; exact S4).
  set (a := {| area_name := String ch rest;
               area_points := currentAreaPoints s;
               realArea := calculatePolygonArea (map realCoords (currentAreaPoints s)) |}).
  set (s' := setAppState READY
               (setNewAreaName ""
                  (setCurrentAreaPoints [] (setAreas (areas s ++ [a]) s)))).
  assert (Hh : handler NamingSave s = Returns s' []).
  { simpl handler. rewrite Hst. simpl. unfold handleSaveArea.
    rewrite Htrim, Hlen. reflexivity. }
  exists s', a.
  split.
  { apply dispatch_same; [| exact Hh | | |].
    - unfold offered, hasImage, isNaming in *. rewrite Hst in *.
      destruct (imageSrc s); [reflexivity | discriminate].
    - break_state s. reflexivity.
    - break_state s. reflexivity.
    - break_state s. reflexivity. }
  break_state s. repeat split.
Qed.

Lemma X18_confirmed_area_is_saved_witness :
  exists s' a,
    dispatch NamingSave namingTriangle = Returns s' []
    /\ areas s' = areas namingTriangle ++ [a]
    /\ area_name a = JS.trim (newAreaName namingTriangle)
    /\ area_points a = currentAreaPoints namingTriangle
    /\ realArea a
       = calculatePolygonArea (map realCoords (currentAreaPoints namingTriangle))
    /\ appState s' = READY /\ currentAreaPoints s' = []
    /\ points s' = points namingTriangle.
Proof.
  apply (X18_confirmed_area_is_saved namingTriangle namingTriangle_reachable);
    reflexivity.
Defined.



(** X20: who sets the reference direction.  In every session an event that
    changes the reference direction is the reset or a drag of the compass;
    the drag stores the angle of the pointer around the centre of the
    compass, and it is possible in READY and in SET_ORIGIN only: the compass
    is rendered when [appState >= AppState.READY] on the strings, which
    leaves out area mode and the naming dialogs and lets SET_ORIGIN in. *)
Theorem X20_reference_direction_set_by_compass_or_reset
  (s s' : State) (e : Event) (alerts : list string) :
  Reachable s -> dispatch e s = Returns s' alerts ->
  northRotation s' <> northRotation s ->
  e = ResetClick
  \/ exists x y cx cy,
       e = CompassDrag x y cx cy
       /\ northRotation s' = compassAngleDeg x y cx cy
       /\ (appState s = READY \/ appState s = SET_ORIGIN).
Proof.
  intros Hr Hd Hrot.
  destruct (reachable_invariant s Hr) as [(W1 & _) _].
  unfold dispatch in Hd.
  destruct (offered e s) eqn:Hoff; [|injection Hd as <- _; contradiction].
  destruct (handler e s) as [s1 a1|] eqn:Hh; [|discriminate].
  injection Hd as <- _.
  destruct (afterRender_frame s s1) as (_ & _ & _ & F4 & _).
  rewrite F4 in *.
  assert (Hcases : e = ResetClick
                   \/ (exists x y cx cy, e = CompassDrag x y cx cy)
                   \/ (e <> ResetClick /\ forall x y cx cy, e <> CompassDrag x y cx cy)).
  { destruct e; try (right; right; split; [discriminate | intros; discriminate]).
    - right. left. eauto.
    - left. reflexivity. }
  destruct Hcases as [E|[(x & y & cx & cy & E)|[N1 N2]]].
  - left. exact E.
  - right. exists x, y, cx, cy. subst e. split; [reflexivity|].
    simpl in Hh. injection Hh as <- _.
    split; [break_state s; reflexivity|].
    unfold offered in Hoff. rewrite W1 in Hoff.
    destruct (appState s); try discriminate Hoff; auto.
  - exfalso. apply Hrot. exact (handler_keeps_rotation e s s1 a1 Hh N1 N2).
Qed.

Lemma X20_reference_direction_set_by_compass_or_reset_witness :
  CompassDrag (-1) 0 0 0 = ResetClick
  \/ exists x y cx cy,
       CompassDrag (-1) 0 0 0 = CompassDrag x y cx cy
       /\ northRotation (setNorthRotation (compassAngleDeg (-1) 0 0 0) scenarioSession)
          = compassAngleDeg x y cx cy
       /\ (appState scenarioSession = READY \/ appState scenarioSession = SET_ORIGIN).
Proof.
  apply (X20_reference_direction_set_by_compass_or_reset scenarioSession
           (setNorthRotation (compassAngleDeg (-1) 0 0 0) scenarioSession)
           (CompassDrag (-1) 0 0 0) [] scenarioSession_reachable).
  - apply dispatch_no_points; reflexivity.
  - cbn [northRotation setNorthRotation scenarioSession].
    rewrite compass_pointing_left. lra.
Defined.

(** X21: the preview shows what a click saves.  In READY, a click on a pixel
    followed by the confirmation of the proposed name saves one point, named
    Punto n for the n-th place in the list, at that pixel, and its real
    coordinates are the ones that the preview showed for the pointer on that
    pixel. *)
Theorem X21_preview_shows_what_is_saved (s : State) (c : PixelCoords) :
  appState s = READY ->
  exists s' p,
    Returns s [] >>> handleImageClick (Some c) >>> handleSavePoint = Returns s' []
    /\ points s' = points s ++ [p]
    /\ name p = ("Punto " ++ JS.nat_to_string (List.length (points s) + 1))%string
    /\ pixelCoords p = c
    /\ mouseRealCoords (handleImageMouseMove (Some c) s) = Some (realCoords p)
    /\ appState s' = READY.
Proof.
  intros Hst.
  set (n := ("Punto " ++ JS.nat_to_string (List.length (points s) + 1))%string).
  set (s1 := setAppState NAMING_POINT (setNewPointName n (setTempPoint (Some c) s))).
  set (p := {| name := n;
               pixelCoords := c;
               realCoords := pd_realCoords (calculatePointData s1 c);
               distance := pd_distance (calculatePointData s1 c);
               bearing := pd_bearing (calculatePointData s1 c) |}).
  assert (E1 : handleImageClick (Some c) s = Returns s1 [])
    by (unfold handleImageClick; rewrite Hst; reflexivity).
  assert (E2 : handleSavePoint s1
               = Returns (handleCancelNaming (setPoints (points s1 ++ [p]) s1)) []).
  { unfold handleSavePoint.
    assert (Ht : tempPoint s1 = Some c) by (break_state s; reflexivity).
    assert (Hn : JS.trim (newPointName s1) = n).
    { replace (newPointName s1) with n by (break_state s; reflexivity).
      apply trim_default_point_name. }
    rewrite Ht, Hn. subst p. unfold n at 1. reflexivity. }
  exists (handleCancelNaming (setPoints (points s1 ++ [p]) s1)), p.
  split; [unfold andThen; rewrite E1, E2; reflexivity|].
  break_state s. simpl in Hst. subst st. repeat split.
Qed.

Lemma X21_preview_shows_what_is_saved_witness :
  exists s' p,
    Returns scenarioSession [] >>> handleImageClick (Some (mkPixelCoords 150 50))
    >>> handleSavePoint = Returns s' []
    /\ points s' = points scenarioSession ++ [p]
    /\ name p
       = ("Punto " ++ JS.nat_to_string (List.length (points scenarioSession) + 1))%string
    /\ pixelCoords p = mkPixelCoords 150 50
    /\ mouseRealCoords (handleImageMouseMove (Some (mkPixelCoords 150 50)) scenarioSession)
       = Some (realCoords p)
    /\ appState s' = READY.
Proof.
  apply (X21_preview_shows_what_is_saved scenarioSession (mkPixelCoords 150 50)).
  reflexivity.
Defined.

(** X22: deleting a row.  [handleDeletePoint] and [handleDeleteArea] store
    the list that the filter [(_, i) => i !== index] gives: the rows before
    the index stay where they are, the rows after it move up by one, and an
    index past the end of the list removes nothing. *)
Theorem X22_delete_removes_one_row (index : nat) (s : State) :
  points (handleDeletePoint index s) = filterOutIndex index (points s)
  /\ areas (handleDeleteArea index s) = filterOutIndex index (areas s)
  /\ (forall i,
        nth_error (points (handleDeletePoint index s)) i
        = if (i <? index)%nat then nth_error (points s) i
          else nth_error (points s) (S i))
  /\ (forall i,
        nth_error (areas (handleDeleteArea index s)) i
        = if (i <? index)%nat then nth_error (areas s) i
          else nth_error (areas s) (S i))
  /\ List.length (points (handleDeletePoint index s))
     = (if (index <? List.length (points s))%nat
        then List.length (points s) - 1 else List.length (points s))%nat
  /\ List.length (areas (handleDeleteArea index s))
     = (if (index <? List.length (areas s))%nat
        then List.length (areas s) - 1 else List.length (areas s))%nat.
Proof.
  assert (Hp : points (handleDeletePoint index s) = filterOutIndex index (points s))
    by (break_state s; apply remove_at_is_filter).
  assert (Ha : areas (handleDeleteArea index s) = filterOutIndex index (areas s))
    by (break_state s; apply remove_at_is_filter).
  rewrite Hp, Ha.
  split; [reflexivity|]. split; [reflexivity|].
  split; [intros i; apply filterOutIndex_nth|].
  split; [intros i; apply filterOutIndex_nth|].
  split; apply filterOutIndex_length.
Qed.

(** X23: a blank name is never stored.  With a name made of white space only
    (or empty), confirming a point, confirming an area and saving a rename
    of a point or of an area all leave the session as it is. *)
Theorem X23_blank_names_rejected (s : State) (n : string) (i : option nat) :
  blank n = true ->
  handleSavePoint (setNewPointName n s) = Returns (setNewPointName n s) []
  /\ handleSaveArea (setNewAreaName n s) = setNewAreaName n s
  /\ handleSaveEdit i n s = Returns s []
  /\ handleSaveEditArea i n s = Returns s [].
Proof.
  intros Hb. apply trim_empty_iff_blank in Hb.
  unfold handleSavePoint, handleSaveArea, handleSaveEdit, handleSaveEditArea.
  replace (newPointName (setNewPointName n s)) with n by (break_state s; reflexivity).
  replace (newAreaName (setNewAreaName n s)) with n by (break_state s; reflexivity).
  rewrite Hb.
  split; [destruct (tempPoint (setNewPointName n s)); reflexivity|].
  split; [reflexivity|].
  split; destruct i; reflexivity.
Qed.

Lemma X23_blank_names_rejected_witness :
  handleSavePoint (setNewPointName "   " namingFirstPoint)
  = Returns (setNewPointName "   " namingFirstPoint) []
  /\ handleSaveArea (setNewAreaName "   " namingFirstPoint)
     = setNewAreaName "   " namingFirstPoint
  /\ handleSaveEdit (Some 0%nat) "   " namingFirstPoint = Returns namingFirstPoint []
  /\ handleSaveEditArea (Some 0%nat) "   " namingFirstPoint
     = Returns namingFirstPoint [].
Proof.
  apply (X23_blank_names_rejected namingFirstPoint "   " (Some 0%nat)).
  reflexivity.
Defined.

(** X24: the grid of the map view.  With the origin set and a positive finite
    scale, in every arithmetic in which a round of a loop moves its counter
    by a fixed gap at least (on the numbers up to a bound that covers the
    origin and the size of the image), the four loops that lay the tick
    marks end, and the marks lie strictly between the origin and the edge of
    the image on each half axis.  In exact arithmetic the marks are, on each
    half axis, the pixels at k times 10 units from the origin, k = 1, 2,
    ..., that lie strictly inside the image, and no other; the k-th marks of
    the axes pointing right and up are at the real coordinates 10 k.  (In
    double precision a step below half the gap between neighbouring numbers
    leaves the counter where it is, and the loop does not end: lemma
    [ticksBelowWith_stuck].) *)
Theorem X24_grid_marks_every_ten_units
  (s : State) (o : PixelCoords) (scale width height : R)
  (plus minus : R -> R -> R) (gap bound : R) :
  origin s = Some o -> pixelsPerMeter s = Some (JS.Finite scale) -> 0 < scale ->
  0 < gap ->
  Rabs (pixel_x o) <= bound -> Rabs (pixel_y o) <= bound ->
  width <= bound -> height <= bound ->
  (forall i, Rabs i <= bound -> plus i (10 * scale) >= i + gap) ->
  (forall i, Rabs i <= bound -> minus i (10 * scale) <= i - gap) ->
  exists fuel g,
    (forall fuel', (fuel <= fuel')%nat ->
       gridTicksWith plus minus fuel' o scale width height = Some g)
    /\ Forall (fun t => pixel_x o < t < width) (ticksXPos g)
    /\ Forall (fun t => 0 < t < pixel_x o) (ticksXNeg g)
    /\ Forall (fun t => 0 < t < pixel_y o) (ticksYPos g)
    /\ Forall (fun t => pixel_y o < t < height) (ticksYNeg g)
    /\ ((forall i, plus i (10 * scale) = i + 10 * scale) ->
        (forall i, minus i (10 * scale) = i - 10 * scale) ->
        (forall t, In t (ticksXPos g) <->
           exists k : nat, (1 <= k)%nat
                           /\ t = pixel_x o + INR k * (10 * scale) /\ t < width)
        /\ (forall t, In t (ticksXNeg g) <->
              exists k : nat, (1 <= k)%nat
                              /\ t = pixel_x o - INR k * (10 * scale) /\ t > 0)
        /\ (forall t, In t (ticksYPos g) <->
              exists k : nat, (1 <= k)%nat
                              /\ t = pixel_y o - INR k * (10 * scale) /\ t > 0)
        /\ (forall t, In t (ticksYNeg g) <->
              exists k : nat, (1 <= k)%nat
                              /\ t = pixel_y o + INR k * (10 * scale) /\ t < height))
    /\ (forall k : nat,
          calculateRealCoords s
            (mkPixelCoords (pixel_x o + INR k * (10 * scale))
                           (pixel_y o - INR k * (10 * scale)))
          = mkRealCoords (10 * INR k) (10 * INR k)).
Proof.
  intros Ho Hs Hpos Hgap Hox Hoy Hw Hh Hplus Hminus.
  destruct (gridTicksWith_ends plus minus o scale width height gap bound
              Hgap Hox Hoy Hw Hh Hplus Hminus)
    as (fuel & g & Hends & M1 & M2 & M3 & M4).
  exists fuel, g.
  split; [exact Hends|]. split; [exact M1|]. split; [exact M2|].
  split; [exact M3|]. split; [exact M4|]. split.
  - intros Hp Hm.
    destruct (gridTicks_marks o scale width height Hpos)
      as (fuel2 & g2 & Hends2 & I1 & I2 & I3 & I4).
    assert (E : g = g2).
    { pose proof (Hends (fuel + fuel2)%nat ltac:(lia)) as E1.
      pose proof (Hends2 (fuel + fuel2)%nat ltac:(lia)) as E2.
      rewrite (gridTicksWith_exact plus minus _ o scale width height Hp Hm) in E1.
      congruence. }
    subst g2. auto.
  - intros k.
    rewrite (calculateRealCoords_finite s o _ scale Ho Hs) by lra.
    cbn [pixel_x pixel_y]. f_equal; field; lra.
Qed.

Lemma X24_grid_marks_every_ten_units_witness :
  exists fuel g,
    (forall fuel', (fuel <= fuel')%nat ->
       gridTicksWith Rplus Rminus fuel' (mkPixelCoords 50 50) 10 200 200 = Some g)
    /\ Forall (fun t => pixel_x (mkPixelCoords 50 50) < t < 200) (ticksXPos g)
    /\ Forall (fun t => 0 < t < pixel_x (mkPixelCoords 50 50)) (ticksXNeg g)
    /\ Forall (fun t => 0 < t < pixel_y (mkPixelCoords 50 50)) (ticksYPos g)
    /\ Forall (fun t => pixel_y (mkPixelCoords 50 50) < t < 200) (ticksYNeg g)
    /\ ((forall i, Rplus i (10 * 10) = i + 10 * 10) ->
        (forall i, Rminus i (10 * 10) = i - 10 * 10) ->
        (forall t, In t (ticksXPos g) <->
           exists k : nat, (1 <= k)%nat
                           /\ t = pixel_x (mkPixelCoords 50 50) + INR k * (10 * 10)
                           /\ t < 200)
        /\ (forall t, In t (ticksXNeg g) <->
              exists k : nat, (1 <= k)%nat
                              /\ t = pixel_x (mkPixelCoords 50 50) - INR k * (10 * 10)
                              /\ t > 0)
        /\ (forall t, In t (ticksYPos g) <->
              exists k : nat, (1 <= k)%nat
                              /\ t = pixel_y (mkPixelCoords 50 50) - INR k * (10 * 10)
                              /\ t > 0)
        /\ (forall t, In t (ticksYNeg g) <->
              exists k : nat, (1 <= k)%nat
                              /\ t = pixel_y (mkPixelCoords 50 50) + INR k * (10 * 10)
                              /\ t < 200))
    /\ (forall k : nat,
          calculateRealCoords scenarioSession
            (mkPixelCoords (pixel_x (mkPixelCoords 50 50) + INR k * (10 * 10))
                           (pixel_y (mkPixelCoords 50 50) - INR k * (10 * 10)))
          = mkRealCoords (10 * INR k) (10 * INR k)).
Proof.
  apply (X24_grid_marks_every_ten_units scenarioSession (mkPixelCoords 50 50)
           10 200 200 Rplus Rminus 100 200);
    try reflexivity; try lra.
  - simpl. rewrite Rabs_pos_eq; lra.
  - simpl. rewrite Rabs_pos_eq; lra.
  - intros i _. lra.
  - intros i _. lra.
Defined.

(** X25: the grid with a negative scale.  A negative known distance stores a
    negative scale; the grid is then drawn all the same, its step is
    negative, and with the origin inside the image the first loop,
    [for (let i = origin.x + tickInterval; i < width; i += tickInterval)],
    never ends: no number of rounds suffices. *)
Theorem X25_grid_never_ends_with_negative_scale
  (o : PixelCoords) (scale width height : R) :
  scale < 0 -> pixel_x o <= width ->
  forall fuel, gridTicks fuel o scale width height = None.
Proof.
  intros Hneg Hin fuel. unfold gridTicks. cbv zeta.
  rewrite ticksBelow_diverges; [reflexivity | lra | lra].
Qed.

Lemma X25_grid_never_ends_with_negative_scale_witness :
  gridTicks 1000 (mkPixelCoords 50 50) (-10) 200 200 = None.
Proof.
  apply (X25_grid_never_ends_with_negative_scale (mkPixelCoords 50 50) (-10) 200 200).
  - lra.
  - simpl. lra.
Defined.

(** X26: where the map goes on the page of the PDF.  For a page larger than
    the margins and a canvas of positive size, the image keeps the aspect
    ratio of the canvas, is as large as the area left by the margins of 40
    and the 30 points of the title allows (it fills its width or its height),
    is centred horizontally, starts at 75 points from the top or lower, and
    ends at 35 points from the bottom or higher: 5 points into the bottom
    margin when the height is the limit. *)
Theorem X26_pdf_image_placement (pageWidth pageHeight canvasWidth canvasHeight : R) :
  80 < pageWidth -> 110 < pageHeight -> 0 < canvasWidth -> 0 < canvasHeight ->
  let p := pdfImagePlacement pageWidth pageHeight canvasWidth canvasHeight in
  0 < finalWidth p /\ 0 < finalHeight p
  /\ finalWidth p * canvasHeight = finalHeight p * canvasWidth
  /\ finalWidth p <= pageWidth - 80
  /\ finalHeight p <= pageHeight - 110
  /\ (finalWidth p = pageWidth - 80 \/ finalHeight p = pageHeight - 110)
  /\ place_x p + finalWidth p / 2 = pageWidth / 2
  /\ 40 <= place_x p
  /\ 75 <= place_y p
  /\ place_y p + finalHeight p <= pageHeight - 35
  /\ (finalHeight p = pageHeight - 110 ->
      place_y p + finalHeight p = pageHeight - 35).
Proof.
  intros Hw Hh Hcw Hch. unfold pdfImagePlacement. cbv zeta.
  set (aw := pageWidth - 40 * 2).
  set (ah := pageHeight - 40 * 2 - 30).
  assert (Haw : 0 < aw) by (unfold aw; lra).
  assert (Hah : 0 < ah) by (unfold ah; lra).
  set (r := canvasWidth / canvasHeight).
  assert (Hr : 0 < r) by (apply Rdiv_lt_0_compat; assumption).
  assert (Er : r * canvasHeight = canvasWidth) by (unfold r; field; lra).
  destruct (Rgt_dec r (aw / ah)) as [Hgt|Hle]; cbn [finalWidth finalHeight place_x place_y].
  - assert (H1 : aw / r < ah).
    { apply (Rmult_lt_reg_r r); [exact Hr|].
      replace (aw / r * r) with aw by (field; lra).
      apply (Rmult_lt_compat_r ah) in Hgt; [|exact Hah].
      replace (aw / ah * ah) with aw in Hgt by (field; lra). lra. }
    assert (H2 : 0 < aw / r) by (apply Rdiv_lt_0_compat; assumption).
    assert (H3 : aw * canvasHeight = aw / r * canvasWidth)
      by (rewrite <- Er; field; lra).
    unfold aw, ah in *. repeat split; try lra.
  - assert (H1 : ah * r <= aw).
    { apply Rnot_gt_le in Hle.
      apply (Rmult_le_compat_r ah) in Hle; [|lra].
      replace (aw / ah * ah) with aw in Hle by (field; lra). lra. }
    assert (H2 : 0 < ah * r) by (apply Rmult_lt_0_compat; assumption).
    assert (H3 : ah * r * canvasHeight = ah * canvasWidth)
      by (rewrite <- Er; ring).
    unfold aw, ah in *. repeat split; try lra.
Qed.

Lemma X26_pdf_image_placement_witness :
  let p := pdfImagePlacement 595 842 800 600 in
  0 < finalWidth p /\ 0 < finalHeight p
  /\ finalWidth p * 600 = finalHeight p * 800
  /\ finalWidth p <= 595 - 80
  /\ finalHeight p <= 842 - 110
  /\ (finalWidth p = 595 - 80 \/ finalHeight p = 842 - 110)
  /\ place_x p + finalWidth p / 2 = 595 / 2
  /\ 40 <= place_x p
  /\ 75 <= place_y p
  /\ place_y p + finalHeight p <= 842 - 35
  /\ (finalHeight p = 842 - 110 ->
      place_y p + finalHeight p = 842 - 35).
Proof.
  apply (X26_pdf_image_placement 595 842 800 600); lra.
Defined.




